(** * fleetdm-osquery-defense-kit: the query converter (cmd/convert/main.go)

    A shallow embedding of the converter and the properties of its
    specification.  Go strings are byte strings and are modelled as [string]
    (one [ascii] per byte); Go's [int] is the 64-bit one and is modelled as
    [Z] with its range written out where the code depends on it.  The output
    directory is a finite map from file names to file contents. *)

From Stdlib Require Import ZArith Lia Ascii Permutation.
From stdpp Require Import base option list strings gmap pretty.

Local Open Scope Z_scope.

(** ** Bytes *)

Definition dquote : ascii := "034"%char.
Definition backslash : ascii := "\"%char.
Definition newline : ascii := "010"%char.

Definition byte_val (c : ascii) : N := N_of_ascii c.

(** A byte below [utf8.RuneSelf] (0x80). *)
Definition is_ascii_byte (c : ascii) : bool := (byte_val c <? 128)%N.

Fixpoint all_bytes (p : ascii → bool) (s : string) : bool :=
  match s with
  | EmptyString => true
  | String c s' => p c && all_bytes p s'
  end.

Fixpoint any_byte (p : ascii → bool) (s : string) : bool :=
  match s with
  | EmptyString => false
  | String c s' => p c || any_byte p s'
  end.

Definition is_ascii (s : string) : bool := all_bytes is_ascii_byte s.

(** [mem_byte c set]: the byte [c] occurs in [set]. *)
Definition mem_byte (c : ascii) (set : string) : bool :=
  any_byte (Ascii.eqb c) set.

(** ** The Go [strings] package, as far as the converter uses it *)

Module strings.

(** [s[n:]] for [n <= len(s)]. *)
Fixpoint drop (n : nat) (s : string) : string :=
  match n, s with
  | O, _ => s
  | S n', String _ s' => drop n' s'
  | S _, EmptyString => EmptyString
  end.

(** [s[:n]] for [n <= len(s)]. *)
Fixpoint take (n : nat) (s : string) : string :=
  match n, s with
  | O, _ => EmptyString
  | S n', String c s' => String c (take n' s')
  | S _, EmptyString => EmptyString
  end.

(** [strings.HasPrefix]: [len(s) >= len(prefix) && s[:len(prefix)] == prefix]. *)
Fixpoint HasPrefix (s prefix : string) {struct prefix} : bool :=
  match prefix, s with
  | EmptyString, _ => true
  | String p prefix', String c s' => Ascii.eqb c p && HasPrefix s' prefix'
  | String _ _, EmptyString => false
  end.

Definition TrimPrefix (s prefix : string) : string :=
  if HasPrefix s prefix then drop (String.length prefix) s else s.

(** [strings.HasSuffix]: [len(s) >= len(suffix) && s[len(s)-len(suffix):] == suffix]. *)
Definition HasSuffix (s suffix : string) : bool :=
  (String.length suffix <=? String.length s)%nat
  && String.eqb (drop (String.length s - String.length suffix) s) suffix.

Definition TrimSuffix (s suffix : string) : string :=
  if HasSuffix s suffix
  then take (String.length s - String.length suffix) s
  else s.

(** [strings.ContainsAny] with an ASCII-only [chars] (the only use in the
    converter): some byte of [s] is one of [chars]. *)
Definition ContainsAny (s chars : string) : bool :=
  any_byte (fun c => mem_byte c chars) s.

(** [strings.ReplaceAll] for a non-empty [old]: the non-overlapping
    occurrences of [old] are replaced from left to right.  [skip] counts the
    bytes of the occurrence being replaced that are still to be passed. *)
Fixpoint replace_from (old new : string) (skip : nat) (s : string) : string :=
  match s with
  | EmptyString => EmptyString
  | String c s' =>
      match skip with
      | S k => replace_from old new k s'
      | O =>
          if HasPrefix s old
          then new +:+ replace_from old new (String.length old - 1) s'
          else String c (replace_from old new O s')
      end
  end.

Definition ReplaceAll (s old new : string) : string :=
  replace_from old new O s.

(** [strings.Join]. *)
Fixpoint Join (elems : list string) (sep : string) : string :=
  match elems with
  | [] => EmptyString
  | [e] => e
  | e :: rest => e +:+ sep +:+ Join rest sep
  end.

(** [strings.Split] for a non-empty [sep]; the result is never empty. *)
Fixpoint split_from (sep : string) (skip : nat) (s : string) : list string :=
  match s with
  | EmptyString => [EmptyString]
  | String c s' =>
      match skip with
      | S k => split_from sep k s'
      | O =>
          if HasPrefix s sep
          then EmptyString :: split_from sep (String.length sep - 1) s'
          else match split_from sep O s' with
               | piece :: pieces => String c piece :: pieces
               | [] => [String c EmptyString]
               end
      end
  end.

Definition Split (s sep : string) : list string := split_from sep O s.

End strings.

(** ** Scalar escaping (escapeYAML, escapeYAMLMultiline) *)

Definition yaml_special : string :=
  ":#{}[]|>&*!?'" +:+ String dquote (String backslash EmptyString).

Definition needs_quoting (s : string) : bool :=
  strings.ContainsAny s yaml_special
  || strings.HasPrefix s "-" || strings.HasPrefix s "@".

Definition escapeYAML (s : string) : string :=
  if needs_quoting s then
    let s1 := strings.ReplaceAll s (String backslash EmptyString)
                (String backslash (String backslash EmptyString)) in
    let s2 := strings.ReplaceAll s1 (String dquote EmptyString)
                (String backslash (String dquote EmptyString)) in
    String dquote EmptyString +:+ s2 +:+ String dquote EmptyString
  else s.

Definition escapeYAMLMultiline (s : string) : string := s.

(** ** Unicode in a byte string

    [strings.TrimSpace] and [strings.Fields] decode UTF-8 and test
    [unicode.IsSpace]; [strings.ToLower] and [strings.Title] map the case
    tables of package unicode over the decoded runes.  All four are
    modelled on the bytes of the string. *)

Module utf8.

Definition RuneError : N := 0xFFFD%N.

(** A continuation byte 10xxxxxx. *)
Definition is_cont (c : ascii) : bool :=
  (0x80 <=? byte_val c)%N && (byte_val c <=? 0xBF)%N.

Definition in_range (lo hi : N) (c : ascii) : bool :=
  (lo <=? byte_val c)%N && (byte_val c <=? hi)%N.

Definition low6 (c : ascii) : N := (byte_val c - 0x80)%N.

(** The bounds on the second byte that rule out over-long forms,
    surrogates and values above U+10FFFF ([acceptRanges] in the library). *)
Definition second_ok (b0 b1 : ascii) : bool :=
  let n := byte_val b0 in
  if (n =? 0xE0)%N then in_range 0xA0 0xBF b1
  else if (n =? 0xED)%N then in_range 0x80 0x9F b1
  else if (n =? 0xF0)%N then in_range 0x90 0xBF b1
  else if (n =? 0xF4)%N then in_range 0x80 0x8F b1
  else is_cont b1.

(** [utf8.DecodeRuneInString]: the first rune of [s] and its width in
    bytes; [(RuneError, 0)] at the end of the string and [(RuneError, 1)]
    on bytes that are not a well-formed encoding. *)
Definition DecodeRuneInString (s : string) : N * nat :=
  match s with
  | EmptyString => (RuneError, 0%nat)
  | String b0 s1 =>
      let n0 := byte_val b0 in
      if (n0 <? 0x80)%N then (n0, 1%nat)
      else if in_range 0xC2 0xDF b0 then
        match s1 with
        | String b1 _ =>
            if is_cont b1
            then (((n0 - 0xC0) * 64 + low6 b1)%N, 2%nat)
            else (RuneError, 1%nat)
        | EmptyString => (RuneError, 1%nat)
        end
      else if in_range 0xE0 0xEF b0 then
        match s1 with
        | String b1 (String b2 _) =>
            if second_ok b0 b1 && is_cont b2
            then ((((n0 - 0xE0) * 64 + low6 b1) * 64 + low6 b2)%N, 3%nat)
            else (RuneError, 1%nat)
        | _ => (RuneError, 1%nat)
        end
      else if in_range 0xF0 0xF4 b0 then
        match s1 with
        | String b1 (String b2 (String b3 _)) =>
            if second_ok b0 b1 && is_cont b2 && is_cont b3
            then (((((n0 - 0xF0) * 64 + low6 b1) * 64 + low6 b2) * 64
                    + low6 b3)%N, 4%nat)
            else (RuneError, 1%nat)
        | _ => (RuneError, 1%nat)
        end
      else (RuneError, 1%nat)
  end.

(** [for _, r := range s]: the runes of [s] in order, [RuneError] for
    every byte that starts no well-formed encoding.  [skip] counts the
    bytes of the current rune still to pass. *)
Fixpoint runes_from (skip : nat) (s : string) : list N :=
  match s with
  | EmptyString => []
  | String _ s' =>
      match skip with
      | S k => runes_from k s'
      | O => let '(r, w) := DecodeRuneInString s in r :: runes_from (w - 1) s'
      end
  end.

Definition runes (s : string) : list N := runes_from O s.

(** [utf8.ValidString]: every rune of [s] is a well-formed encoding. *)
Fixpoint valid_from (skip : nat) (s : string) : bool :=
  match s with
  | EmptyString => true
  | String _ s' =>
      match skip with
      | S k => valid_from k s'
      | O =>
          let '(r, w) := DecodeRuneInString s in
          negb ((r =? RuneError)%N && (w =? 1)%nat) && valid_from (w - 1) s'
      end
  end.

Definition ValidString (s : string) : bool := valid_from O s.

(** [utf8.AppendRune]: the encoding of [r]; a surrogate or a value above
    U+10FFFF is written as [RuneError]. *)
Definition EncodeRune (r : N) : string :=
  (if r <=? 0x7F then String (ascii_of_N r) EmptyString
   else if r <=? 0x7FF then
     String (ascii_of_N (0xC0 + r / 64))
       (String (ascii_of_N (0x80 + r mod 64)) EmptyString)
   else if (0x10FFFF <? r) || (0xD800 <=? r) && (r <=? 0xDFFF) then
     String (ascii_of_N 0xEF)
       (String (ascii_of_N 0xBF) (String (ascii_of_N 0xBD) EmptyString))
   else if r <=? 0xFFFF then
     String (ascii_of_N (0xE0 + r / 4096))
       (String (ascii_of_N (0x80 + (r / 64) mod 64))
          (String (ascii_of_N (0x80 + r mod 64)) EmptyString))
   else
     String (ascii_of_N (0xF0 + r / 262144))
       (String (ascii_of_N (0x80 + (r / 4096) mod 64))
          (String (ascii_of_N (0x80 + (r / 64) mod 64))
             (String (ascii_of_N (0x80 + r mod 64)) EmptyString))))%N.

End utf8.

Module unicode.

(** [unicode.IsSpace]: the Latin-1 cases and the White_Space table. *)
Definition IsSpace (r : N) : bool :=
  ((0x09 <=? r) && (r <=? 0x0D) || (r =? 0x20) || (r =? 0x85) || (r =? 0xA0)
   || (r =? 0x1680) || ((0x2000 <=? r) && (r <=? 0x200A))
   || (r =? 0x2028) || (r =? 0x2029) || (r =? 0x202F) || (r =? 0x205F)
   || (r =? 0x3000))%N.

Definition MaxRune : N := 0x10FFFF%N.
Definition MaxASCII : N := 0x7F%N.

(** The indices into the deltas of a [CaseRange]. *)
Definition UpperCase : nat := 0.
Definition LowerCase : nat := 1.
Definition TitleCase : nat := 2.

(** The delta that marks a run of alternating upper and lower case. *)
Definition UpperLower : Z := 0x110000.

(** A range of runes with the distance to their upper, lower and title
    case. *)
Record CaseRange := CR {
  Lo : N;
  Hi : N;
  dUpper : Z;
  dLower : Z;
  dTitle : Z
}.

Definition Delta (cr : CaseRange) (_case : nat) : Z :=
  match _case with
  | O => dUpper cr
  | S O => dLower cr
  | _ => dTitle cr
  end.

(** [unicode.CaseRanges]: the simple case mappings of the Unicode
    Character Database, in increasing order of the runes.  The table is
    that of version 14.0 of the database; a later version adds the letters
    of newer scripts and changes no mapping of this table. *)
Definition CaseRanges : list CaseRange := [
  CR 0x0041 0x005A 0 32 0;
  CR 0x0061 0x007A (-32) 0 (-32);
  CR 0x00B5 0x00B5 743 0 743;
  CR 0x00C0 0x00D6 0 32 0;
  CR 0x00D8 0x00DE 0 32 0;
  CR 0x00E0 0x00F6 (-32) 0 (-32);
  CR 0x00F8 0x00FE (-32) 0 (-32);
  CR 0x00FF 0x00FF 121 0 121;
  CR 0x0100 0x012F UpperLower UpperLower UpperLower;
  CR 0x0130 0x0130 0 (-199) 0;
  CR 0x0131 0x0131 (-232) 0 (-232);
  CR 0x0132 0x0137 UpperLower UpperLower UpperLower;
  CR 0x0139 0x0148 UpperLower UpperLower UpperLower;
  CR 0x014A 0x0177 UpperLower UpperLower UpperLower;
  CR 0x0178 0x0178 0 (-121) 0;
  CR 0x0179 0x017E UpperLower UpperLower UpperLower;
  CR 0x017F 0x017F (-300) 0 (-300);
  CR 0x0180 0x0180 195 0 195;
  CR 0x0181 0x0181 0 210 0;
  CR 0x0182 0x0185 UpperLower UpperLower UpperLower;
  CR 0x0186 0x0186 0 206 0;
  CR 0x0187 0x0187 0 1 0;
  CR 0x0188 0x0188 (-1) 0 (-1);
  CR 0x0189 0x018A 0 205 0;
  CR 0x018B 0x018B 0 1 0;
  CR 0x018C 0x018C (-1) 0 (-1);
  CR 0x018E 0x018E 0 79 0;
  CR 0x018F 0x018F 0 202 0;
  CR 0x0190 0x0190 0 203 0;
  CR 0x0191 0x0191 0 1 0;
  CR 0x0192 0x0192 (-1) 0 (-1);
  CR 0x0193 0x0193 0 205 0;
  CR 0x0194 0x0194 0 207 0;
  CR 0x0195 0x0195 97 0 97;
  CR 0x0196 0x0196 0 211 0;
  CR 0x0197 0x0197 0 209 0;
  CR 0x0198 0x0198 0 1 0;
  CR 0x0199 0x0199 (-1) 0 (-1);
  CR 0x019A 0x019A 163 0 163;
  CR 0x019C 0x019C 0 211 0;
  CR 0x019D 0x019D 0 213 0;
  CR 0x019E 0x019E 130 0 130;
  CR 0x019F 0x019F 0 214 0;
  CR 0x01A0 0x01A5 UpperLower UpperLower UpperLower;
  CR 0x01A6 0x01A6 0 218 0;
  CR 0x01A7 0x01A7 0 1 0;
  CR 0x01A8 0x01A8 (-1) 0 (-1);
  CR 0x01A9 0x01A9 0 218 0;
  CR 0x01AC 0x01AC 0 1 0;
  CR 0x01AD 0x01AD (-1) 0 (-1);
  CR 0x01AE 0x01AE 0 218 0;
  CR 0x01AF 0x01AF 0 1 0;
  CR 0x01B0 0x01B0 (-1) 0 (-1);
  CR 0x01B1 0x01B2 0 217 0;
  CR 0x01B3 0x01B6 UpperLower UpperLower UpperLower;
  CR 0x01B7 0x01B7 0 219 0;
  CR 0x01B8 0x01B8 0 1 0;
  CR 0x01B9 0x01B9 (-1) 0 (-1);
  CR 0x01BC 0x01BC 0 1 0;
  CR 0x01BD 0x01BD (-1) 0 (-1);
  CR 0x01BF 0x01BF 56 0 56;
  CR 0x01C4 0x01C4 0 2 1;
  CR 0x01C5 0x01C5 (-1) 1 0;
  CR 0x01C6 0x01C6 (-2) 0 (-1);
  CR 0x01C7 0x01C7 0 2 1;
  CR 0x01C8 0x01C8 (-1) 1 0;
  CR 0x01C9 0x01C9 (-2) 0 (-1);
  CR 0x01CA 0x01CA 0 2 1;
  CR 0x01CB 0x01CB (-1) 1 0;
  CR 0x01CC 0x01CC (-2) 0 (-1);
  CR 0x01CD 0x01DC UpperLower UpperLower UpperLower;
  CR 0x01DD 0x01DD (-79) 0 (-79);
  CR 0x01DE 0x01EF UpperLower UpperLower UpperLower;
  CR 0x01F1 0x01F1 0 2 1;
  CR 0x01F2 0x01F2 (-1) 1 0;
  CR 0x01F3 0x01F3 (-2) 0 (-1);
  CR 0x01F4 0x01F4 0 1 0;
  CR 0x01F5 0x01F5 (-1) 0 (-1);
  CR 0x01F6 0x01F6 0 (-97) 0;
  CR 0x01F7 0x01F7 0 (-56) 0;
  CR 0x01F8 0x021F UpperLower UpperLower UpperLower;
  CR 0x0220 0x0220 0 (-130) 0;
  CR 0x0222 0x0233 UpperLower UpperLower UpperLower;
  CR 0x023A 0x023A 0 10795 0;
  CR 0x023B 0x023B 0 1 0;
  CR 0x023C 0x023C (-1) 0 (-1);
  CR 0x023D 0x023D 0 (-163) 0;
  CR 0x023E 0x023E 0 10792 0;
  CR 0x023F 0x0240 10815 0 10815;
  CR 0x0241 0x0241 0 1 0;
  CR 0x0242 0x0242 (-1) 0 (-1);
  CR 0x0243 0x0243 0 (-195) 0;
  CR 0x0244 0x0244 0 69 0;
  CR 0x0245 0x0245 0 71 0;
  CR 0x0246 0x024F UpperLower UpperLower UpperLower;
  CR 0x0250 0x0250 10783 0 10783;
  CR 0x0251 0x0251 10780 0 10780;
  CR 0x0252 0x0252 10782 0 10782;
  CR 0x0253 0x0253 (-210) 0 (-210);
  CR 0x0254 0x0254 (-206) 0 (-206);
  CR 0x0256 0x0257 (-205) 0 (-205);
  CR 0x0259 0x0259 (-202) 0 (-202);
  CR 0x025B 0x025B (-203) 0 (-203);
  CR 0x025C 0x025C 42319 0 42319;
  CR 0x0260 0x0260 (-205) 0 (-205);
  CR 0x0261 0x0261 42315 0 42315;
  CR 0x0263 0x0263 (-207) 0 (-207);
  CR 0x0265 0x0265 42280 0 42280;
  CR 0x0266 0x0266 42308 0 42308;
  CR 0x0268 0x0268 (-209) 0 (-209);
  CR 0x0269 0x0269 (-211) 0 (-211);
  CR 0x026A 0x026A 42308 0 42308;
  CR 0x026B 0x026B 10743 0 10743;
  CR 0x026C 0x026C 42305 0 42305;
  CR 0x026F 0x026F (-211) 0 (-211);
  CR 0x0271 0x0271 10749 0 10749;
  CR 0x0272 0x0272 (-213) 0 (-213);
  CR 0x0275 0x0275 (-214) 0 (-214);
  CR 0x027D 0x027D 10727 0 10727;
  CR 0x0280 0x0280 (-218) 0 (-218);
  CR 0x0282 0x0282 42307 0 42307;
  CR 0x0283 0x0283 (-218) 0 (-218);
  CR 0x0287 0x0287 42282 0 42282;
  CR 0x0288 0x0288 (-218) 0 (-218);
  CR 0x0289 0x0289 (-69) 0 (-69);
  CR 0x028A 0x028B (-217) 0 (-217);
  CR 0x028C 0x028C (-71) 0 (-71);
  CR 0x0292 0x0292 (-219) 0 (-219);
  CR 0x029D 0x029D 42261 0 42261;
  CR 0x029E 0x029E 42258 0 42258;
  CR 0x0345 0x0345 84 0 84;
  CR 0x0370 0x0373 UpperLower UpperLower UpperLower;
  CR 0x0376 0x0376 0 1 0;
  CR 0x0377 0x0377 (-1) 0 (-1);
  CR 0x037B 0x037D 130 0 130;
  CR 0x037F 0x037F 0 116 0;
  CR 0x0386 0x0386 0 38 0;
  CR 0x0388 0x038A 0 37 0;
  CR 0x038C 0x038C 0 64 0;
  CR 0x038E 0x038F 0 63 0;
  CR 0x0391 0x03A1 0 32 0;
  CR 0x03A3 0x03AB 0 32 0;
  CR 0x03AC 0x03AC (-38) 0 (-38);
  CR 0x03AD 0x03AF (-37) 0 (-37);
  CR 0x03B1 0x03C1 (-32) 0 (-32);
  CR 0x03C2 0x03C2 (-31) 0 (-31);
  CR 0x03C3 0x03CB (-32) 0 (-32);
  CR 0x03CC 0x03CC (-64) 0 (-64);
  CR 0x03CD 0x03CE (-63) 0 (-63);
  CR 0x03CF 0x03CF 0 8 0;
  CR 0x03D0 0x03D0 (-62) 0 (-62);
  CR 0x03D1 0x03D1 (-57) 0 (-57);
  CR 0x03D5 0x03D5 (-47) 0 (-47);
  CR 0x03D6 0x03D6 (-54) 0 (-54);
  CR 0x03D7 0x03D7 (-8) 0 (-8);
  CR 0x03D8 0x03EF UpperLower UpperLower UpperLower;
  CR 0x03F0 0x03F0 (-86) 0 (-86);
  CR 0x03F1 0x03F1 (-80) 0 (-80);
  CR 0x03F2 0x03F2 7 0 7;
  CR 0x03F3 0x03F3 (-116) 0 (-116);
  CR 0x03F4 0x03F4 0 (-60) 0;
  CR 0x03F5 0x03F5 (-96) 0 (-96);
  CR 0x03F7 0x03F7 0 1 0;
  CR 0x03F8 0x03F8 (-1) 0 (-1);
  CR 0x03F9 0x03F9 0 (-7) 0;
  CR 0x03FA 0x03FA 0 1 0;
  CR 0x03FB 0x03FB (-1) 0 (-1);
  CR 0x03FD 0x03FF 0 (-130) 0;
  CR 0x0400 0x040F 0 80 0;
  CR 0x0410 0x042F 0 32 0;
  CR 0x0430 0x044F (-32) 0 (-32);
  CR 0x0450 0x045F (-80) 0 (-80);
  CR 0x0460 0x0481 UpperLower UpperLower UpperLower;
  CR 0x048A 0x04BF UpperLower UpperLower UpperLower;
  CR 0x04C0 0x04C0 0 15 0;
  CR 0x04C1 0x04CE UpperLower UpperLower UpperLower;
  CR 0x04CF 0x04CF (-15) 0 (-15);
  CR 0x04D0 0x052F UpperLower UpperLower UpperLower;
  CR 0x0531 0x0556 0 48 0;
  CR 0x0561 0x0586 (-48) 0 (-48);
  CR 0x10A0 0x10C5 0 7264 0;
  CR 0x10C7 0x10C7 0 7264 0;
  CR 0x10CD 0x10CD 0 7264 0;
  CR 0x10D0 0x10FA 3008 0 0;
  CR 0x10FD 0x10FF 3008 0 0;
  CR 0x13A0 0x13EF 0 38864 0;
  CR 0x13F0 0x13F5 0 8 0;
  CR 0x13F8 0x13FD (-8) 0 (-8);
  CR 0x1C80 0x1C80 (-6254) 0 (-6254);
  CR 0x1C81 0x1C81 (-6253) 0 (-6253);
  CR 0x1C82 0x1C82 (-6244) 0 (-6244);
  CR 0x1C83 0x1C84 (-6242) 0 (-6242);
  CR 0x1C85 0x1C85 (-6243) 0 (-6243);
  CR 0x1C86 0x1C86 (-6236) 0 (-6236);
  CR 0x1C87 0x1C87 (-6181) 0 (-6181);
  CR 0x1C88 0x1C88 35266 0 35266;
  CR 0x1C90 0x1CBA 0 (-3008) 0;
  CR 0x1CBD 0x1CBF 0 (-3008) 0;
  CR 0x1D79 0x1D79 35332 0 35332;
  CR 0x1D7D 0x1D7D 3814 0 3814;
  CR 0x1D8E 0x1D8E 35384 0 35384;
  CR 0x1E00 0x1E95 UpperLower UpperLower UpperLower;
  CR 0x1E9B 0x1E9B (-59) 0 (-59);
  CR 0x1E9E 0x1E9E 0 (-7615) 0;
  CR 0x1EA0 0x1EFF UpperLower UpperLower UpperLower;
  CR 0x1F00 0x1F07 8 0 8;
  CR 0x1F08 0x1F0F 0 (-8) 0;
  CR 0x1F10 0x1F15 8 0 8;
  CR 0x1F18 0x1F1D 0 (-8) 0;
  CR 0x1F20 0x1F27 8 0 8;
  CR 0x1F28 0x1F2F 0 (-8) 0;
  CR 0x1F30 0x1F37 8 0 8;
  CR 0x1F38 0x1F3F 0 (-8) 0;
  CR 0x1F40 0x1F45 8 0 8;
  CR 0x1F48 0x1F4D 0 (-8) 0;
  CR 0x1F51 0x1F51 8 0 8;
  CR 0x1F53 0x1F53 8 0 8;
  CR 0x1F55 0x1F55 8 0 8;
  CR 0x1F57 0x1F57 8 0 8;
  CR 0x1F59 0x1F59 0 (-8) 0;
  CR 0x1F5B 0x1F5B 0 (-8) 0;
  CR 0x1F5D 0x1F5D 0 (-8) 0;
  CR 0x1F5F 0x1F5F 0 (-8) 0;
  CR 0x1F60 0x1F67 8 0 8;
  CR 0x1F68 0x1F6F 0 (-8) 0;
  CR 0x1F70 0x1F71 74 0 74;
  CR 0x1F72 0x1F75 86 0 86;
  CR 0x1F76 0x1F77 100 0 100;
  CR 0x1F78 0x1F79 128 0 128;
  CR 0x1F7A 0x1F7B 112 0 112;
  CR 0x1F7C 0x1F7D 126 0 126;
  CR 0x1F80 0x1F87 8 0 8;
  CR 0x1F88 0x1F8F 0 (-8) 0;
  CR 0x1F90 0x1F97 8 0 8;
  CR 0x1F98 0x1F9F 0 (-8) 0;
  CR 0x1FA0 0x1FA7 8 0 8;
  CR 0x1FA8 0x1FAF 0 (-8) 0;
  CR 0x1FB0 0x1FB1 8 0 8;
  CR 0x1FB3 0x1FB3 9 0 9;
  CR 0x1FB8 0x1FB9 0 (-8) 0;
  CR 0x1FBA 0x1FBB 0 (-74) 0;
  CR 0x1FBC 0x1FBC 0 (-9) 0;
  CR 0x1FBE 0x1FBE (-7205) 0 (-7205);
  CR 0x1FC3 0x1FC3 9 0 9;
  CR 0x1FC8 0x1FCB 0 (-86) 0;
  CR 0x1FCC 0x1FCC 0 (-9) 0;
  CR 0x1FD0 0x1FD1 8 0 8;
  CR 0x1FD8 0x1FD9 0 (-8) 0;
  CR 0x1FDA 0x1FDB 0 (-100) 0;
  CR 0x1FE0 0x1FE1 8 0 8;
  CR 0x1FE5 0x1FE5 7 0 7;
  CR 0x1FE8 0x1FE9 0 (-8) 0;
  CR 0x1FEA 0x1FEB 0 (-112) 0;
  CR 0x1FEC 0x1FEC 0 (-7) 0;
  CR 0x1FF3 0x1FF3 9 0 9;
  CR 0x1FF8 0x1FF9 0 (-128) 0;
  CR 0x1FFA 0x1FFB 0 (-126) 0;
  CR 0x1FFC 0x1FFC 0 (-9) 0;
  CR 0x2126 0x2126 0 (-7517) 0;
  CR 0x212A 0x212A 0 (-8383) 0;
  CR 0x212B 0x212B 0 (-8262) 0;
  CR 0x2132 0x2132 0 28 0;
  CR 0x214E 0x214E (-28) 0 (-28);
  CR 0x2160 0x216F 0 16 0;
  CR 0x2170 0x217F (-16) 0 (-16);
  CR 0x2183 0x2183 0 1 0;
  CR 0x2184 0x2184 (-1) 0 (-1);
  CR 0x24B6 0x24CF 0 26 0;
  CR 0x24D0 0x24E9 (-26) 0 (-26);
  CR 0x2C00 0x2C2F 0 48 0;
  CR 0x2C30 0x2C5F (-48) 0 (-48);
  CR 0x2C60 0x2C60 0 1 0;
  CR 0x2C61 0x2C61 (-1) 0 (-1);
  CR 0x2C62 0x2C62 0 (-10743) 0;
  CR 0x2C63 0x2C63 0 (-3814) 0;
  CR 0x2C64 0x2C64 0 (-10727) 0;
  CR 0x2C65 0x2C65 (-10795) 0 (-10795);
  CR 0x2C66 0x2C66 (-10792) 0 (-10792);
  CR 0x2C67 0x2C6C UpperLower UpperLower UpperLower;
  CR 0x2C6D 0x2C6D 0 (-10780) 0;
  CR 0x2C6E 0x2C6E 0 (-10749) 0;
  CR 0x2C6F 0x2C6F 0 (-10783) 0;
  CR 0x2C70 0x2C70 0 (-10782) 0;
  CR 0x2C72 0x2C72 0 1 0;
  CR 0x2C73 0x2C73 (-1) 0 (-1);
  CR 0x2C75 0x2C75 0 1 0;
  CR 0x2C76 0x2C76 (-1) 0 (-1);
  CR 0x2C7E 0x2C7F 0 (-10815) 0;
  CR 0x2C80 0x2CE3 UpperLower UpperLower UpperLower;
  CR 0x2CEB 0x2CEE UpperLower UpperLower UpperLower;
  CR 0x2CF2 0x2CF2 0 1 0;
  CR 0x2CF3 0x2CF3 (-1) 0 (-1);
  CR 0x2D00 0x2D25 (-7264) 0 (-7264);
  CR 0x2D27 0x2D27 (-7264) 0 (-7264);
  CR 0x2D2D 0x2D2D (-7264) 0 (-7264);
  CR 0xA640 0xA66D UpperLower UpperLower UpperLower;
  CR 0xA680 0xA69B UpperLower UpperLower UpperLower;
  CR 0xA722 0xA72F UpperLower UpperLower UpperLower;
  CR 0xA732 0xA76F UpperLower UpperLower UpperLower;
  CR 0xA779 0xA77C UpperLower UpperLower UpperLower;
  CR 0xA77D 0xA77D 0 (-35332) 0;
  CR 0xA77E 0xA787 UpperLower UpperLower UpperLower;
  CR 0xA78B 0xA78B 0 1 0;
  CR 0xA78C 0xA78C (-1) 0 (-1);
  CR 0xA78D 0xA78D 0 (-42280) 0;
  CR 0xA790 0xA793 UpperLower UpperLower UpperLower;
  CR 0xA794 0xA794 48 0 48;
  CR 0xA796 0xA7A9 UpperLower UpperLower UpperLower;
  CR 0xA7AA 0xA7AA 0 (-42308) 0;
  CR 0xA7AB 0xA7AB 0 (-42319) 0;
  CR 0xA7AC 0xA7AC 0 (-42315) 0;
  CR 0xA7AD 0xA7AD 0 (-42305) 0;
  CR 0xA7AE 0xA7AE 0 (-42308) 0;
  CR 0xA7B0 0xA7B0 0 (-42258) 0;
  CR 0xA7B1 0xA7B1 0 (-42282) 0;
  CR 0xA7B2 0xA7B2 0 (-42261) 0;
  CR 0xA7B3 0xA7B3 0 928 0;
  CR 0xA7B4 0xA7C3 UpperLower UpperLower UpperLower;
  CR 0xA7C4 0xA7C4 0 (-48) 0;
  CR 0xA7C5 0xA7C5 0 (-42307) 0;
  CR 0xA7C6 0xA7C6 0 (-35384) 0;
  CR 0xA7C7 0xA7CA UpperLower UpperLower UpperLower;
  CR 0xA7D0 0xA7D0 0 1 0;
  CR 0xA7D1 0xA7D1 (-1) 0 (-1);
  CR 0xA7D6 0xA7D9 UpperLower UpperLower UpperLower;
  CR 0xA7F5 0xA7F5 0 1 0;
  CR 0xA7F6 0xA7F6 (-1) 0 (-1);
  CR 0xAB53 0xAB53 (-928) 0 (-928);
  CR 0xAB70 0xABBF (-38864) 0 (-38864);
  CR 0xFF21 0xFF3A 0 32 0;
  CR 0xFF41 0xFF5A (-32) 0 (-32);
  CR 0x10400 0x10427 0 40 0;
  CR 0x10428 0x1044F (-40) 0 (-40);
  CR 0x104B0 0x104D3 0 40 0;
  CR 0x104D8 0x104FB (-40) 0 (-40);
  CR 0x10570 0x1057A 0 39 0;
  CR 0x1057C 0x1058A 0 39 0;
  CR 0x1058C 0x10592 0 39 0;
  CR 0x10594 0x10595 0 39 0;
  CR 0x10597 0x105A1 (-39) 0 (-39);
  CR 0x105A3 0x105B1 (-39) 0 (-39);
  CR 0x105B3 0x105B9 (-39) 0 (-39);
  CR 0x105BB 0x105BC (-39) 0 (-39);
  CR 0x10C80 0x10CB2 0 64 0;
  CR 0x10CC0 0x10CF2 (-64) 0 (-64);
  CR 0x118A0 0x118BF 0 32 0;
  CR 0x118C0 0x118DF (-32) 0 (-32);
  CR 0x16E40 0x16E5F 0 32 0;
  CR 0x16E60 0x16E7F (-32) 0 (-32);
  CR 0x1E900 0x1E921 0 34 0;
  CR 0x1E922 0x1E943 (-34) 0 (-34)
].

(** [unicode.to]: the range that holds [r] gives the mapping.  The ranges
    are disjoint and sorted, so that looking them up in order finds the
    range the binary search of the library finds. *)
Fixpoint to (_case : nat) (r : N) (caseRange : list CaseRange) : N :=
  match caseRange with
  | [] => r
  | cr :: rest =>
      if ((Lo cr <=? r) && (r <=? Hi cr))%N then
        if (Z.of_N MaxRune <? Delta cr _case) then
          (Lo cr + N.lor (N.ldiff (r - Lo cr) 1) (N.land (N.of_nat _case) 1))%N
        else Z.to_N (Z.of_N r + Delta cr _case)
      else to _case r rest
  end.

(** [unicode.ToLower] and [unicode.ToTitle], with their branch for
    ASCII. *)
Definition ToLower (r : N) : N :=
  if (r <=? MaxASCII)%N then
    if ((65 <=? r) && (r <=? 90))%N then (r + 32)%N else r
  else to LowerCase r CaseRanges.

Definition ToTitle (r : N) : N :=
  if (r <=? MaxASCII)%N then
    if ((97 <=? r) && (r <=? 122))%N then (r - 32)%N else r
  else to TitleCase r CaseRanges.

End unicode.

(** The width in bytes of the white-space rune [s] starts with, [0] when it
    starts with none. *)
Definition space_width (s : string) : nat :=
  let '(r, w) := utf8.DecodeRuneInString s in
  if unicode.IsSpace r then w else 0%nat.

(** Every byte of [s] with the flag "belongs to a white-space rune";
    [skip] counts the bytes of the current such rune still to come. *)
Fixpoint mark_spaces (skip : nat) (s : string) : list (ascii * bool) :=
  match s with
  | EmptyString => []
  | String c s' =>
      match skip with
      | S k => (c, true) :: mark_spaces k s'
      | O =>
          match space_width s with
          | O => (c, false) :: mark_spaces O s'
          | S k => (c, true) :: mark_spaces k s'
          end
      end
  end.

Fixpoint drop_spaces (m : list (ascii * bool)) : list (ascii * bool) :=
  match m with
  | (_, true) :: m' => drop_spaces m'
  | _ => m
  end.

Definition unmark (m : list (ascii * bool)) : string :=
  String.string_of_list_ascii (map fst m).

(** The field in progress at the head of [m] and the fields after it. *)
Fixpoint split_fields (m : list (ascii * bool)) : string * list string :=
  match m with
  | [] => (EmptyString, [])
  | (c, sp) :: m' =>
      let '(cur, finished) := split_fields m' in
      if sp then (EmptyString, if String.eqb cur "" then finished else cur :: finished)
      else (String c cur, finished)
  end.

Module Import strings_unicode.

(** [strings.TrimSpace]: leading and trailing white-space runes removed. *)
Definition TrimSpace (s : string) : string :=
  unmark (rev (drop_spaces (rev (drop_spaces (mark_spaces O s))))).

(** [strings.Fields]: the maximal runs of bytes without white-space runes. *)
Definition Fields (s : string) : list string :=
  let '(cur, done) := split_fields (mark_spaces O s) in
  if String.eqb cur "" then done else cur :: done.

Definition lower_byte (c : ascii) : ascii :=
  if (65 <=? byte_val c)%N && (byte_val c <=? 90)%N
  then ascii_of_N (byte_val c + 32) else c.

Fixpoint map_bytes (f : ascii → ascii) (s : string) : string :=
  match s with
  | EmptyString => EmptyString
  | String c s' => String (f c) (map_bytes f s')
  end.

(** [strings.Map]: the encodings of the runes [mapping] returns, one call
    for every rune of [s] in order; a byte that starts no rune is passed
    as [RuneError].  The mapping of [Title] remembers the rune before, so
    a mapping takes and returns a state.  (The library copies the bytes of
    the runes the mapping leaves alone, which are their encoding, see
    [EncodeRune_DecodeRune] below; and it drops a negative rune, which no
    mapping here returns.) *)
Fixpoint map_runes {S : Type} (mapping : S → N → S * N) (st : S)
    (rs : list N) : string :=
  match rs with
  | [] => EmptyString
  | r :: rs' =>
      let '(st', r') := mapping st r in
      utf8.EncodeRune r' +:+ map_runes mapping st' rs'
  end.

Definition Map {S : Type} (mapping : S → N → S * N) (st : S) (s : string)
    : string :=
  map_runes mapping st (utf8.runes s).

(** [strings.ToLower]: the bytes lowered one by one when the string is
    ASCII, else [unicode.ToLower] mapped over the runes. *)
Definition ToLower (s : string) : string :=
  if is_ascii s then map_bytes lower_byte s
  else Map (fun (_ : unit) r => (tt, unicode.ToLower r)) tt s.

(** [isSeparator] of package strings: among the ASCII runes everything but
    letters, digits and the underscore; among the others the white space.
    (The library first answers no for a letter or a digit of the Unicode
    tables; no white-space rune is one, so the answer is the same.) *)
Definition isSeparator (r : N) : bool :=
  (if r <=? 0x7F then
     negb ((48 <=? r) && (r <=? 57) || (97 <=? r) && (r <=? 122)
           || (65 <=? r) && (r <=? 90) || (r =? 95))
   else unicode.IsSpace r)%N.

(** [strings.Title]: a rune that follows a separator (or starts the
    string) is mapped to title case, every other rune is kept. *)
Definition Title (s : string) : string :=
  Map (fun prev r => (r, if isSeparator prev then unicode.ToTitle r else r))
    32%N s.

End strings_unicode.

(** ** Regular expressions (package regexp), as far as the patterns of the
    converter go: literals, [c*], [(c)] and [(c+)] over byte classes,
    anchored at both ends, with the leftmost-first choice of the library (a
    greedy repetition gives bytes back one at a time). *)

Module regexp.

Inductive node :=
| lit (text : string)
| star (cls : ascii → bool)
| group_one (cls : ascii → bool)
| group_plus (cls : ascii → bool).

Definition regex := list node.

(** [\s] is [\t\n\f\r ] (no vertical tab). *)
Definition cls_space (c : ascii) : bool :=
  let n := byte_val c in
  ((n =? 9) || (n =? 10) || (n =? 12) || (n =? 13) || (n =? 32))%N.

(** [\d] is [0-9]. *)
Definition cls_digit (c : ascii) : bool :=
  (48 <=? byte_val c)%N && (byte_val c <=? 57)%N.

(** [.] is every rune but the line feed; over bytes, every byte but 0x0A
    (a rune never contains an ASCII byte, and the groups of the patterns
    below start and end next to ASCII text). *)
Definition cls_any (c : ascii) : bool := negb (byte_val c =? 10)%N.

Fixpoint greedy_star {A} (cls : ascii → bool) (k : string → option A)
    (s : string) : option A :=
  match s with
  | String c s' =>
      if cls c then
        match greedy_star cls k s' with
        | Some r => Some r
        | None => k s
        end
      else k s
  | EmptyString => k s
  end.

Fixpoint greedy_plus {A} (cls : ascii → bool) (k : string → option A)
    (s : string) : option (string * A) :=
  match s with
  | String c s' =>
      if cls c then
        match greedy_plus cls k s' with
        | Some (m, r) => Some (String c m, r)
        | None =>
            match k s' with
            | Some r => Some (String c EmptyString, r)
            | None => None
            end
        end
      else None
  | EmptyString => None
  end.

(** The groups of the match of [^r$] against the whole of [s]. *)
Fixpoint match_here (r : regex) (s : string) : option (list string) :=
  match r with
  | [] => match s with EmptyString => Some [] | _ => None end
  | lit text :: r' =>
      if strings.HasPrefix s text
      then match_here r' (strings.drop (String.length text) s)
      else None
  | star cls :: r' => greedy_star cls (match_here r') s
  | group_one cls :: r' =>
      match s with
      | String c s' =>
          if cls c
          then cons (String c EmptyString) <$> match_here r' s'
          else None
      | EmptyString => None
      end
  | group_plus cls :: r' =>
      (fun mr => fst mr :: snd mr) <$> greedy_plus cls (match_here r') s
  end.

(** [Regexp.FindStringSubmatch]: the whole match, then the groups. *)
Definition FindStringSubmatch (r : regex) (s : string) : option (list string) :=
  cons s <$> match_here r s.

End regexp.

Import regexp.

(** [^--\s*tags:\s*(.+)$] *)
Definition tagsRegex : regex :=
  [lit "--"; star cls_space; lit "tags:"; star cls_space; group_plus cls_any].

(** [^--\s*platform:\s*(.+)$] *)
Definition platformRegex : regex :=
  [lit "--"; star cls_space; lit "platform:"; star cls_space; group_plus cls_any].

(** [^--\s*interval:\s*(\d+)$] *)
Definition intervalRegex : regex :=
  [lit "--"; star cls_space; lit "interval:"; star cls_space; group_plus cls_digit].

(** [^(\d)-(.+)\.sql$] *)
Definition levelRegex : regex :=
  [group_one cls_digit; lit "-"; group_plus cls_any; lit ".sql"].

(** ** Records *)

(** [type Query struct]; the field [Query] of the source is [SQL] here, the
    record itself having the name. *)
Record Query := mkQuery {
  Name : string;
  Description : string;
  SQL : string;
  Platform : string;
  Tags : list string;
  Interval : Z;
  Level : Z;
  Category : string;
  Subcategory : string
}.

(** [var q Query]: every field at its zero value. *)
Definition zeroQuery : Query := mkQuery "" "" "" "" [] 0 0 "" "".

Definition set_Name (v : string) (q : Query) : Query :=
  mkQuery v (Description q) (SQL q) (Platform q) (Tags q) (Interval q)
    (Level q) (Category q) (Subcategory q).
Definition set_Description (v : string) (q : Query) : Query :=
  mkQuery (Name q) v (SQL q) (Platform q) (Tags q) (Interval q)
    (Level q) (Category q) (Subcategory q).
Definition set_SQL (v : string) (q : Query) : Query :=
  mkQuery (Name q) (Description q) v (Platform q) (Tags q) (Interval q)
    (Level q) (Category q) (Subcategory q).
Definition set_Platform (v : string) (q : Query) : Query :=
  mkQuery (Name q) (Description q) (SQL q) v (Tags q) (Interval q)
    (Level q) (Category q) (Subcategory q).
Definition set_Tags (v : list string) (q : Query) : Query :=
  mkQuery (Name q) (Description q) (SQL q) (Platform q) v (Interval q)
    (Level q) (Category q) (Subcategory q).
Definition set_Interval (v : Z) (q : Query) : Query :=
  mkQuery (Name q) (Description q) (SQL q) (Platform q) (Tags q) v
    (Level q) (Category q) (Subcategory q).
Definition set_Level (v : Z) (q : Query) : Query :=
  mkQuery (Name q) (Description q) (SQL q) (Platform q) (Tags q) (Interval q)
    v (Category q) (Subcategory q).
Definition set_Category (v : string) (q : Query) : Query :=
  mkQuery (Name q) (Description q) (SQL q) (Platform q) (Tags q) (Interval q)
    (Level q) v (Subcategory q).
Definition set_Subcategory (v : string) (q : Query) : Query :=
  mkQuery (Name q) (Description q) (SQL q) (Platform q) (Tags q) (Interval q)
    (Level q) (Category q) v.

(** ** Formatted input and output of integers (package fmt) *)

Definition max_int : Z := 2 ^ 63 - 1.

Definition digit_val (c : ascii) : Z := Z.of_N (byte_val c) - 48.

Fixpoint digits_value (acc : Z) (s : string) : Z :=
  match s with
  | EmptyString => acc
  | String c s' => digits_value (acc * 10 + digit_val c) s'
  end.

(** [fmt.Sscanf(tok, "%d", &v)] for a token [tok] of decimal digits (what
    the groups [(\d)] and [(\d+)] capture): the new value of [v].  A number
    that does not fit the 64-bit [int] is an error of the scan, which the
    converter ignores, and [v] keeps its value. *)
Definition Sscanf_d (tok : string) (v : Z) : Z :=
  let n := digits_value 0 tok in
  if n <=? max_int then n else v.

(** [fmt.Sprintf("%d", n)]. *)
Definition Sprintf_d (n : Z) : string := pretty n.

(** ** generateName and normalizePlatform *)

Definition generateName (filename category subcategory : string) : string :=
  let name := strings.TrimSuffix filename ".sql" in
  let name := strings.ReplaceAll name "-" " " in
  let name := strings.ReplaceAll name "_" " " in
  let name := Title name in
  if negb (String.eqb subcategory "")
  then "[" +:+ category +:+ "/" +:+ subcategory +:+ "] " +:+ name
  else "[" +:+ category +:+ "] " +:+ name.

Definition normalizePlatform (platform : string) : string :=
  let p := ToLower platform in
  if String.eqb p "darwin" || String.eqb p "macos" then "darwin"
  else if String.eqb p "linux" then "linux"
  else if String.eqb p "posix" then "darwin,linux"
  else if String.eqb p "windows" then "windows"
  else "".

(** ** parseQuery *)

(** The variables of the scanning loop. *)
Record scan_state := mkScan {
  q : Query;
  sqlLines : list string;
  firstComment : bool;
  inHeader : bool
}.

Definition with_q (f : Query → Query) (st : scan_state) : scan_state :=
  mkScan (f (q st)) (sqlLines st) (firstComment st) (inHeader st).

Definition is_blank (line : string) : bool := String.eqb (TrimSpace line) "".

Definition is_comment (line : string) : bool := strings.HasPrefix line "--".

(** [matches[i]]. *)
Definition submatch (matches : list string) (i : nat) : string :=
  nth i matches EmptyString.

(** The last statement of the loop body: collect SQL (including comments
    within SQL). *)
Definition collect (st : scan_state) (line : string) : scan_state :=
  if negb (inHeader st) || negb (is_comment line)
  then mkScan (q st) (sqlLines st ++ [line]) (firstComment st) (inHeader st)
  else st.

(** One iteration of [for scanner.Scan()] on [line := scanner.Text()]; the
    three [continue] leave the state as it is after the assignment. *)
Definition scan_line (st : scan_state) (line : string) : scan_state :=
  if inHeader st && is_comment line then
    let commentContent := TrimSpace (strings.TrimPrefix line "--") in
    match FindStringSubmatch tagsRegex line with
    | Some matches => with_q (set_Tags (Fields (submatch matches 1))) st
    | None =>
    match FindStringSubmatch platformRegex line with
    | Some matches =>
        with_q (set_Platform (normalizePlatform (TrimSpace (submatch matches 1)))) st
    | None =>
    match FindStringSubmatch intervalRegex line with
    | Some matches =>
        with_q (fun q0 => set_Interval (Sscanf_d (submatch matches 1) (Interval q0)) q0) st
    | None =>
        let st1 :=
          if firstComment st && negb (String.eqb commentContent "")
             && negb (strings.HasPrefix commentContent "references:")
             && negb (strings.HasPrefix commentContent "false positives:")
          then mkScan (set_Description commentContent (q st)) (sqlLines st)
                 false (inHeader st)
          else st in
        collect st1 line
    end end end
  else
    let st1 :=
      if negb (is_blank line) && negb (is_comment line)
      then mkScan (q st) (sqlLines st) (firstComment st) false
      else st in
    collect st1 line.

(** [for len(sqlLines) > 0 && strings.TrimSpace(sqlLines[0]) == ""]. *)
Fixpoint trim_leading_blank (ls : list string) : list string :=
  match ls with
  | l :: ls' => if is_blank l then trim_leading_blank ls' else ls
  | [] => []
  end.

Definition nl : string := String newline EmptyString.

(** The level and the effective file name decoded from the base name. *)
Definition decode_filename (filename : string) : Z * string :=
  match FindStringSubmatch levelRegex filename with
  | Some matches => (Sscanf_d (submatch matches 1) 0, submatch matches 2 +:+ ".sql")
  | None => (0, filename)
  end.

(** [parseQuery] on a file that opens and scans without error.  [relPath]
    is the path of the file relative to the category directory, as
    [filepath.Rel] gives it (separator [/]), its last segment being
    [filepath.Base(path)]; [lines] are the tokens of the line scanner. *)
Definition parseQuery (relPath category : string) (lines : list string) : Query :=
  let q0 := set_Category category zeroQuery in
  let parts := strings.Split relPath "/" in
  let q1 := if (1 <? length parts)%nat
            then set_Subcategory (nth 0 parts EmptyString) q0 else q0 in
  let '(level, filename) := decode_filename (List.last parts EmptyString) in
  let q2 := set_Level level q1 in
  let q3 := set_Name (generateName filename (Category q2) (Subcategory q2)) q2 in
  let st := fold_left scan_line lines (mkScan q3 [] true true) in
  let body := trim_leading_blank (sqlLines st) in
  let q4 := set_SQL (TrimSpace (strings.Join body nl)) (q st) in
  if String.eqb (Description q4) "" then set_Description (Name q4) q4 else q4.

(** ** The document writer *)

(** The output directory: file name to content. *)
Abbreviation files := (gmap string string).

(** [os.Create] either truncates or creates the file, or fails; which names
    cannot be created is a property of the environment. *)
Definition Create (creatable : string → bool) (name : string) (fs : files)
    : option files :=
  if creatable name then Some (<[name := EmptyString]> fs) else None.

(** [w.WriteString(s)] on the open file [w]. *)
Definition WriteString (w : string) (s : string) (fs : files) : files :=
  alter (fun content => content +:+ s) w fs.

Definition resolved_interval (q0 : Query) (intervalOverride : Z) : Z :=
  if 0 <? intervalOverride then intervalOverride else Interval q0.

Definition writeQueryYAML (w : string) (q0 : Query) (intervalOverride : Z)
    (fs : files) : files :=
  let desc := escapeYAML (Description q0) in
  let query := escapeYAMLMultiline (SQL q0) in
  let fs := WriteString w ("apiVersion: v1" +:+ nl) fs in
  let fs := WriteString w ("kind: query" +:+ nl) fs in
  let fs := WriteString w ("spec:" +:+ nl) fs in
  let fs := WriteString w ("  name: " +:+ escapeYAML (Name q0) +:+ nl) fs in
  let fs := WriteString w ("  description: " +:+ desc +:+ nl) fs in
  let fs := WriteString w ("  query: |" +:+ nl) fs in
  let fs := fold_left (fun fs line => WriteString w ("    " +:+ line +:+ nl) fs)
              (strings.Split query nl) fs in
  let fs := if negb (String.eqb (Platform q0) "")
            then WriteString w ("  platform: " +:+ Platform q0 +:+ nl) fs
            else fs in
  let interval := resolved_interval q0 intervalOverride in
  let fs := if 0 <? interval
            then WriteString w ("  interval: " +:+ Sprintf_d interval +:+ nl) fs
            else fs in
  if String.eqb (Category q0) "detection" || String.eqb (Category q0) "policy"
  then WriteString w ("  logging: differential" +:+ nl) fs
  else WriteString w ("  logging: snapshot" +:+ nl) fs.

(** [for i, q := range qs] from index [i] on: the separator before every
    record but the first, then the record. *)
Fixpoint write_records (w : string) (i : nat) (qs : list Query)
    (intervalOverride : Z) (fs : files) : files :=
  match qs with
  | [] => fs
  | q0 :: qs' =>
      let fs := if (0 <? i)%nat then WriteString w ("---" +:+ nl) fs else fs in
      write_records w (S i) qs' intervalOverride
        (writeQueryYAML w q0 intervalOverride fs)
  end.

(** [groups]: the three categories at the empty list, then every record
    appended to the list of its category. *)
Definition initial_groups : gmap string (list Query) :=
  <["detection" := []]> (<["policy" := []]> (<["incident_response" := []]> ∅)).

Definition group_queries (queries : list Query) : gmap string (list Query) :=
  fold_left
    (fun groups q0 =>
       <[Category q0 := default [] (groups !! Category q0) ++ [q0]]> groups)
    queries initial_groups.

Definition category_file (category : string) : string :=
  "chainguard-" +:+ strings.ReplaceAll category "_" "-" +:+ ".yml".

Inductive outcome :=
| Ok
| CreateFailed (filename : string).

(** [for category, categoryQueries := range groups], the keys taken in the
    order [order]. *)
Fixpoint write_categories (creatable : string → bool)
    (groups : gmap string (list Query)) (order : list string) (fs : files)
    : files * outcome :=
  match order with
  | [] => (fs, Ok)
  | category :: order' =>
      let categoryQueries := default [] (groups !! category) in
      if (length categoryQueries =? 0)%nat
      then write_categories creatable groups order' fs
      else
        let filename := category_file category in
        match Create creatable filename fs with
        | None => (fs, CreateFailed filename)
        | Some fs1 =>
            write_categories creatable groups order'
              (write_records filename 0 categoryQueries 0 fs1)
        end
  end.

(** [writeFleetYAML].  Go ranges over a map in an order of its own choosing:
    [order] is that order, a permutation of the keys of [groups].  The
    files are named by their name inside the output directory. *)
Definition writeFleetYAML (creatable : string → bool) (order : list string)
    (queries : list Query) (fs : files) : files * outcome :=
  let groups := group_queries queries in
  match write_categories creatable groups order fs with
  | (fs, CreateFailed f) => (fs, CreateFailed f)
  | (fs, Ok) =>
      let detectionQueries := default [] (groups !! "detection") in
      let step2 :=
        if (0 <? length detectionQueries)%nat then
          let scheduledFile := "chainguard-detection-5min.yml" in
          match Create creatable scheduledFile fs with
          | None => (fs, CreateFailed scheduledFile)
          | Some fs1 => (write_records scheduledFile 0 detectionQueries 300 fs1, Ok)
          end
        else (fs, Ok) in
      match step2 with
      | (fs, CreateFailed f) => (fs, CreateFailed f)
      | (fs, Ok) =>
          let combinedFile := "chainguard-all.yml" in
          match Create creatable combinedFile fs with
          | None => (fs, CreateFailed combinedFile)
          | Some fs1 => (write_records combinedFile 0 queries 0 fs1, Ok)
          end
      end
  end.

(** The orders in which the runtime may range over [groups]. *)
Definition range_order (queries : list Query) (order : list string) : Prop :=
  order ≡ₚ elements (dom (group_queries queries)).

(** ** The specification's reading of the operations *)

(** Escaping of one byte: a backslash before a backslash or a double quote. *)
Definition escape_byte (c : ascii) : string :=
  if Ascii.eqb c backslash then String backslash (String backslash EmptyString)
  else if Ascii.eqb c dquote then String backslash (String dquote EmptyString)
  else String c EmptyString.

Fixpoint escape_each (s : string) : string :=
  match s with
  | EmptyString => EmptyString
  | String c s' => escape_byte c +:+ escape_each s'
  end.

(** [s] between double quotes, its backslashes and double quotes escaped. *)
Definition quoted (s : string) : string :=
  String dquote EmptyString +:+ escape_each s +:+ String dquote EmptyString.

Definition bytes (s : string) : list ascii := String.list_ascii_of_string s.

(** [s] contains one of the special characters or starts with [-] or [@]. *)
Definition special (s : string) : Prop :=
  (∃ c, c ∈ bytes s ∧ c ∈ bytes yaml_special)
  ∨ (∃ s', s = String "-"%char s') ∨ (∃ s', s = String "@"%char s').

(** Every occurrence of the byte [old] replaced by [new]. *)
Fixpoint subst_byte (old : ascii) (new : string) (s : string) : string :=
  match s with
  | EmptyString => EmptyString
  | String c s' =>
      (if Ascii.eqb c old then new else String c EmptyString)
      +:+ subst_byte old new s'
  end.

(** The text [writeQueryYAML] appends for one record, field by field. *)
Definition query_block (sql : string) : string :=
  fold_right (fun line rest => ("    " +:+ line +:+ nl) +:+ rest) EmptyString
    (strings.Split sql nl).

Definition record_head (q0 : Query) : string :=
  ("apiVersion: v1" +:+ nl) +:+ ("kind: query" +:+ nl) +:+ ("spec:" +:+ nl)
  +:+ ("  name: " +:+ escapeYAML (Name q0) +:+ nl)
  +:+ ("  description: " +:+ escapeYAML (Description q0) +:+ nl)
  +:+ ("  query: |" +:+ nl) +:+ query_block (SQL q0).

Definition platform_field (q0 : Query) : string :=
  if String.eqb (Platform q0) "" then EmptyString
  else "  platform: " +:+ Platform q0 +:+ nl.

Definition interval_field (interval : Z) : string :=
  if 0 <? interval then "  interval: " +:+ Sprintf_d interval +:+ nl
  else EmptyString.

Definition logging_field (q0 : Query) : string :=
  if String.eqb (Category q0) "detection" || String.eqb (Category q0) "policy"
  then "  logging: differential" +:+ nl
  else "  logging: snapshot" +:+ nl.

Definition record_text (q0 : Query) (intervalOverride : Z) : string :=
  record_head q0 +:+ platform_field q0
  +:+ interval_field (resolved_interval q0 intervalOverride)
  +:+ logging_field q0.

(** A document: the records in order, a boundary line between two of them. *)
Definition document (qs : list Query) (intervalOverride : Z) : string :=
  strings.Join (map (fun q0 => record_text q0 intervalOverride) qs) ("---" +:+ nl).

(** The records of one category, in their original order. *)
Definition by_category (category : string) (queries : list Query) : list Query :=
  filter (fun q0 => Category q0 = category) queries.

Definition known_category (category : string) : bool :=
  String.eqb category "detection" || String.eqb category "policy"
  || String.eqb category "incident_response".

(** Every record is of one of the three categories of the extractor. *)
Definition known_records (queries : list Query) : bool :=
  forallb (fun q0 => known_category (Category q0)) queries.

Definition add_document (name : string) (qs : list Query) (intervalOverride : Z)
    (docs : files) : files :=
  match qs with
  | [] => docs
  | _ :: _ => <[name := document qs intervalOverride]> docs
  end.

(** The three category directories, as [parseAllQueries] lists them. *)
Definition categories : list string :=
  ["detection"; "policy"; "incident_response"].

(** The documents of a record sequence, by file name. *)
Definition category_documents (queries : list Query) : files :=
  add_document "chainguard-incident-response.yml"
    (by_category "incident_response" queries) 0
  (add_document "chainguard-policy.yml"
    (by_category "policy" queries) 0
  (add_document "chainguard-detection.yml"
    (by_category "detection" queries) 0 ∅)).

Definition documents (queries : list Query) : files :=
  <["chainguard-all.yml" := document queries 0]>
    (add_document "chainguard-detection-5min.yml"
       (by_category "detection" queries) 300
       (category_documents queries)).

(** What one iteration of the loop over [groups] does when the file can be
    created. *)
Definition write_category (groups : gmap string (list Query))
    (fs : files) (category : string) : files :=
  add_document (category_file category) (default [] (groups !! category)) 0 fs.

(** No file name is refused by the environment. *)
Definition always_creatable : string → bool := fun _ => true.

(** An environment that refuses the document of the detection category
    and nothing else. *)
Definition detection_blocked (name : string) : bool :=
  negb (String.eqb name "chainguard-detection.yml").

(** The text [write_records] appends from index [i] on. *)
Fixpoint records_from (i : nat) (qs : list Query) (intervalOverride : Z) : string :=
  match qs with
  | [] => EmptyString
  | q0 :: qs' =>
      (if (0 <? i)%nat then "---" +:+ nl else EmptyString)
      +:+ record_text q0 intervalOverride
      +:+ records_from (S i) qs' intervalOverride
  end.

(** Two records for the examples: the scenario of the specification and an
    incident-response query with an interval of its own. *)
Definition sample_detection : Query :=
  mkQuery "[detection/execution] Unusual Child" "Detected: suspicious activity"
    "SELECT 1;" "darwin,linux" ["mitre"; "ta0002"] 0 2 "detection" "execution".

Definition sample_incident : Query :=
  mkQuery "[incident_response] Listening Ports" "Suspicious login"
    "SELECT * FROM listening_ports;" "" [] 3600 0 "incident_response" "".

(** Equality of two strings up to the case of ASCII letters. *)
Definition is_upper (c : ascii) : bool :=
  (65 <=? byte_val c)%N && (byte_val c <=? 90)%N.

Definition fold_eq_byte (a b : ascii) : bool :=
  Ascii.eqb a b
  || is_upper a && (byte_val b =? byte_val a + 32)%N
  || is_upper b && (byte_val a =? byte_val b + 32)%N.

Fixpoint equal_fold (s t : string) : bool :=
  match s, t with
  | EmptyString, EmptyString => true
  | String a s', String b t' => fold_eq_byte a b && equal_fold s' t'
  | _, _ => false
  end.

(** The table of the platform directive. *)
Definition platform_table (token : string) : string :=
  if equal_fold token "darwin" || equal_fold token "macos" then "darwin"
  else if equal_fold token "linux" then "linux"
  else if equal_fold token "posix" then "darwin,linux"
  else if equal_fold token "windows" then "windows"
  else "".

(** A hyphen or an underscore becomes a space. *)
Definition dash_to_space (c : ascii) : ascii :=
  if Ascii.eqb c "-" || Ascii.eqb c "_" then " "%char else c.

Definition name_prefix (category subcategory : string) : string :=
  if String.eqb subcategory "" then "[" +:+ category +:+ "] "
  else "[" +:+ category +:+ "/" +:+ subcategory +:+ "] ".

(** *** Title case, word by word *)

Definition small_letters : string := "abcdefghijklmnopqrstuvwxyz".
Definition capital_letters : string := "ABCDEFGHIJKLMNOPQRSTUVWXYZ".
Definition decimal_digits : string := "0123456789".

(** The first position of a byte in a string. *)
Fixpoint index_of (c : ascii) (s : string) : option nat :=
  match s with
  | EmptyString => None
  | String a s' => if Ascii.eqb a c then Some O else S <$> index_of c s'
  end.

(** The capital of a rune: for a small ASCII letter the capital letter at
    the same place of the alphabet, for any other ASCII rune the rune, and
    for a rune beyond ASCII its title case in the Unicode tables. *)
Definition capital (r : N) : N :=
  if (r <? 128)%N then
    match index_of (ascii_of_N r) small_letters with
    | Some i => default r (byte_val <$> String.get i capital_letters)
    | None => r
    end
  else unicode.to unicode.TitleCase r unicode.CaseRanges.

(** A rune that ends a word: an ASCII rune that is no letter, no digit and
    not the underscore, or a white-space rune. *)
Definition word_break (r : N) : bool :=
  if (r <? 128)%N then
    negb (mem_byte (ascii_of_N r)
            (small_letters +:+ capital_letters +:+ decimal_digits +:+ "_"))
  else unicode.IsSpace r.

(** The rune at position [i] starts a word: it is the first rune or the
    rune before it ends a word. *)
Definition starts_word (rs : list N) (i : nat) : bool :=
  match i with
  | O => true
  | S j => word_break (nth j rs 0%N)
  end.

(** Every rune that starts a word replaced by its capital. *)
Definition title_words (rs : list N) : list N :=
  imap (fun i r => if starts_word rs i then capital r else r) rs.

(** The text of a sequence of runes. *)
Definition encode_runes (rs : list N) : string :=
  fold_right (fun r text => utf8.EncodeRune r +:+ text) EmptyString rs.

(** The token LINUX written with the dotted capital I (U+0130) of
    Turkish. *)
Definition dotted_linux : string := "L" +:+ utf8.EncodeRune 0x130 +:+ "NUX".

(** *** The header of a file, line by line *)

Definition matches_regex (r : regex) (line : string) : bool :=
  match FindStringSubmatch r line with Some _ => true | None => false end.

(** A line of one of the three directive forms. *)
Definition is_directive (line : string) : bool :=
  matches_regex tagsRegex line || matches_regex platformRegex line
  || matches_regex intervalRegex line.

(** The text of a comment line behind the marker, trimmed. *)
Definition comment_content (line : string) : string :=
  TrimSpace (strings.TrimPrefix line "--").

(** A comment line that may give the description: not a directive, not
    empty behind the marker, and not a references or false-positives line. *)
Definition description_candidate (line : string) : bool :=
  is_comment line && negb (is_directive line)
  && negb (String.eqb (comment_content line) "")
  && negb (strings.HasPrefix (comment_content line) "references:")
  && negb (strings.HasPrefix (comment_content line) "false positives:").

(** The line that ends header mode: not blank and not a comment. *)
Definition ends_header (line : string) : bool :=
  negb (is_blank line) && negb (is_comment line).

(** The lines read in header mode. *)
Fixpoint header_lines (lines : list string) : list string :=
  match lines with
  | [] => []
  | l :: ls => if ends_header l then [] else l :: header_lines ls
  end.

(** The lines from the first non-blank, non-comment line on. *)
Fixpoint body_lines (lines : list string) : list string :=
  match lines with
  | [] => []
  | l :: ls => if ends_header l then l :: ls else body_lines ls
  end.

(** The description as the specification words it: the content of the first
    candidate among the header lines, the name when there is none. *)
Definition first_description (name : string) (lines : list string) : string :=
  match List.filter description_candidate (header_lines lines) with
  | l :: _ => comment_content l
  | [] => name
  end.

(** What a directive line does to the record. *)
Definition directive_update (line : string) (q0 : Query) : Query :=
  match FindStringSubmatch tagsRegex line with
  | Some matches => set_Tags (Fields (submatch matches 1)) q0
  | None =>
  match FindStringSubmatch platformRegex line with
  | Some matches =>
      set_Platform (normalizePlatform (TrimSpace (submatch matches 1))) q0
  | None =>
  match FindStringSubmatch intervalRegex line with
  | Some matches => set_Interval (Sscanf_d (submatch matches 1) (Interval q0)) q0
  | None => q0
  end end end.

(** The loop of [parseQuery] from its initial state. *)
Definition scan (q0 : Query) (lines : list string) : scan_state :=
  fold_left scan_line lines (mkScan q0 [] true true).

(** The specification's sentence on the body read to the letter: in header
    mode a line is left out only if it is a comment line consumed as a
    directive or as the description; every other line is kept. *)
Fixpoint spec_sqlLines (firstComment : bool) (lines : list string)
    : list string :=
  match lines with
  | [] => []
  | l :: ls =>
      if ends_header l then l :: ls
      else if is_comment l && is_directive l
      then spec_sqlLines firstComment ls
      else if firstComment && description_candidate l
      then spec_sqlLines false ls
      else l :: spec_sqlLines firstComment ls
  end.

(** A file with a description, a comment line that is neither a directive
    nor the description, and one line of SQL. *)
Definition file_with_references : list string :=
  ["-- Suspicious login"; "-- references:"; "SELECT 1;"].

(** The subcategory and the effective file name [parseQuery] takes from the
    relative path. *)
Definition subcategory_of (relPath : string) : string :=
  let parts := strings.Split relPath "/" in
  if (1 <? length parts)%nat then nth 0 parts EmptyString else EmptyString.

Definition effective_filename (relPath : string) : string :=
  (decode_filename (List.last (strings.Split relPath "/") EmptyString)).2.

(** *** Synthetic header blocks *)

(** [t] holds no white-space rune. *)
Definition no_space (t : string) : bool :=
  forallb (fun p => negb p.2) (mark_spaces O t).

(** A token of a directive: not empty and without white space. *)
Definition token (t : string) : bool :=
  negb (String.eqb t "") && no_space t.







(** ** Directive lines without regular expressions *)

(** [s] behind its leading [\s] bytes. *)
Fixpoint skip_spaces (s : string) : string :=
  match s with
  | String c s' => if cls_space c then skip_spaces s' else s
  | EmptyString => EmptyString
  end.

(** The text of a directive line behind its key: the marker, any white
    space, the key; [None] when the line is not of that form. *)
Definition directive_text (key line : string) : option string :=
  if strings.HasPrefix line "--" then
    let s := skip_spaces (strings.drop 2 line) in
    if strings.HasPrefix s key
    then Some (strings.drop (String.length key) s)
    else None
  else None.

(** The number of an interval directive line: behind the key and any white
    space, a non-empty run of digits up to the end of the line. *)
Definition interval_digits (line : string) : option string :=
  match directive_text "interval:" line with
  | Some v =>
      let d := skip_spaces v in
      if negb (String.eqb d "") && all_bytes cls_digit d then Some d else None
  | None => None
  end.

(** The value of a tags or platform directive line: whatever follows the
    key, when something does. *)
Definition directive_value (key line : string) : option string :=
  match directive_text key line with
  | Some v => if String.eqb v "" then None else Some v
  | None => None
  end.

(** The directives of the header applied in order to a record. *)
Definition header_directives (lines : list string) (q0 : Query) : Query :=
  fold_left (fun q1 l => directive_update l q1)
    (List.filter is_comment (header_lines lines)) q0.

(** What a line says about each field, if it is a directive for it. *)
Definition tags_directive (line : string) : option (list string) :=
  (fun matches => Fields (submatch matches 1))
    <$> FindStringSubmatch tagsRegex line.

Definition platform_directive (line : string) : option string :=
  (fun matches => normalizePlatform (TrimSpace (submatch matches 1)))
    <$> FindStringSubmatch platformRegex line.

(** The values [normalizePlatform] can return. *)
Definition platform_values : list string :=
  [""; "darwin"; "linux"; "darwin,linux"; "windows"].

(** The record [parseQuery] starts the scanning loop with: the fields taken
    from the path, every other field at its zero value. *)
Definition initial_record (relPath category : string) : Query :=
  mkQuery
    (generateName (effective_filename relPath) category (subcategory_of relPath))
    "" "" "" [] 0
    (decode_filename (List.last (strings.Split relPath "/") EmptyString)).1
    category (subcategory_of relPath).

(** The comment lines of the header, in order. *)
Definition header_comments (lines : list string) : list string :=
  List.filter is_comment (header_lines lines).

(** Reading an escaped text back: a backslash gives the byte behind it. *)
Fixpoint unescape_each (s : string) : string :=
  match s with
  | EmptyString => EmptyString
  | String c s1 =>
      if Ascii.eqb c backslash then
        match s1 with
        | String c' s2 => String c' (unescape_each s2)
        | EmptyString => String c EmptyString
        end
      else String c (unescape_each s1)
  end.

(** The names [writeFleetYAML] may create, given the order of its loop. *)
Definition output_names (order : list string) : list string :=
  "chainguard-all.yml" :: "chainguard-detection-5min.yml"
  :: map category_file order.

(** ** The walk over the category directories (parseAllQueries, main) *)

(** A directory tree as [filepath.WalkDir] sees it: a file with the lines
    the scanner yields from it ([None] when it cannot be opened or scanned
    to its end), a directory with its entries in the order [os.ReadDir]
    lists them (sorted by name), and a directory that cannot be read. *)
#[warnings="-register-all"]
Inductive entry :=
| File (name : string) (content : option (list string))
| Dir (name : string) (entries : list entry)
| LockedDir (name : string).

(** [walkDir] with the callback of [parseAllQueries]: [rel] holds the names
    of the directories between the category directory and the entry,
    [queries] the records appended so far; [None] is the error that ends
    the walk.  A path below the category directory ends in [.sql] exactly
    when its last name does. *)
Fixpoint walkDir (category : string) (rel : list string) (e : entry)
    (queries : list Query) {struct e} : option (list Query) :=
  match e with
  | File name content =>
      if strings.HasSuffix name ".sql" then
        match content with
        | Some lines =>
            Some (queries
                  ++ [parseQuery (strings.Join (rel ++ [name]) "/") category lines])
        | None => Some queries
        end
      else Some queries
  | LockedDir _ => None
  | Dir name entries =>
      (fix walk (es : list entry) (queries : list Query) : option (list Query) :=
         match es with
         | [] => Some queries
         | d1 :: es' =>
             match walkDir category (rel ++ [name]) d1 queries with
             | Some queries' => walk es' queries'
             | None => None
             end
         end) entries queries
  end.

(** The loop of [walkDir] over the entries of a directory at [rel]. *)
Fixpoint walk_entries (category : string) (rel : list string)
    (es : list entry) (queries : list Query) : option (list Query) :=
  match es with
  | [] => Some queries
  | d1 :: es' =>
      match walkDir category rel d1 queries with
      | Some queries' => walk_entries category rel es' queries'
      | None => None
      end
  end.

(** What [os.Stat] and the walk find at a category path. *)
Inductive root_state :=
| Missing
| NotADirectory
| RootDir (entries : list entry)
| RootLocked.

Inductive parse_result :=
| Parsed (queries : list Query)
| WalkFailed (category : string).

(** The loop of [parseAllQueries] over the categories still to visit. *)
Fixpoint parse_categories (upstream : string → root_state)
    (cats : list string) (queries : list Query) : parse_result :=
  match cats with
  | [] => Parsed queries
  | category :: cats' =>
      match upstream category with
      | Missing => parse_categories upstream cats' queries
      | NotADirectory => parse_categories upstream cats' queries
      | RootLocked => WalkFailed category
      | RootDir entries =>
          match walk_entries category [] entries queries with
          | Some queries' => parse_categories upstream cats' queries'
          | None => WalkFailed category
          end
      end
  end.

Definition parseAllQueries (upstream : string → root_state) : parse_result :=
  parse_categories upstream categories [].

(** What [flag.Parse] makes of the command line.  The flag set of
    package flag is [ExitOnError]: on [-h] or [-help] it prints the usage
    and exits with status 0, on an undefined flag, a flag without its
    value or a malformed flag it reports the error and exits with status
    2, and otherwise it returns with the two paths set. *)
Inductive flag_outcome :=
| FlagsParsed
| HelpRequested
| BadFlag.

(** [main]: the exit status and the output directory.  [flags] is what
    [flag.Parse] makes of the command line, [upstream] the tree below the
    directory of [-upstream], [fs] the directory of [-output], and [mkdir]
    tells whether [os.MkdirAll] succeeds; the lines printed are left
    out. *)
Definition main (flags : flag_outcome) (upstream : string → root_state)
    (mkdir : bool) (creatable : string → bool) (order : list string)
    (fs : files) : Z * files :=
  match flags with
  | HelpRequested => (0, fs)
  | BadFlag => (2, fs)
  | FlagsParsed =>
      match parseAllQueries upstream with
      | WalkFailed _ => (1, fs)
      | Parsed queries =>
          if mkdir then
            match writeFleetYAML creatable order queries fs with
            | (fs', Ok) => (0, fs')
            | (fs', CreateFailed _) => (1, fs')
            end
          else (1, fs)
      end
  end.

(** The files a walk parses, as relative path and lines, in walk order. *)
Fixpoint sql_files (rel : list string) (e : entry) : list (string * list string) :=
  match e with
  | File name (Some lines) =>
      if strings.HasSuffix name ".sql"
      then [(strings.Join (rel ++ [name]) "/", lines)] else []
  | File _ None => []
  | LockedDir _ => []
  | Dir name entries => flat_map (sql_files (rel ++ [name])) entries
  end.

(** Every directory of the tree can be read. *)
Fixpoint readable (e : entry) : bool :=
  match e with
  | File _ _ => true
  | LockedDir _ => false
  | Dir _ entries => forallb readable entries
  end.

(** The records of the files of one category directory. *)
Definition category_records (category : string) (r : root_state) : list Query :=
  match r with
  | RootDir entries =>
      map (fun f => parseQuery f.1 category f.2) (flat_map (sql_files []) entries)
  | _ => []
  end.

(** The walk of a category path does not fail. *)
Definition root_readable (r : root_state) : bool :=
  match r with
  | RootDir entries => forallb readable entries
  | RootLocked => false
  | _ => true
  end.

(** No name of the tree holds the path separator. *)
Fixpoint slash_free (e : entry) : bool :=
  match e with
  | File name _ => negb (mem_byte "/" name)
  | LockedDir name => negb (mem_byte "/" name)
  | Dir name entries => negb (mem_byte "/" name) && forallb slash_free entries
  end.

(** The records of the three category directories, in the order
    [parseAllQueries] visits them. *)
Definition all_records (upstream : string → root_state) : list Query :=
  flat_map (fun c => category_records c (upstream c)) categories.

(** No walk of a category directory fails. *)
Definition tree_readable (upstream : string → root_state) : bool :=
  forallb (fun c => root_readable (upstream c)) categories.

(** The files [writeFleetYAML] creates for [queries]. *)
Definition created_names (queries : list Query) : list string :=
  map category_file
    (List.filter (fun c => negb (length (by_category c queries) =? 0)%nat)
       categories)
  ++ (if (0 <? length (by_category "detection" queries))%nat
      then ["chainguard-detection-5min.yml"] else [])
  ++ ["chainguard-all.yml"].

(** A small tree for the examples: one query below [detection/execution],
    a file that is no query, a query file that cannot be opened; no
    [policy] directory; an empty [incident_response] directory. *)
Definition sample_tree : list entry :=
  [ Dir "execution"
      [ File "2-unusual-child.sql" (Some ["-- tags: mitre ta0002"; "SELECT 1;"]);
        File "README.md" (Some ["notes"]) ];
    File "broken.sql" None ].

Definition sample_upstream (category : string) : root_state :=
  if String.eqb category "detection" then RootDir sample_tree
  else if String.eqb category "policy" then Missing
  else RootDir [].

(** The same tree with a directory below [policy] that cannot be read. *)
Definition locked_upstream (category : string) : root_state :=
  if String.eqb category "policy" then RootDir [Dir "evidence" [LockedDir "private"]]
  else sample_upstream category.

(** Reading a literal block back: its lines without the margin of four
    spaces, the empty piece after the last line feed left out. *)
Definition read_block (block : string) : string :=
  strings.Join
    (map (strings.drop 4) (removelast (strings.Split block nl))) nl.

(** * Properties *)

(** ** Strings *)

Section string_facts.

Implicit Types s t u : string.

Lemma app_cons c s t : String c s +:+ t = String c (s +:+ t).
Proof. reflexivity. Qed.

Lemma app_empty_l s : "" +:+ s = s.
Proof. reflexivity. Qed.

Lemma app_empty_r s : s +:+ "" = s.
Proof. induction s as [|c s IH]; [done|]. by rewrite app_cons, IH. Qed.

Lemma app_assoc_str s t u : (s +:+ t) +:+ u = s +:+ (t +:+ u).
Proof. induction s as [|c s IH]; [done|]. by rewrite !app_cons, IH. Qed.

Lemma length_app_str s t :
  String.length (s +:+ t) = (String.length s + String.length t)%nat.
Proof. induction s as [|c s IH]; [done|]. rewrite app_cons. simpl. by rewrite IH. Qed.

Lemma any_byte_exists p s :
  any_byte p s = true ↔ ∃ c, c ∈ bytes s ∧ p c = true.
Proof.
  induction s as [|c s IH]; simpl.
  - split; [done|]. intros (c & Hc & _). by apply elem_of_nil in Hc.
  - rewrite orb_true_iff, IH. split.
    + intros [Hp|(c' & Hin & Hp)].
      * exists c. split; [left|done].
      * exists c'. split; [by right|done].
    + intros (c' & Hin & Hp). apply elem_of_cons in Hin as [->|Hin]; [by left|].
      right. eauto.
Qed.

Lemma mem_byte_elem c set : mem_byte c set = true ↔ c ∈ bytes set.
Proof.
  unfold mem_byte. rewrite any_byte_exists. split.
  - intros (c' & Hin & Heq). apply Ascii.eqb_eq in Heq. by subst.
  - intros Hin. exists c. split; [done|]. apply Ascii.eqb_refl.
Qed.

Lemma HasPrefix_byte s c :
  strings.HasPrefix s (String c "") = true ↔ ∃ s', s = String c s'.
Proof.
  destruct s as [|c' s]; simpl.
  - split; [done|]. by intros [? ?].
  - rewrite andb_true_r, Ascii.eqb_eq. split.
    + intros ->. eauto.
    + intros [s' [= -> _]]. done.
Qed.

Lemma ReplaceAll_byte s old new :
  strings.ReplaceAll s (String old "") new = subst_byte old new s.
Proof.
  unfold strings.ReplaceAll. induction s as [|c s IH]; [done|].
  simpl. rewrite andb_true_r, IH. by destruct (Ascii.eqb c old).
Qed.

Lemma subst_byte_app old new s t :
  subst_byte old new (s +:+ t) = subst_byte old new s +:+ subst_byte old new t.
Proof.
  induction s as [|c s IH]; [done|].
  rewrite app_cons. simpl. by rewrite IH, app_assoc_str.
Qed.

End string_facts.

(** ** Scalar escaping *)

Lemma escape_two_passes s :
  subst_byte dquote (String backslash (String dquote ""))
    (subst_byte backslash (String backslash (String backslash "")) s)
  = escape_each s.
Proof.
  induction s as [|c s IH]; [done|].
  simpl. rewrite subst_byte_app, IH. f_equal.
  unfold escape_byte.
  destruct (Ascii.eqb c backslash) eqn:Hb.
  - reflexivity.
  - simpl. destruct (Ascii.eqb c dquote); reflexivity.
Qed.

Lemma escapeYAML_cases s :
  escapeYAML s = if needs_quoting s then quoted s else s.
Proof.
  unfold escapeYAML. destruct (needs_quoting s); [|done].
  cbv zeta. by rewrite !ReplaceAll_byte, escape_two_passes.
Qed.

Lemma needs_quoting_special s : needs_quoting s = true ↔ special s.
Proof.
  unfold needs_quoting, special, strings.ContainsAny.
  rewrite !orb_true_iff, any_byte_exists, !HasPrefix_byte.
  setoid_rewrite mem_byte_elem. tauto.
Qed.

Lemma length_escape_each s :
  (String.length s ≤ String.length (escape_each s))%nat.
Proof.
  induction s as [|c s IH]; [done|].
  simpl. rewrite length_app_str. unfold escape_byte.
  destruct (Ascii.eqb c backslash), (Ascii.eqb c dquote); simpl; lia.
Qed.

Lemma quoted_neq s : quoted s ≠ s.
Proof.
  intros Heq. apply (f_equal String.length) in Heq.
  unfold quoted in Heq. rewrite !length_app_str in Heq. simpl in Heq.
  pose proof (length_escape_each s). lia.
Qed.

(** C4. escapeYAML wraps a string in double quotes, with every backslash and
    double quote inside escaped, exactly when the string contains one of the
    special characters (colon, hash, braces, brackets, bar, greater-than,
    ampersand, star, bang, question mark, single quote, double quote,
    backslash) or starts with [-] or [@]; every other string is returned
    unchanged.  The two examples of the specification. *)
Theorem escapeYAML_quotes_iff_special :
  (∀ s, (special s ↔ escapeYAML s = quoted s)
        ∧ (¬ special s ↔ escapeYAML s = s))
  ∧ escapeYAML "Detected: suspicious activity"
    = String dquote "Detected: suspicious activity" +:+ String dquote ""
  ∧ escapeYAML "Suspicious login" = "Suspicious login".
Proof.
  split; [|split; reflexivity].
  intros s. rewrite escapeYAML_cases, <- needs_quoting_special.
  destruct (needs_quoting s).
  - split; [done|]. split; [intros H; by destruct H|].
    intros Hq. by destruct (quoted_neq s).
  - split; [|done]. split; [done|].
    intros Hq. symmetry in Hq. by destruct (quoted_neq s).
Qed.

(** ** Writing one record and one document *)

Section writing.

Implicit Types fs : files.
Implicit Types w s : string.

Lemma append_twice w a b fs :
  alter (fun c => c +:+ b) w (alter (fun c => c +:+ a) w fs)
  = alter (fun c => c +:+ (a +:+ b)) w fs.
Proof.
  rewrite alter_alter_eq. apply alter_ext. intros c _. simpl.
  apply app_assoc_str.
Qed.

Lemma write_lines w lines a fs :
  fold_left (fun fs line => alter (fun c => c +:+ "    " +:+ line +:+ nl) w fs)
    lines (alter (fun c => c +:+ a) w fs)
  = alter (fun c => c +:+ (a +:+
      fold_right (fun line rest => ("    " +:+ line +:+ nl) +:+ rest) "" lines))
      w fs.
Proof.
  revert a. induction lines as [|line lines IH]; intros a; simpl.
  - by rewrite app_empty_r.
  - rewrite append_twice, IH. by rewrite app_assoc_str.
Qed.

(** [writeQueryYAML] appends the text of the record to the open file and
    touches nothing else. *)
Lemma writeQueryYAML_appends w q0 o fs :
  writeQueryYAML w q0 o fs = alter (fun c => c +:+ record_text q0 o) w fs.
Proof.
  unfold writeQueryYAML, record_text, record_head, query_block,
    platform_field, interval_field, logging_field, escapeYAMLMultiline.
  destruct (String.eqb (Platform q0) ""),
    (0 <? resolved_interval q0 o),
    (String.eqb (Category q0) "detection" || String.eqb (Category q0) "policy");
    cbv zeta; simpl negb; cbv iota; unfold WriteString;
    rewrite ?append_twice, write_lines, ?append_twice;
    apply alter_ext; intros c _; f_equal;
    by rewrite ?app_assoc_str, ?app_empty_r, ?app_empty_l.
Qed.

End writing.

(** ** Documents *)

Section documents.

Implicit Types fs docs : files.
Implicit Types qs queries : list Query.

Lemma records_from_succ i qs o :
  records_from (S i) qs o
  = match qs with [] => "" | _ :: _ => ("---" +:+ nl) +:+ document qs o end.
Proof.
  revert i. induction qs as [|q0 qs IH]; intros i; [done|].
  cbn [records_from]. rewrite IH. unfold document. cbn [map strings.Join].
  destruct qs as [|q1 qs]; cbn [map].
  - by rewrite app_empty_r.
  - by rewrite !app_assoc_str.
Qed.

Lemma records_from_0 qs o : records_from 0 qs o = document qs o.
Proof.
  destruct qs as [|q0 qs]; [done|].
  cbn [records_from]. rewrite records_from_succ. unfold document.
  cbn [map strings.Join]. destruct qs as [|q1 qs]; cbn [map].
  - by rewrite app_empty_r.
  - by rewrite !app_assoc_str.
Qed.

Lemma write_records_appends w i qs o c fs :
  write_records w i qs o (<[w := c]> fs)
  = <[w := c +:+ records_from i qs o]> fs.
Proof.
  revert i c. induction qs as [|q0 qs IH]; intros i c.
  - simpl. by rewrite app_empty_r.
  - cbn [write_records records_from]. rewrite writeQueryYAML_appends.
    destruct (0 <? i)%nat; unfold WriteString;
      rewrite ?alter_insert_eq, IH; by rewrite ?app_assoc_str.
Qed.

Lemma write_categories_always groups order fs :
  write_categories always_creatable groups order fs
  = (foldl (write_category groups) fs order, Ok).
Proof.
  revert fs. induction order as [|c order IH]; intros fs; [done|].
  cbn [write_categories foldl]. unfold write_category at 2, add_document.
  destruct (default [] (groups !! c)) as [|q0 qs] eqn:Hg.
  - simpl. apply IH.
  - cbn [length Nat.eqb].
    change (Create always_creatable (category_file c) fs)
      with (Some (<[category_file c := ""]> fs)).
    cbv iota beta. rewrite write_records_appends, records_from_0. apply IH.
Qed.

Lemma group_fold_lookup queries (groups : gmap string (list Query)) c :
  fold_left
    (fun groups q0 =>
       <[Category q0 := default [] (groups !! Category q0) ++ [q0]]> groups)
    queries groups !! c
  = match by_category c queries with
    | [] => groups !! c
    | l => Some (default [] (groups !! c) ++ l)
    end.
Proof.
  revert groups. induction queries as [|q0 queries IH]; intros groups; [done|].
  cbn [fold_left]. rewrite IH. unfold by_category. rewrite filter_cons.
  destruct (decide (Category q0 = c)) as [<-|Hne].
  - rewrite lookup_insert_eq. cbn [default].
    destruct (filter _ queries); [done|]. unfold id. by rewrite <- app_assoc.
  - rewrite lookup_insert_ne by done. done.
Qed.

Lemma initial_groups_lookup c :
  initial_groups !! c = if known_category c then Some [] else None.
Proof.
  unfold initial_groups, known_category.
  destruct (String.eqb_spec c "detection") as [->|H1]; [done|].
  rewrite lookup_insert_ne by done.
  destruct (String.eqb_spec c "policy") as [->|H2]; [done|].
  rewrite lookup_insert_ne by done.
  destruct (String.eqb_spec c "incident_response") as [->|H3]; [done|].
  rewrite lookup_insert_ne by done. done.
Qed.

(** The group of a category holds the records of the category in their
    original order. *)
Lemma group_queries_default queries c :
  default [] (group_queries queries !! c) = by_category c queries.
Proof.
  unfold group_queries. rewrite group_fold_lookup, initial_groups_lookup.
  destruct (by_category c queries), (known_category c); done.
Qed.

Lemma known_records_category queries q0 :
  known_records queries = true → q0 ∈ queries →
  known_category (Category q0) = true.
Proof.
  unfold known_records. rewrite forallb_forall. intros H Hin.
  apply H. by apply list_elem_of_In.
Qed.

Lemma group_queries_keys queries c :
  known_records queries = true →
  c ∈ dom (group_queries queries) ↔ c ∈ categories.
Proof.
  intros Hk. rewrite elem_of_dom. unfold group_queries.
  rewrite group_fold_lookup, initial_groups_lookup.
  assert (c ∈ categories ↔ known_category c = true) as ->.
  { unfold categories, known_category.
    rewrite !elem_of_cons, elem_of_nil, !orb_true_iff, !String.eqb_eq. tauto. }
  destruct (by_category c queries) as [|q0 l] eqn:Hb.
  - destruct (known_category c); split; intros H; try done; try (by eauto);
      by destruct H.
  - split; [intros _|by eauto].
    assert (q0 ∈ by_category c queries) as Hin by (rewrite Hb; left).
    apply list_elem_of_filter in Hin as [<- Hin].
    by eapply known_records_category.
Qed.

(** For records of the three categories, the runtime ranges over the three
    categories in some order. *)
Lemma range_order_categories queries order :
  known_records queries = true → range_order queries order →
  order ≡ₚ categories.
Proof.
  intros Hk Ho. unfold range_order in Ho. rewrite Ho.
  apply NoDup_Permutation.
  - apply NoDup_elements.
  - apply (bool_decide_unpack _). by vm_compute.
  - intros c. rewrite elem_of_elements. by apply group_queries_keys.
Qed.

End documents.

(** ** The loop over the groups and the whole writer *)

Section writer.

Implicit Types fs docs : files.
Implicit Types qs queries : list Query.

Lemma add_document_union name qs o docs fs :
  add_document name qs o (docs ∪ fs) = add_document name qs o docs ∪ fs.
Proof. destruct qs; [done|]. simpl. by rewrite insert_union_l. Qed.




Lemma category_file_inj c1 c2 :
  c1 ∈ categories → c2 ∈ categories →
  category_file c1 = category_file c2 → c1 = c2.
Proof.
  unfold categories. rewrite !elem_of_cons, !elem_of_nil.
  intros [->|[->|[->|[]]]] [->|[->|[->|[]]]]; vm_compute; congruence.
Qed.

Lemma write_category_comm groups fs c1 c2 :
  c1 ∈ categories → c2 ∈ categories →
  write_category groups (write_category groups fs c1) c2
  = write_category groups (write_category groups fs c2) c1.
Proof.
  intros H1 H2. destruct (decide (c1 = c2)) as [->|Hne]; [done|].
  unfold write_category, add_document.
  destruct (default [] (groups !! c1)), (default [] (groups !! c2)); try done.
  apply insert_insert_ne. intros Heq. apply Hne. by apply category_file_inj.
Qed.

(** The order of the iterations over the three categories does not
    matter: each writes a file of its own. *)
Lemma write_category_perm groups order order' fs :
  order ≡ₚ order' → Forall (.∈ categories) order →
  foldl (write_category groups) fs order
  = foldl (write_category groups) fs order'.
Proof.
  intros Hp. revert fs.
  induction Hp as [|c l l' Hp IH|c1 c2 l|l l' l'' Hp1 IH1 Hp2 IH2];
    intros fs HF.
  - done.
  - apply Forall_cons in HF as [_ HF]. simpl. by apply IH.
  - apply Forall_cons in HF as [H1 HF]. apply Forall_cons in HF as [H2 _].
    simpl. by rewrite write_category_comm.
  - rewrite IH1 by done. apply IH2. by rewrite <- Hp1.
Qed.

(** What [writeFleetYAML] leaves behind when every file can be created,
    for any records and any order of the loop. *)
Lemma writeFleetYAML_always order queries fs :
  writeFleetYAML always_creatable order queries fs
  = (<["chainguard-all.yml" := document queries 0]>
       (add_document "chainguard-detection-5min.yml"
          (by_category "detection" queries) 300
          (foldl (write_category (group_queries queries)) fs order)),
     Ok).
Proof.
  unfold writeFleetYAML. rewrite write_categories_always.
  rewrite group_queries_default.
  set (fs1 := foldl _ fs order).
  destruct (by_category "detection" queries) as [|q0 qs].
  - cbn [length Nat.ltb Nat.leb add_document].
    change (Create always_creatable "chainguard-all.yml" fs1)
      with (Some (<["chainguard-all.yml" := ""]> fs1)).
    cbv iota beta. by rewrite write_records_appends, records_from_0.
  - cbn [length Nat.ltb Nat.leb add_document].
    change (Create always_creatable "chainguard-detection-5min.yml" fs1)
      with (Some (<["chainguard-detection-5min.yml" := ""]> fs1)).
    cbv iota beta. rewrite write_records_appends, records_from_0.
    set (fs2 := <[_ := _]> fs1).
    change (Create always_creatable "chainguard-all.yml" fs2)
      with (Some (<["chainguard-all.yml" := ""]> fs2)).
    cbv iota beta. by rewrite write_records_appends, records_from_0.
Qed.

Lemma write_categories_known order queries fs :
  known_records queries = true → range_order queries order →
  foldl (write_category (group_queries queries)) fs order
  = category_documents queries ∪ fs.
Proof.
  intros Hk Ho. pose proof (range_order_categories _ _ Hk Ho) as Hp.
  rewrite (write_category_perm _ order categories) by
    (try done; rewrite Hp; by apply Forall_forall).
  unfold categories, category_documents. cbn [foldl]. unfold write_category.
  rewrite !group_queries_default.
  change (category_file "detection") with "chainguard-detection.yml".
  change (category_file "policy") with "chainguard-policy.yml".
  change (category_file "incident_response")
    with "chainguard-incident-response.yml".
  by rewrite <- !add_document_union, (left_id_L ∅ (∪)).
Qed.

(** For records of the three categories the writer overlays the output
    directory with the documents of the records, whatever the order of
    the loop over the groups. *)
Lemma writeFleetYAML_documents order queries fs :
  known_records queries = true → range_order queries order →
  writeFleetYAML always_creatable order queries fs
  = (documents queries ∪ fs, Ok).
Proof.
  intros Hk Ho. rewrite writeFleetYAML_always, write_categories_known by done.
  unfold documents. by rewrite add_document_union, insert_union_l.
Qed.

Lemma known_range_order queries order :
  known_records queries = true → order ≡ₚ categories →
  range_order queries order.
Proof.
  intros Hk Hp. unfold range_order. rewrite Hp. symmetry.
  apply NoDup_Permutation.
  - apply NoDup_elements.
  - apply (bool_decide_unpack _). by vm_compute.
  - intros c. rewrite elem_of_elements. by apply group_queries_keys.
Qed.



End writer.

(** ** The documents of a run *)

(** C3, as the code has it.  For records of the three categories and an
    environment that lets every file be created (a run of the writer that
    creates all its files), the output directory after a run does not depend
    on the order in which the runtime ranges over the groups; a second run
    on the same records leaves every file as the first run left it; and the
    content of every document written is fixed by the records alone, not by
    the order or by what the directory held before. *)
Theorem documents_deterministic order1 order2 queries fs :
  known_records queries = true →
  range_order queries order1 → range_order queries order2 →
  writeFleetYAML always_creatable order1 queries fs
  = writeFleetYAML always_creatable order2 queries fs
  ∧ writeFleetYAML always_creatable order2 queries
      (writeFleetYAML always_creatable order1 queries fs).1
    = writeFleetYAML always_creatable order1 queries fs
  ∧ ∀ fs2 name,
      is_Some (documents queries !! name) →
      (writeFleetYAML always_creatable order1 queries fs).1 !! name
      = documents queries !! name
      ∧ (writeFleetYAML always_creatable order2 queries fs2).1 !! name
        = documents queries !! name.
Proof.
  intros Hk Ho1 Ho2. rewrite !writeFleetYAML_documents by done.
  split; [done|]. split.
  - cbn [fst]. by rewrite (assoc_L (∪)), (idemp_L (∪)).
  - intros fs2 name [content Hc]. rewrite writeFleetYAML_documents by done.
    cbn [fst]. rewrite Hc. split; by apply lookup_union_Some_l.
Qed.

Lemma documents_deterministic_witness :
  writeFleetYAML always_creatable categories
    [sample_detection; sample_incident] ∅
  = writeFleetYAML always_creatable ["policy"; "incident_response"; "detection"]
      [sample_detection; sample_incident] ∅.
Proof.
  assert (["policy"; "incident_response"; "detection"] ≡ₚ categories) as Hp.
  { unfold categories.
    apply perm_trans with ["policy"; "detection"; "incident_response"].
    - apply perm_skip, perm_swap.
    - apply perm_swap. }
  assert (known_records [sample_detection; sample_incident] = true) as Hk
    by reflexivity.
  exact (proj1 (documents_deterministic categories
           ["policy"; "incident_response"; "detection"]
           [sample_detection; sample_incident] ∅ Hk
           (known_range_order _ _ Hk (reflexivity _))
           (known_range_order _ _ Hk Hp))).
Defined.

(** C3 as the specification words it fails when a file cannot be created:
    the writer stops at the first creation that fails, and what it wrote
    before depends on the order in which the runtime ranges over the
    groups.  With the detection document refused, the incident-response
    document is written when its group comes first and not written when
    detection comes first. *)
Lemma documents_deterministic_counterexample :
  known_records [sample_detection; sample_incident] = true
  ∧ range_order [sample_detection; sample_incident] categories
  ∧ range_order [sample_detection; sample_incident]
      ["incident_response"; "detection"; "policy"]
  ∧ (writeFleetYAML detection_blocked categories
       [sample_detection; sample_incident] ∅).1
    ≠ (writeFleetYAML detection_blocked
         ["incident_response"; "detection"; "policy"]
         [sample_detection; sample_incident] ∅).1.
Proof.
  assert (known_records [sample_detection; sample_incident] = true) as Hk
    by reflexivity.
  split; [done|]. split; [by apply known_range_order|]. split.
  - apply known_range_order; [done|]. unfold categories.
    apply perm_trans with ["detection"; "incident_response"; "policy"].
    + apply perm_swap.
    + apply perm_skip, perm_swap.
  - intros H.
    apply (f_equal (fun fs => fs !! "chainguard-incident-response.yml")) in H.
    vm_compute in H. discriminate.
Qed.



Lemma write_records_all creatable queries fs fs' :
  (λ fs1, write_records "chainguard-all.yml" 0 queries 0 fs1)
    <$> Create creatable "chainguard-all.yml" fs = Some fs' →
  fs' = <["chainguard-all.yml" := document queries 0]> fs.
Proof.
  unfold Create. destruct (creatable _); [|done]. intros [= <-].
  by rewrite write_records_appends, records_from_0.
Qed.

Lemma write_categories_empty creatable order fs :
  write_categories creatable (group_queries []) order fs = (fs, Ok).
Proof.
  induction order as [|c order IH]; [done|].
  cbn [write_categories]. by rewrite group_queries_default.
Qed.



(** ** Platform normalization *)

Lemma lower_byte_fold a b :
  is_upper b = false → Ascii.eqb (lower_byte a) b = fold_eq_byte a b.
Proof.
  intros Hb. unfold fold_eq_byte, lower_byte. rewrite Hb. fold (is_upper a).
  rewrite andb_false_l, orb_false_r.
  destruct (is_upper a) eqn:Ha; [|by rewrite andb_false_l, orb_false_r].
  rewrite andb_true_l.
  assert (Ascii.eqb a b = false) as ->.
  { apply Ascii.eqb_neq. intros ->. congruence. }
  rewrite orb_false_l.
  unfold is_upper, byte_val in *. apply andb_true_iff in Ha as [H1 H2].
  apply N.leb_le in H1, H2.
  destruct (N.eqb_spec (N_of_ascii b) (N_of_ascii a + 32)) as [Heq|Hne].
  - apply Ascii.eqb_eq. rewrite <- Heq. apply ascii_N_embedding.
  - apply Ascii.eqb_neq. intros <-. apply Hne.
    rewrite N_ascii_embedding; lia.
Qed.

Lemma lower_equal_fold p t :
  all_bytes (fun c => negb (is_upper c)) t = true →
  String.eqb (map_bytes lower_byte p) t = equal_fold p t.
Proof.
  revert t. induction p as [|a p IH]; intros [|b t] Ht; try done.
  simpl in Ht. apply andb_true_iff in Ht as [Hb Ht].
  apply negb_true_iff in Hb. simpl. by rewrite lower_byte_fold, IH.
Qed.

(** On an ASCII string the library lowers byte by byte. *)
Lemma ToLower_ascii p : is_ascii p = true → ToLower p = map_bytes lower_byte p.
Proof. intros Hp. unfold ToLower. by rewrite Hp. Qed.

Lemma ToLower_equal_fold p t :
  is_ascii p = true →
  all_bytes (fun c => negb (is_upper c)) t = true →
  String.eqb (ToLower p) t = equal_fold p t.
Proof. intros Hp Ht. rewrite ToLower_ascii by done. by apply lower_equal_fold. Qed.

Lemma fold_eq_byte_lower a b :
  fold_eq_byte a b = true → lower_byte b = lower_byte a.
Proof.
  unfold fold_eq_byte, lower_byte. fold (is_upper a) (is_upper b).
  intros Hab.
  apply orb_true_iff in Hab as [Hab|Hab];
    [apply orb_true_iff in Hab as [Hab|Hab]|].
  - apply Ascii.eqb_eq in Hab. by subst.
  - apply andb_true_iff in Hab as [Ha Hv]. apply N.eqb_eq in Hv.
    rewrite Ha. assert (is_upper b = false) as ->.
    { unfold is_upper in *. apply andb_true_iff in Ha as [H1 H2].
      apply N.leb_le in H1, H2. rewrite Hv.
      apply andb_false_iff. right. apply N.leb_gt. lia. }
    rewrite <- Hv. unfold byte_val. by rewrite ascii_N_embedding.
  - apply andb_true_iff in Hab as [Hb Hv]. apply N.eqb_eq in Hv.
    rewrite Hb. assert (is_upper a = false) as ->.
    { unfold is_upper in *. apply andb_true_iff in Hb as [H1 H2].
      apply N.leb_le in H1, H2. rewrite Hv.
      apply andb_false_iff. right. apply N.leb_gt. lia. }
    rewrite <- Hv. unfold byte_val. by rewrite ascii_N_embedding.
Qed.

Lemma equal_fold_lower p p' :
  equal_fold p p' = true → map_bytes lower_byte p' = map_bytes lower_byte p.
Proof.
  revert p'.
  induction p as [|a p IH]; intros [|b p'] H; try done.
  simpl in H. apply andb_true_iff in H as [Hab H]. simpl.
  by rewrite (IH _ H), (fold_eq_byte_lower a b).
Qed.

Lemma normalizePlatform_table p :
  is_ascii p = true → normalizePlatform p = platform_table p.
Proof.
  intros Hp. unfold normalizePlatform, platform_table. cbv zeta.
  by rewrite !ToLower_equal_fold by done.
Qed.

(** C5, as the code has it.  On an ASCII token the
    normalization is the table of the specification read without regard to
    the case of letters: darwin and macos give darwin, linux gives linux,
    posix gives darwin,linux, windows gives windows and every other token
    gives the empty string; and a record with the empty platform is
    written without a platform line. *)
Theorem normalizePlatform_spec p :
  is_ascii p = true →
  normalizePlatform p
  = (if equal_fold p "darwin" || equal_fold p "macos" then "darwin"
     else if equal_fold p "linux" then "linux"
     else if equal_fold p "posix" then "darwin,linux"
     else if equal_fold p "windows" then "windows"
     else "")
  ∧ (∀ p', is_ascii p' = true → equal_fold p p' = true →
           normalizePlatform p' = normalizePlatform p)
  ∧ (∀ w q0 o fs,
       Platform q0 = normalizePlatform p → normalizePlatform p = "" →
       writeQueryYAML w q0 o fs
       = alter (fun c => c +:+ record_head q0
                  +:+ interval_field (resolved_interval q0 o)
                  +:+ logging_field q0) w fs).
Proof.
  intros Hp. split; [by apply normalizePlatform_table|]. split.
  - intros p' Hp' Hfold. rewrite !normalizePlatform_table by done.
    unfold platform_table.
    assert (∀ t, all_bytes (fun c => negb (is_upper c)) t = true →
                 equal_fold p' t = equal_fold p t) as Ht.
    { intros t Hlow. rewrite <- !lower_equal_fold by done.
      by rewrite (equal_fold_lower p p'). }
    by rewrite !Ht by reflexivity.
  - intros w q0 o fs Hq He. rewrite writeQueryYAML_appends.
    unfold record_text, platform_field. rewrite Hq, He. simpl String.eqb.
    cbv iota. by rewrite app_empty_l.
Qed.

Lemma normalizePlatform_spec_witness :
  normalizePlatform "POSIX" = "darwin,linux"
  ∧ normalizePlatform "amiga" = "".
Proof.
  split.
  - exact (proj1 (normalizePlatform_spec "POSIX" eq_refl)).
  - exact (proj1 (normalizePlatform_spec "amiga" eq_refl)).
Defined.

(** C5 as the specification words it fails on a token that is not ASCII:
    strings.ToLower lowers the runes of such a token by the Unicode
    tables, where the capital I with a dot above becomes the letter i.
    The token is none of the five names, with or without regard to the
    case of its letters, and is normalized to linux all the same. *)
Lemma normalizePlatform_spec_counterexample :
  is_ascii dotted_linux = false
  ∧ platform_table dotted_linux = ""
  ∧ normalizePlatform dotted_linux = "linux"
  ∧ normalizePlatform dotted_linux ≠ platform_table dotted_linux.
Proof. vm_compute. repeat split; discriminate. Qed.

(** ** Name generation *)

Lemma drop_app_length s t : strings.drop (String.length s) (s +:+ t) = t.
Proof. induction s as [|c s IH]; [done|]. apply IH. Qed.

Lemma take_app_length s t : strings.take (String.length s) (s +:+ t) = s.
Proof. induction s as [|c s IH]; [done|]. rewrite app_cons. simpl. by rewrite IH. Qed.

Lemma TrimSuffix_app s suffix : strings.TrimSuffix (s +:+ suffix) suffix = s.
Proof.
  unfold strings.TrimSuffix, strings.HasSuffix.
  rewrite length_app_str.
  replace (String.length s + String.length suffix - String.length suffix)%nat
    with (String.length s) by lia.
  rewrite drop_app_length, take_app_length, String.eqb_refl, andb_true_r.
  destruct (Nat.leb_spec (String.length suffix)
              (String.length s + String.length suffix)); [done|lia].
Qed.

Lemma subst_byte_map old new s :
  subst_byte old (String new "") s
  = map_bytes (fun c => if Ascii.eqb c old then new else c) s.
Proof.
  induction s as [|c s IH]; [done|]. simpl. rewrite IH.
  by destruct (Ascii.eqb c old).
Qed.

Lemma map_bytes_compose f g s :
  map_bytes g (map_bytes f s) = map_bytes (fun c => g (f c)) s.
Proof. induction s as [|c s IH]; [done|]. simpl. by rewrite IH. Qed.

Lemma map_bytes_ext f g s :
  (∀ c, f c = g c) → map_bytes f s = map_bytes g s.
Proof. intros H. induction s as [|c s IH]; [done|]. simpl. by rewrite H, IH. Qed.

Lemma spaces_for_dashes s :
  strings.ReplaceAll (strings.ReplaceAll s "-" " ") "_" " "
  = map_bytes dash_to_space s.
Proof.
  rewrite !ReplaceAll_byte, !subst_byte_map, map_bytes_compose.
  apply map_bytes_ext. intros c. unfold dash_to_space.
  destruct (Ascii.eqb c "-") eqn:E1; [done|].
  by destruct (Ascii.eqb c "_").
Qed.

Lemma generateName_unfold filename category subcategory :
  generateName filename category subcategory
  = name_prefix category subcategory
    +:+ Title (map_bytes dash_to_space (strings.TrimSuffix filename ".sql")).
Proof.
  unfold generateName, name_prefix. cbv zeta. rewrite spaces_for_dashes.
  destruct (String.eqb subcategory ""); simpl negb; cbv iota;
    by rewrite ?app_assoc_str.
Qed.

Example generateName_scenario :
  generateName "unusual-child.sql" "detection" "execution"
  = "[detection/execution] Unusual Child"
  ∧ generateName "listening_ports.sql" "incident_response" ""
    = "[incident_response] Listening Ports".
Proof. split; reflexivity. Qed.

(** ** The scanning loop *)

Section scanning.

Implicit Types st : scan_state.
Implicit Types line : string.
Implicit Types lines : list string.

(** Outside header mode every line is collected and the record is left
    alone. *)
Lemma scan_line_body st line :
  inHeader st = false →
  scan_line st line
  = mkScan (q st) (sqlLines st ++ [line]) (firstComment st) false.
Proof.
  intros Hh. unfold scan_line, collect. rewrite Hh. simpl.
  destruct (negb (is_blank line) && negb (is_comment line)); simpl;
    by rewrite ?Hh.
Qed.

Lemma scan_body st lines :
  inHeader st = false →
  fold_left scan_line lines st
  = mkScan (q st) (sqlLines st ++ lines) (firstComment st) false.
Proof.
  revert st. induction lines as [|line lines IH]; intros st Hh.
  - simpl. rewrite app_nil_r. destruct st; simpl in *; by subst.
  - cbn [fold_left]. rewrite scan_line_body by done.
    rewrite IH by done. simpl. by rewrite <- app_assoc.
Qed.

(** In header mode, a line that is not a comment is collected, and ends
    header mode unless it is blank. *)
Lemma scan_line_header_other st line :
  inHeader st = true → is_comment line = false →
  scan_line st line
  = mkScan (q st) (sqlLines st ++ [line]) (firstComment st)
      (negb (ends_header line)).
Proof.
  intros Hh Hc. unfold scan_line, collect, ends_header. rewrite Hh, Hc.
  simpl. rewrite andb_true_r.
  destruct (is_blank line); simpl; by rewrite ?Hh.
Qed.

(** In header mode, a comment line is never collected: a directive
    updates the record, the first candidate gives the description, every
    other comment line is passed over. *)
Lemma scan_line_header_comment st line :
  inHeader st = true → is_comment line = true →
  scan_line st line
  = if is_directive line then with_q (directive_update line) st
    else if firstComment st && description_candidate line
    then mkScan (set_Description (comment_content line) (q st))
           (sqlLines st) false true
    else st.
Proof.
  intros Hh Hc. unfold scan_line, collect, with_q, description_candidate.
  rewrite Hh, Hc. cbn [andb].
  unfold is_directive, matches_regex, directive_update.
  destruct (FindStringSubmatch tagsRegex line); [done|].
  destruct (FindStringSubmatch platformRegex line); [done|].
  destruct (FindStringSubmatch intervalRegex line); [done|].
  cbn [orb negb andb]. fold (comment_content line).
  destruct (firstComment st); cbn [andb]; [|by rewrite Hh].
  destruct (negb (String.eqb (comment_content line) "")
            && negb (strings.HasPrefix (comment_content line) "references:")
            && negb (strings.HasPrefix (comment_content line)
                       "false positives:"));
    cbn [inHeader negb orb]; by rewrite ?Hh.
Qed.

Lemma header_body_lines lines :
  header_lines lines ++ body_lines lines = lines.
Proof.
  induction lines as [|l ls IH]; [done|]. simpl.
  destruct (ends_header l); [done|]. simpl. by rewrite IH.
Qed.

(** The lines collected: the header without its comment lines, then the
    body. *)
Lemma scan_sqlLines st lines :
  inHeader st = true →
  sqlLines (fold_left scan_line lines st)
  = sqlLines st
    ++ List.filter (fun l => negb (is_comment l)) (header_lines lines)
    ++ body_lines lines.
Proof.
  revert st. induction lines as [|line lines IH]; intros st Hh.
  - simpl. by rewrite app_nil_r.
  - cbn [fold_left header_lines body_lines].
    destruct (is_comment line) eqn:Hc.
    + assert (ends_header line = false) as ->
        by (unfold ends_header; rewrite Hc; apply andb_false_r).
      cbn [List.filter]. rewrite Hc. cbn [negb].
      rewrite scan_line_header_comment by done.
      destruct (is_directive line); [by rewrite IH|].
      destruct (firstComment st && description_candidate line);
        by rewrite IH.
    + rewrite scan_line_header_other by done.
      destruct (ends_header line) eqn:He.
      * rewrite scan_body by done. cbn. by rewrite <- app_assoc.
      * rewrite IH by done. cbn [sqlLines negb List.filter]. rewrite Hc.
        cbn [negb]. by rewrite <- app_assoc.
Qed.

Lemma directive_update_Description line q0 :
  Description (directive_update line q0) = Description q0.
Proof.
  unfold directive_update.
  by destruct (FindStringSubmatch tagsRegex line),
    (FindStringSubmatch platformRegex line),
    (FindStringSubmatch intervalRegex line).
Qed.

Lemma directive_update_Name line q0 :
  Name (directive_update line q0) = Name q0.
Proof.
  unfold directive_update.
  by destruct (FindStringSubmatch tagsRegex line),
    (FindStringSubmatch platformRegex line),
    (FindStringSubmatch intervalRegex line).
Qed.

(** The description after the loop: the content of the first candidate
    of the header if no description was taken before, else unchanged. *)
Lemma scan_Description st lines :
  inHeader st = true →
  Description (q (fold_left scan_line lines st))
  = if firstComment st then
      match List.filter description_candidate (header_lines lines) with
      | l :: _ => comment_content l
      | [] => Description (q st)
      end
    else Description (q st).
Proof.
  revert st. induction lines as [|line lines IH]; intros st Hh.
  - simpl. by destruct (firstComment st).
  - cbn [fold_left header_lines].
    destruct (is_comment line) eqn:Hc.
    + assert (ends_header line = false) as ->
        by (unfold ends_header; rewrite Hc; apply andb_false_r).
      cbn [List.filter]. rewrite scan_line_header_comment by done.
      destruct (is_directive line) eqn:Hd.
      * assert (description_candidate line = false) as ->.
        { unfold description_candidate. by rewrite Hc, Hd. }
        rewrite IH by done. cbn [with_q firstComment q].
        by rewrite directive_update_Description.
      * destruct (firstComment st) eqn:Hf; cbn [andb].
        -- destruct (description_candidate line).
           ++ by rewrite IH.
           ++ rewrite IH by done. by rewrite Hf.
        -- rewrite IH by done. by rewrite Hf.
    + rewrite scan_line_header_other by done.
      assert (description_candidate line = false) as Hcand.
      { unfold description_candidate. by rewrite Hc. }
      destruct (ends_header line) eqn:He.
      * rewrite scan_body by done. cbn. by destruct (firstComment st).
      * rewrite IH by done. cbn [List.filter]. by rewrite Hcand.
Qed.

Lemma scan_Name st lines :
  Name (q (fold_left scan_line lines st)) = Name (q st).
Proof.
  revert st. induction lines as [|line lines IH]; intros st; [done|].
  cbn [fold_left]. rewrite IH.
  destruct (inHeader st) eqn:Hh; [|by rewrite scan_line_body].
  destruct (is_comment line) eqn:Hc; [|by rewrite scan_line_header_other].
  rewrite scan_line_header_comment by done.
  destruct (is_directive line); [apply directive_update_Name|].
  by destruct (firstComment st && description_candidate line).
Qed.

Lemma directive_update_Category line q0 :
  Category (directive_update line q0) = Category q0.
Proof.
  unfold directive_update.
  by destruct (FindStringSubmatch tagsRegex line),
    (FindStringSubmatch platformRegex line),
    (FindStringSubmatch intervalRegex line).
Qed.

Lemma scan_Category st lines :
  Category (q (fold_left scan_line lines st)) = Category (q st).
Proof.
  revert st. induction lines as [|line lines IH]; intros st; [done|].
  cbn [fold_left]. rewrite IH.
  destruct (inHeader st) eqn:Hh; [|by rewrite scan_line_body].
  destruct (is_comment line) eqn:Hc; [|by rewrite scan_line_header_other].
  rewrite scan_line_header_comment by done.
  destruct (is_directive line); [apply directive_update_Category|].
  by destruct (firstComment st && description_candidate line).
Qed.

Lemma trim_leading_blank_header lines :
  trim_leading_blank
    (List.filter (fun l => negb (is_comment l)) (header_lines lines)
     ++ body_lines lines)
  = body_lines lines.
Proof.
  induction lines as [|l ls IH]; [done|]. cbn [header_lines body_lines].
  destruct (ends_header l) eqn:He.
  - cbn. unfold ends_header in He. apply andb_true_iff in He as [Hb _].
    apply negb_true_iff in Hb. by rewrite Hb.
  - cbn [List.filter]. destruct (is_comment l) eqn:Hc; cbn [negb]; [done|].
    cbn [app trim_leading_blank].
    unfold ends_header in He. rewrite Hc, andb_true_r in He.
    apply negb_false_iff in He. by rewrite He.
Qed.

End scanning.

(** ** The record of a file *)

Lemma parseQuery_scan relPath category lines :
  ∃ q0,
    Name q0 = generateName (effective_filename relPath) category
                (subcategory_of relPath)
    ∧ Description q0 = ""
    ∧ parseQuery relPath category lines
      = let st := scan q0 lines in
        let q4 := set_SQL (TrimSpace (strings.Join
                             (trim_leading_blank (sqlLines st)) nl)) (q st) in
        if String.eqb (Description q4) "" then set_Description (Name q4) q4
        else q4.
Proof.
  unfold parseQuery, effective_filename, subcategory_of, scan.
  destruct (decode_filename _) as [level filename]. cbv zeta.
  eexists. split; [|split; [|reflexivity]].
  - cbn [Name set_Name snd].
    by destruct (1 <? length (strings.Split relPath "/"))%nat.
  - cbn [Description set_Name].
    by destruct (1 <? length (strings.Split relPath "/"))%nat.
Qed.

Lemma first_candidate_nonempty lines l rest :
  List.filter description_candidate lines = l :: rest →
  comment_content l ≠ "".
Proof.
  intros Hf. assert (In l (List.filter description_candidate lines)) as Hin
    by (rewrite Hf; by left).
  apply filter_In in Hin as [_ Hc]. unfold description_candidate in Hc.
  repeat (apply andb_true_iff in Hc as [Hc ?]).
  intros Heq. rewrite Heq in *. done.
Qed.

(** C6. The description of a record is the content of the first comment
    line of the header that is not empty behind the marker, is not a tags,
    platform or interval directive and does not begin with [references:] or
    [false positives:]; lines that qualify later are ignored, and lines
    that do not qualify are passed over.  When the header has no such line
    the description is the generated name. *)
Theorem description_first_candidate relPath category lines :
  Description (parseQuery relPath category lines)
  = first_description
      (generateName (effective_filename relPath) category (subcategory_of relPath))
      lines
  ∧ Name (parseQuery relPath category lines)
    = generateName (effective_filename relPath) category (subcategory_of relPath)
  ∧ Description (parseQuery relPath category
                   ["-- references: https://example.com";
                    "-- tags: persistent"; "--";
                    "-- Unexpected launchd job"; "-- Another comment";
                    "SELECT 1;"; "-- Comment in the query"])
    = "Unexpected launchd job".
Proof.
  split; [|split].
  - destruct (parseQuery_scan relPath category lines) as (q0 & Hn & Hd & ->).
    unfold first_description. cbv zeta. cbn [Description set_SQL Name].
    unfold scan. rewrite scan_Description by done. cbn [firstComment q].
    rewrite scan_Name. cbn [q].
    destruct (List.filter description_candidate (header_lines lines))
      as [|l rest] eqn:Hf.
    + rewrite Hd. change (String.eqb "" "") with true. cbv iota.
      cbn [Description set_Description]. exact Hn.
    + pose proof (first_candidate_nonempty _ _ _ Hf) as Hne.
      apply String.eqb_neq in Hne. rewrite Hne. cbn [Description set_SQL].
      rewrite scan_Description by done. cbn [firstComment]. by rewrite Hf.
  - destruct (parseQuery_scan relPath category lines) as (q0 & Hn & Hd & ->).
    cbv zeta.
    destruct (String.eqb _ ""); cbn [Name set_Description set_SQL];
      unfold scan; by rewrite scan_Name.
  - destruct (parseQuery_scan relPath category
                ["-- references: https://example.com";
                 "-- tags: persistent"; "--";
                 "-- Unexpected launchd job"; "-- Another comment";
                 "SELECT 1;"; "-- Comment in the query"])
      as (q0 & Hn & Hd & ->).
    destruct q0. vm_compute. reflexivity.
Qed.

(** ** The body of a record *)

(** C1, as the code has it.  A line is collected for the body unless it is
    read in header mode and begins with the comment marker, whether or not
    it was consumed as a directive or as the description: the lines
    collected are the lines of the header that are not comments (they are
    blank) followed by every line from the first non-blank, non-comment
    line on, comments included, and the body of the record is that last
    run of lines, joined and trimmed. *)
Theorem body_from_first_sql_line relPath category q0 lines :
  sqlLines (scan q0 lines)
  = List.filter (fun l => negb (is_comment l)) (header_lines lines)
    ++ body_lines lines
  ∧ SQL (parseQuery relPath category lines)
    = TrimSpace (strings.Join (body_lines lines) nl)
  ∧ header_lines lines ++ body_lines lines = lines
  ∧ Forall (fun l => is_blank l = true ∨ is_comment l = true) (header_lines lines)
  ∧ match body_lines lines with
    | l :: _ => is_blank l = false ∧ is_comment l = false
    | [] => True
    end.
Proof.
  split; [|split; [|split; [|split]]].
  - unfold scan. by rewrite scan_sqlLines.
  - destruct (parseQuery_scan relPath category lines) as (q1 & _ & _ & ->).
    cbv zeta. unfold scan. rewrite scan_sqlLines by done. cbn [sqlLines app].
    rewrite trim_leading_blank_header.
    by destruct (String.eqb _ "").
  - apply header_body_lines.
  - induction lines as [|l ls IH]; [by constructor|]. cbn [header_lines].
    destruct (ends_header l) eqn:He; [by constructor|].
    constructor; [|done]. unfold ends_header in He.
    apply andb_false_iff in He as [He|He]; apply negb_false_iff in He; auto.
  - induction lines as [|l ls IH]; [done|]. cbn [body_lines].
    destruct (ends_header l) eqn:He; [|done].
    unfold ends_header in He. apply andb_true_iff in He as [H1 H2].
    by apply negb_true_iff in H1, H2.
Qed.

(** C1 as the specification words it fails: the second comment line of
    this header is neither a directive nor the description, and the parser
    leaves it out of the body all the same. *)
Lemma body_keeps_unconsumed_comments_counterexample :
  sqlLines (scan zeroQuery file_with_references)
  ≠ spec_sqlLines true file_with_references.
Proof. vm_compute. discriminate. Qed.

Example body_of_file_with_references :
  sqlLines (scan zeroQuery file_with_references) = ["SELECT 1;"]
  ∧ spec_sqlLines true file_with_references = ["-- references:"; "SELECT 1;"]
  ∧ SQL (parseQuery "file.sql" "policy" file_with_references) = "SELECT 1;".
Proof. split; [|split]; vm_compute; reflexivity. Qed.

(** ** White space and tokens *)

Section white_space.

Implicit Types s t r : string.
Implicit Types c : ascii.















End white_space.

(** ** Directive lines *)

Section directives.

Implicit Types v : string.












End directives.

(** ** Decimal numbers *)

Section decimal.







End decimal.

(** ** Reading back a header block *)

Section round_trip.

Implicit Types st : scan_state.







End round_trip.




(** ** The records of the extractor *)

(** A record carries the category of the directory it was found under, so
    the records of a walk over the three category directories are records
    of the three categories. *)
Lemma parseQuery_Category relPath category lines :
  Category (parseQuery relPath category lines) = category.
Proof.
  unfold parseQuery. destruct (decode_filename _) as [level filename].
  cbv zeta.
  destruct (String.eqb _ ""); cbn [Category set_Description set_SQL];
    rewrite scan_Category; cbn [q Category set_Name set_Level];
    by destruct (1 <? length (strings.Split relPath "/"))%nat.
Qed.

Lemma parsed_records_known (files : list (string * string * list string)) :
  Forall (fun f => f.1.2 ∈ categories) files →
  known_records (map (fun f => parseQuery f.1.1 f.1.2 f.2) files) = true.
Proof.
  intros Hf. unfold known_records. rewrite forallb_forall.
  intros q0 Hin. apply in_map_iff in Hin as (f & <- & Hin).
  rewrite parseQuery_Category.
  rewrite Forall_forall in Hf. specialize (Hf f).
  assert (f.1.2 ∈ categories) as Hc by (apply Hf; by apply list_elem_of_In).
  unfold categories in Hc. rewrite !elem_of_cons, elem_of_nil in Hc.
  by destruct Hc as [->|[->|[->|[]]]].
Qed.

(** The scenario of the specification: a detection query of level 2 in the
    subcategory execution, and where it ends up. *)
Example scenario_unusual_child :
  parseQuery "execution/2-unusual-child.sql" "detection"
    ["-- tags: mitre ta0002"; "SELECT 1;"]
  = mkQuery "[detection/execution] Unusual Child"
      "[detection/execution] Unusual Child" "SELECT 1;" ""
      ["mitre"; "ta0002"] 0 2 "detection" "execution".
Proof. vm_compute. reflexivity. Qed.

Example scenario_no_header :
  parseQuery "ports.sql" "policy" ["SELECT 1;"]
  = mkQuery "[policy] Ports" "[policy] Ports" "SELECT 1;" "" [] 0 0 "policy" "".
Proof. vm_compute. reflexivity. Qed.

Example scenario_documents :
  documents [sample_detection; sample_incident] !! "chainguard-detection-5min.yml"
  = Some ("apiVersion: v1" +:+ nl +:+ "kind: query" +:+ nl +:+ "spec:" +:+ nl
          +:+ "  name: " +:+ String dquote "[detection/execution] Unusual Child"
          +:+ String dquote nl
          +:+ "  description: " +:+ String dquote "Detected: suspicious activity"
          +:+ String dquote nl
          +:+ "  query: |" +:+ nl +:+ "    SELECT 1;" +:+ nl
          +:+ "  platform: darwin,linux" +:+ nl
          +:+ "  interval: 300" +:+ nl
          +:+ "  logging: differential" +:+ nl)
  ∧ documents [sample_detection; sample_incident] !! "chainguard-policy.yml"
    = None.
Proof. split; vm_compute; reflexivity. Qed.

(** * Further properties of the converter *)

(** ** The directive patterns as plain string tests *)

Section patterns.

Implicit Types s v line : string.

Lemma skip_spaces_head s :
  match skip_spaces s with
  | String c _ => cls_space c = false
  | EmptyString => True
  end.
Proof.
  induction s as [|c s IH]; [done|]. cbn [skip_spaces].
  destruct (cls_space c) eqn:Hc; [done|]. by cbn.
Qed.

(** A literal that does not begin with white space can only follow the
    whole run of white space: giving bytes back never helps. *)
Lemma greedy_star_lit key r s :
  match key with String k _ => cls_space k = false | EmptyString => False end →
  greedy_star cls_space (match_here (lit key :: r)) s
  = if strings.HasPrefix (skip_spaces s) key
    then match_here r (strings.drop (String.length key) (skip_spaces s))
    else None.
Proof.
  intros Hk. induction s as [|c s IH].
  - by cbn.
  - cbn [greedy_star skip_spaces]. destruct (cls_space c) eqn:Hc; [|done].
    rewrite IH. destruct (strings.HasPrefix (skip_spaces s) key) eqn:Hp.
    + destruct (match_here r _); [done|].
      cbn [match_here]. destruct key as [|k key]; [done|].
      cbn [strings.HasPrefix].
      destruct (Ascii.eqb_spec c k) as [->|_]; [congruence|done].
    + cbn [match_here]. destruct key as [|k key]; [done|].
      cbn [strings.HasPrefix].
      destruct (Ascii.eqb_spec c k) as [->|_]; [congruence|done].
Qed.

Lemma greedy_plus_end cls v :
  greedy_plus cls (match_here []) v
  = if negb (String.eqb v "") && all_bytes cls v then Some (v, []) else None.
Proof.
  induction v as [|c v IH]; [done|].
  cbn [greedy_plus all_bytes]. destruct (cls c); [|done].
  rewrite IH. destruct v as [|c' v]; [done|].
  cbn [String.eqb negb andb]. by destruct (all_bytes cls (String c' v)).
Qed.

(** White space, then digits up to the end. *)
Lemma spaces_then_digits s :
  greedy_star cls_space (match_here [group_plus cls_digit]) s
  = if negb (String.eqb (skip_spaces s) "")
       && all_bytes cls_digit (skip_spaces s)
    then Some [skip_spaces s] else None.
Proof.
  induction s as [|c s IH]; [done|].
  cbn [greedy_star skip_spaces]. destruct (cls_space c) eqn:Hc.
  - rewrite IH.
    destruct (negb (String.eqb (skip_spaces s) "")
              && all_bytes cls_digit (skip_spaces s)); [done|].
    cbn [match_here greedy_plus].
    assert (cls_digit c = false) as ->; [|done].
    unfold cls_space, cls_digit in *.
    rewrite !orb_true_iff, !N.eqb_eq in Hc.
    destruct Hc as [[[[->| ->]| ->]| ->]| ->]; reflexivity.
  - cbn [match_here]. rewrite greedy_plus_end. cbn [String.eqb negb andb].
    by destruct (all_bytes cls_digit (String c s)).
Qed.

(** White space, then anything up to the end, on a text without a line
    feed: all that follows the white space, or the last byte of a text that
    is white space only. *)
Lemma spaces_then_any s :
  all_bytes cls_any s = true →
  greedy_star cls_space (match_here [group_plus cls_any]) s
  = match s with
    | EmptyString => None
    | String _ _ =>
        match skip_spaces s with
        | EmptyString =>
            Some [strings.drop (String.length s - 1) s]
        | String _ _ => Some [skip_spaces s]
        end
    end.
Proof.
  induction s as [|c s IH]; intros Ha; [done|].
  cbn [all_bytes] in Ha. apply andb_true_iff in Ha as [Hc Ha].
  cbn [greedy_star skip_spaces]. destruct (cls_space c) eqn:Hs.
  - rewrite IH by done. destruct s as [|c' s].
    + cbn [match_here greedy_plus skip_spaces]. by rewrite Hc.
    + destruct (skip_spaces (String c' s)); [|done].
      do 2 f_equal. cbn [String.length]. by rewrite !Nat.sub_succ, !Nat.sub_0_r.
  - cbn [match_here]. rewrite greedy_plus_end. cbn [String.eqb negb all_bytes].
    by rewrite Hc, Ha.
Qed.

Lemma match_here_lit text r s :
  match_here (lit text :: r) s
  = if strings.HasPrefix s text
    then match_here r (strings.drop (String.length text) s) else None.
Proof. reflexivity. Qed.

Lemma match_here_star cls r s :
  match_here (star cls :: r) s = greedy_star cls (match_here r) s.
Proof. reflexivity. Qed.

Lemma directive_regex_text key cls line :
  match key with String k _ => cls_space k = false | EmptyString => False end →
  FindStringSubmatch [lit "--"; star cls_space; lit key; star cls_space;
                       group_plus cls] line
  = match directive_text key line with
    | Some v => cons line <$> greedy_star cls_space (match_here [group_plus cls]) v
    | None => None
    end.
Proof.
  intros Hk. unfold FindStringSubmatch, directive_text.
  rewrite match_here_lit, match_here_star.
  change (String.length "--") with 2%nat.
  destruct (strings.HasPrefix line "--"); [|done].
  rewrite greedy_star_lit by done. cbv zeta.
  destruct (strings.HasPrefix _ key); [|done].
  by rewrite match_here_star.
Qed.

End patterns.

(** ** What counts as a directive line *)

Section directive_syntax.

Implicit Types s v line : string.

Lemma tagsRegex_text line :
  FindStringSubmatch tagsRegex line
  = match directive_text "tags:" line with
    | Some v => cons line <$> greedy_star cls_space (match_here [group_plus cls_any]) v
    | None => None
    end.
Proof. by apply directive_regex_text. Qed.

Lemma platformRegex_text line :
  FindStringSubmatch platformRegex line
  = match directive_text "platform:" line with
    | Some v => cons line <$> greedy_star cls_space (match_here [group_plus cls_any]) v
    | None => None
    end.
Proof. by apply directive_regex_text. Qed.

Lemma intervalRegex_text line :
  FindStringSubmatch intervalRegex line
  = match directive_text "interval:" line with
    | Some v => cons line <$> greedy_star cls_space (match_here [group_plus cls_digit]) v
    | None => None
    end.
Proof. by apply directive_regex_text. Qed.

(** The keys begin with different letters: a line is a directive of one
    kind at most. *)
Lemma directive_text_exclusive key1 key2 line :
  match key1, key2 with
  | String k1 _, String k2 _ => k1 ≠ k2
  | _, _ => False
  end →
  is_Some (directive_text key1 line) → directive_text key2 line = None.
Proof.
  intros Hk [v Hv]. unfold directive_text in *.
  destruct (strings.HasPrefix line "--"); [|done]. cbv zeta in *.
  destruct (strings.HasPrefix _ key1) eqn:H1; [|done].
  destruct (strings.HasPrefix _ key2) eqn:H2; [|done].
  destruct key1 as [|k1 key1], key2 as [|k2 key2]; try done.
  destruct (skip_spaces _) as [|c s]; [done|].
  cbn [strings.HasPrefix] in H1, H2.
  apply andb_true_iff in H1 as [H1 _]. apply andb_true_iff in H2 as [H2 _].
  apply Ascii.eqb_eq in H1, H2. congruence.
Qed.

Lemma regex_text_is_Some key cls line :
  match key with String k _ => cls_space k = false | EmptyString => False end →
  is_Some (FindStringSubmatch [lit "--"; star cls_space; lit key;
                                star cls_space; group_plus cls] line) →
  is_Some (directive_text key line).
Proof.
  intros Hk. rewrite directive_regex_text by done.
  destruct (directive_text key line); [eauto|]. by intros [? ?].
Qed.

Lemma tags_not_platform line :
  is_Some (FindStringSubmatch tagsRegex line) →
  FindStringSubmatch platformRegex line = None
  ∧ FindStringSubmatch intervalRegex line = None.
Proof.
  intros Ht. apply (regex_text_is_Some "tags:" cls_any) in Ht; [|done].
  rewrite platformRegex_text, intervalRegex_text.
  rewrite (directive_text_exclusive "tags:" "platform:") by done.
  by rewrite (directive_text_exclusive "tags:" "interval:").
Qed.

Lemma platform_not_tags line :
  is_Some (FindStringSubmatch platformRegex line) →
  FindStringSubmatch tagsRegex line = None
  ∧ FindStringSubmatch intervalRegex line = None.
Proof.
  intros Ht. apply (regex_text_is_Some "platform:" cls_any) in Ht; [|done].
  rewrite tagsRegex_text, intervalRegex_text.
  rewrite (directive_text_exclusive "platform:" "tags:") by done.
  by rewrite (directive_text_exclusive "platform:" "interval:").
Qed.

Lemma interval_not_tags line :
  is_Some (FindStringSubmatch intervalRegex line) →
  FindStringSubmatch tagsRegex line = None
  ∧ FindStringSubmatch platformRegex line = None.
Proof.
  intros Ht. apply (regex_text_is_Some "interval:" cls_digit) in Ht; [|done].
  rewrite tagsRegex_text, platformRegex_text.
  rewrite (directive_text_exclusive "interval:" "tags:") by done.
  by rewrite (directive_text_exclusive "interval:" "platform:").
Qed.

Lemma intervalRegex_digits line :
  FindStringSubmatch intervalRegex line
  = (fun d => [line; d]) <$> interval_digits line.
Proof.
  rewrite intervalRegex_text. unfold interval_digits.
  destruct (directive_text "interval:" line) as [v|]; [|done].
  rewrite spaces_then_digits. cbv zeta.
  by destruct (negb _ && _).
Qed.

(** X1.  The interval pattern is the plain test: marker, white space, key,
    white space, digits to the end of the line; the digits are the group. *)
Theorem interval_pattern_plain line :
  FindStringSubmatch intervalRegex line
  = (fun d => [line; d]) <$> interval_digits line.
Proof.
  rewrite intervalRegex_text. unfold interval_digits.
  destruct (directive_text "interval:" line) as [v|]; [|done].
  rewrite spaces_then_digits. cbv zeta.
  by destruct (negb _ && _).
Qed.

Lemma cls_space_byte c :
  cls_space c = true →
  c = "009"%char ∨ c = "010"%char ∨ c = "012"%char ∨ c = "013"%char
  ∨ c = " "%char.
Proof.
  unfold cls_space, byte_val. rewrite !orb_true_iff, !N.eqb_eq.
  intros H. rewrite <- (ascii_N_embedding c).
  destruct H as [[[[->| ->]| ->]| ->]| ->]; auto.
Qed.

Lemma mark_space_byte c s :
  cls_space c = true →
  mark_spaces 0 (String c s) = (c, true) :: mark_spaces 0 s.
Proof.
  intros Hc. by destruct (cls_space_byte c Hc) as [->|[->|[->|[->| ->]]]].
Qed.

Lemma Fields_space_byte c s :
  cls_space c = true → Fields (String c s) = Fields s.
Proof.
  intros Hc. unfold Fields. rewrite mark_space_byte by done.
  cbn [split_fields]. destruct (split_fields (mark_spaces 0 s)) as [cur rest].
  cbn [String.eqb]. done.
Qed.

Lemma TrimSpace_space_byte c s :
  cls_space c = true → TrimSpace (String c s) = TrimSpace s.
Proof.
  intros Hc. unfold TrimSpace. by rewrite mark_space_byte.
Qed.

Lemma Fields_skip_spaces s : Fields (skip_spaces s) = Fields s.
Proof.
  induction s as [|c s IH]; [done|]. cbn [skip_spaces].
  destruct (cls_space c) eqn:Hc; [|done]. by rewrite Fields_space_byte.
Qed.

Lemma TrimSpace_skip_spaces s : TrimSpace (skip_spaces s) = TrimSpace s.
Proof.
  induction s as [|c s IH]; [done|]. cbn [skip_spaces].
  destruct (cls_space c) eqn:Hc; [|done]. by rewrite TrimSpace_space_byte.
Qed.

Lemma last_byte_space s :
  s ≠ "" → skip_spaces s = "" →
  ∃ c, strings.drop (String.length s - 1) s = String c "" ∧ cls_space c = true.
Proof.
  induction s as [|c s IH]; [done|]. intros _. cbn [skip_spaces].
  destruct (cls_space c) eqn:Hc; [|done]. intros Hs.
  destruct s as [|c' s]; [by exists c|].
  destruct IH as (c0 & Hd & H0); [done|done|]. exists c0. split; [|done].
  rewrite <- Hd. cbn [String.length]. by rewrite !Nat.sub_succ, !Nat.sub_0_r.
Qed.

Lemma all_bytes_drop p n s :
  all_bytes p s = true → all_bytes p (strings.drop n s) = true.
Proof.
  revert s. induction n as [|n IH]; intros [|c s] H; try done.
  cbn [all_bytes] in H. apply andb_true_iff in H as [_ H]. by apply IH.
Qed.

Lemma all_bytes_skip_spaces p s :
  all_bytes p s = true → all_bytes p (skip_spaces s) = true.
Proof.
  induction s as [|c s IH]; [done|]. intros H. cbn [skip_spaces].
  destruct (cls_space c); [|done].
  cbn [all_bytes] in H. apply andb_true_iff in H as [_ H]. by apply IH.
Qed.

Lemma directive_text_bytes p key line v :
  all_bytes p line = true → directive_text key line = Some v →
  all_bytes p v = true.
Proof.
  intros Hp. unfold directive_text.
  destruct (strings.HasPrefix line "--"); [|done]. cbv zeta.
  destruct (strings.HasPrefix _ key); [|done]. intros Heq.
  apply (inj Some) in Heq. subst v.
  by apply all_bytes_drop, all_bytes_skip_spaces, all_bytes_drop.
Qed.

(** The group of a tags or platform line differs from the text behind the
    key by leading white space only. *)
Lemma capture_fields_trim v :
  all_bytes cls_any v = true → v ≠ "" →
  ∃ capture,
    greedy_star cls_space (match_here [group_plus cls_any]) v = Some [capture]
    ∧ Fields capture = Fields v ∧ TrimSpace capture = TrimSpace v.
Proof.
  intros Ha Hne. rewrite spaces_then_any by done.
  destruct v as [|c v]; [done|].
  destruct (skip_spaces (String c v)) as [|c' s'] eqn:Hs.
  - destruct (last_byte_space (String c v)) as (c0 & Hd & H0); [done|done|].
    eexists. split; [done|]. rewrite Hd.
    rewrite <- (Fields_skip_spaces (String c v)),
      <- (TrimSpace_skip_spaces (String c v)), Hs.
    by rewrite Fields_space_byte, TrimSpace_space_byte.
  - eexists. split; [done|]. rewrite <- Hs.
    by rewrite Fields_skip_spaces, TrimSpace_skip_spaces.
Qed.

End directive_syntax.

(** ** The record as a function of path, header and body *)

Section record.

Implicit Types st : scan_state.
Implicit Types line : string.
Implicit Types lines : list string.

Lemma directive_update_not_directive line q0 :
  is_directive line = false → directive_update line q0 = q0.
Proof.
  unfold is_directive, matches_regex, directive_update.
  by destruct (FindStringSubmatch tagsRegex line),
    (FindStringSubmatch platformRegex line),
    (FindStringSubmatch intervalRegex line).
Qed.

Lemma directive_update_set_Description line d q0 :
  directive_update line (set_Description d q0)
  = set_Description d (directive_update line q0).
Proof.
  unfold directive_update.
  by destruct (FindStringSubmatch tagsRegex line),
    (FindStringSubmatch platformRegex line),
    (FindStringSubmatch intervalRegex line).
Qed.

Lemma header_directives_set_Description lines d q0 :
  header_directives lines (set_Description d q0)
  = set_Description d (header_directives lines q0).
Proof.
  unfold header_directives. revert q0.
  induction (List.filter is_comment (header_lines lines)) as [|l ls IH];
    intros q0; [done|].
  cbn [fold_left]. by rewrite directive_update_set_Description, IH.
Qed.

Lemma header_directives_cons_comment line lines q0 :
  is_comment line = true →
  header_directives (line :: lines) q0
  = header_directives lines (directive_update line q0).
Proof.
  intros Hc. unfold header_directives. cbn [header_lines].
  assert (ends_header line = false) as ->
    by (unfold ends_header; rewrite Hc; apply andb_false_r).
  cbn [List.filter]. by rewrite Hc.
Qed.

(** The loop leaves the record as the directives of the header make it,
    but for the description. *)
Lemma scan_header_directives st lines :
  inHeader st = true →
  ∃ d, q (fold_left scan_line lines st)
       = set_Description d (header_directives lines (q st)).
Proof.
  revert st. induction lines as [|line lines IH]; intros st Hh.
  - exists (Description (q st)). cbn. by destruct (q st).
  - cbn [fold_left]. destruct (is_comment line) eqn:Hc.
    + rewrite header_directives_cons_comment by done.
      rewrite scan_line_header_comment by done.
      destruct (is_directive line) eqn:Hd; [by apply IH|].
      rewrite directive_update_not_directive by done.
      destruct (firstComment st && description_candidate line).
      * destruct (IH (mkScan (set_Description (comment_content line) (q st))
                        (sqlLines st) false true) eq_refl) as [d Hq].
        exists d. rewrite Hq. cbn [q].
        rewrite header_directives_set_Description.
        by destruct (header_directives lines (q st)).
      * by apply IH.
    + rewrite scan_line_header_other by done.
      unfold header_directives. cbn [header_lines].
      destruct (ends_header line) eqn:He.
      * rewrite scan_body by done. exists (Description (q st)).
        cbn. by destruct (q st).
      * cbn [List.filter]. rewrite Hc.
        apply (IH (mkScan (q st) (sqlLines st ++ [line]) (firstComment st)
                     (negb false))). done.
Qed.

Lemma directive_update_path_fields line q0 :
  Name (directive_update line q0) = Name q0
  ∧ Level (directive_update line q0) = Level q0
  ∧ Category (directive_update line q0) = Category q0
  ∧ Subcategory (directive_update line q0) = Subcategory q0.
Proof.
  unfold directive_update.
  by destruct (FindStringSubmatch tagsRegex line),
    (FindStringSubmatch platformRegex line),
    (FindStringSubmatch intervalRegex line).
Qed.

Lemma header_directives_path_fields lines q0 :
  Name (header_directives lines q0) = Name q0
  ∧ Level (header_directives lines q0) = Level q0
  ∧ Category (header_directives lines q0) = Category q0
  ∧ Subcategory (header_directives lines q0) = Subcategory q0.
Proof.
  unfold header_directives. revert q0.
  induction (List.filter is_comment (header_lines lines)) as [|l ls IH];
    intros q0; [done|].
  cbn [fold_left]. destruct (IH (directive_update l q0)) as (-> & -> & -> & ->).
  apply directive_update_path_fields.
Qed.

Lemma parseQuery_initial relPath category lines :
  parseQuery relPath category lines
  = let st := scan (initial_record relPath category) lines in
    let q4 := set_SQL (TrimSpace (strings.Join
                         (trim_leading_blank (sqlLines st)) nl)) (q st) in
    if String.eqb (Description q4) "" then set_Description (Name q4) q4
    else q4.
Proof.
  unfold parseQuery, initial_record, effective_filename, subcategory_of, scan.
  destruct (decode_filename _) as [level filename]. cbv zeta.
  by destruct (1 <? length (strings.Split relPath "/"))%nat.
Qed.

(** The whole record in closed form: name, level, category and subcategory
    come from the path, description, tags, platform and interval from the
    header, the query from the lines under the header. *)
Lemma parseQuery_closed_form relPath category lines :
  parseQuery relPath category lines
  = let q0 := initial_record relPath category in
    let hd := header_directives lines q0 in
    mkQuery (Name q0) (first_description (Name q0) lines)
      (TrimSpace (strings.Join (body_lines lines) nl))
      (Platform hd) (Tags hd) (Interval hd)
      (Level q0) category (Subcategory q0).
Proof.
  rewrite parseQuery_initial. cbv zeta. unfold scan.
  set (q0 := initial_record relPath category).
  set (st0 := mkScan q0 [] true true).
  destruct (scan_header_directives st0 lines eq_refl) as [d Hq].
  pose proof (scan_Description st0 lines eq_refl) as Hd.
  pose proof (scan_sqlLines st0 lines eq_refl) as Hs.
  subst st0. cbn [firstComment q sqlLines app] in Hd, Hs, Hq.
  rewrite Hs, trim_leading_blank_header.
  destruct (header_directives_path_fields lines q0) as (Hn & Hl & Hc & Hsub).
  rewrite Hq in Hd |- *. cbn [Description set_Description] in Hd.
  unfold first_description.
  destruct (header_directives lines q0) as [n de sq pl tg iv lv ca su] eqn:Hhd.
  cbn in Hn, Hl, Hc, Hsub. subst n lv ca su.
  cbn [set_Description set_SQL Description Name Platform Tags Interval].
  destruct (List.filter description_candidate (header_lines lines))
    as [|l rest] eqn:Hf.
  - subst d. cbn [Description initial_record q0].
    change (String.eqb "" "") with true. cbv iota.
    by cbn [set_Description Name Platform Tags Interval Level Subcategory].
  - pose proof (first_candidate_nonempty _ _ _ Hf) as Hne. subst d.
    apply String.eqb_neq in Hne. rewrite Hne. done.
Qed.

End record.

(** ** Directives and the fields they set *)

Section directive_fields.

Implicit Types line : string.
Implicit Types lines : list string.

(** X2.  On a line without a line feed (every line of the scanner is one), the
    tags pattern and the platform pattern match exactly when something
    follows the key; the tags are the fields of what follows and the
    platform is its trimmed text, normalized. *)
Theorem value_patterns_plain line :
  all_bytes cls_any line = true →
  tags_directive line = Fields <$> directive_value "tags:" line
  ∧ platform_directive line
    = (fun v => normalizePlatform (TrimSpace v))
        <$> directive_value "platform:" line.
Proof.
  intros Ha. unfold tags_directive, platform_directive, directive_value.
  rewrite tagsRegex_text, platformRegex_text. split.
  - destruct (directive_text "tags:" line) as [v|] eqn:Hv; [|done].
    pose proof (directive_text_bytes _ _ _ _ Ha Hv) as Hb.
    destruct (String.eqb_spec v "") as [->|Hne]; [done|].
    destruct (capture_fields_trim v Hb Hne) as (capture & -> & Hf & _).
    cbn [fmap option_fmap option_map submatch nth]. by rewrite Hf.
  - destruct (directive_text "platform:" line) as [v|] eqn:Hv; [|done].
    pose proof (directive_text_bytes _ _ _ _ Ha Hv) as Hb.
    destruct (String.eqb_spec v "") as [->|Hne]; [done|].
    destruct (capture_fields_trim v Hb Hne) as (capture & -> & _ & Ht).
    cbn [fmap option_fmap option_map submatch nth]. by rewrite Ht.
Qed.

Lemma value_patterns_plain_witness :
  tags_directive "--tags:   persistence  seldom"
  = Fields <$> directive_value "tags:" "--tags:   persistence  seldom".
Proof.
  exact (proj1 (value_patterns_plain "--tags:   persistence  seldom" eq_refl)).
Defined.

Lemma digits_value_nonneg s acc :
  all_bytes cls_digit s = true → 0 ≤ acc → 0 ≤ digits_value acc s.
Proof.
  revert acc. induction s as [|c s IH]; intros acc Hd Hacc; [done|].
  cbn [all_bytes] in Hd. apply andb_true_iff in Hd as [Hc Hd].
  cbn [digits_value]. apply IH; [done|].
  unfold cls_digit in Hc. apply andb_true_iff in Hc as [H1 _].
  apply N.leb_le in H1. unfold digit_val. lia.
Qed.

Lemma interval_digits_digits line d :
  interval_digits line = Some d → all_bytes cls_digit d = true.
Proof.
  unfold interval_digits. destruct (directive_text _ _) as [v|]; [|done].
  cbv zeta. destruct (negb _) ; [|done]. cbn [andb].
  destruct (all_bytes cls_digit (skip_spaces v)) eqn:Hd; [|done].
  by intros [= <-].
Qed.

Lemma interval_digits_comment line d :
  interval_digits line = Some d → is_comment line = true.
Proof.
  unfold interval_digits, directive_text, is_comment.
  by destruct (strings.HasPrefix line "--").
Qed.

(** X3.  An interval directive in the header sets the interval to its number
    when the number fits the 64-bit [int]; a larger number is dropped
    without a word and the interval keeps the value it had.  Either way the
    line is consumed: it is neither the description nor part of the body. *)
Theorem interval_directive_effect st line d :
  inHeader st = true → interval_digits line = Some d →
  0 ≤ digits_value 0 d
  ∧ scan_line st line
    = with_q (set_Interval (if digits_value 0 d <=? max_int
                            then digits_value 0 d else Interval (q st))) st.
Proof.
  intros Hh Hd. split.
  - apply digits_value_nonneg; [|done]. by eapply interval_digits_digits.
  - pose proof (intervalRegex_digits line) as Hm. rewrite Hd in Hm.
    cbn [fmap option_fmap option_map] in Hm.
    destruct (interval_not_tags line) as [Ht Hp]; [rewrite Hm; eauto|].
    rewrite scan_line_header_comment
      by (done || by eapply interval_digits_comment).
    unfold is_directive, matches_regex, directive_update.
    rewrite Ht, Hp, Hm. cbn [orb submatch nth]. done.
Qed.

Lemma interval_directive_effect_witness :
  scan_line (mkScan zeroQuery [] true true) "-- interval: 99999999999999999999"
  = with_q (set_Interval
              (if digits_value 0 "99999999999999999999" <=? max_int
               then digits_value 0 "99999999999999999999"
               else Interval (q (mkScan zeroQuery [] true true))))
      (mkScan zeroQuery [] true true).
Proof.
  exact (proj2 (interval_directive_effect (mkScan zeroQuery [] true true)
                  "-- interval: 99999999999999999999" "99999999999999999999"
                  eq_refl eq_refl)).
Defined.

Lemma directive_update_Tags line q0 :
  Tags (directive_update line q0) = default (Tags q0) (tags_directive line).
Proof.
  unfold directive_update, tags_directive.
  by destruct (FindStringSubmatch tagsRegex line),
    (FindStringSubmatch platformRegex line),
    (FindStringSubmatch intervalRegex line).
Qed.

Lemma directive_update_Platform line q0 :
  Platform (directive_update line q0)
  = default (Platform q0) (platform_directive line).
Proof.
  unfold directive_update, platform_directive.
  destruct (FindStringSubmatch tagsRegex line) as [m|] eqn:Ht.
  - destruct (tags_not_platform line) as [-> _]; [rewrite Ht; eauto|]. done.
  - by destruct (FindStringSubmatch platformRegex line),
      (FindStringSubmatch intervalRegex line).
Qed.

(** A field that every step either keeps or replaces ends with the value
    of the last step that replaces it. *)
Lemma fold_last {A B} (upd : string → A → A) (f : A → B)
    (g : string → option B) (ls : list string) (a : A) :
  (∀ l a, f (upd l a) = default (f a) (g l)) →
  f (fold_left (fun a l => upd l a) ls a) = default (f a) (last (omap g ls)).
Proof.
  intros Hupd. revert a. induction ls as [|l ls IH]; intros a; [done|].
  cbn [fold_left omap list_omap]. rewrite IH, Hupd.
  destruct (g l) as [b|]; [|done]. cbn [default].
  destruct (omap g ls) as [|b' bs] eqn:Ho; [done|].
  rewrite (last_cons b (b' :: bs)). by destruct (last (b' :: bs)).
Qed.

(** X4.  When the header repeats a tags or platform directive, the last one
    wins; without one the field stays empty. *)
Theorem last_directive_wins relPath category lines :
  Tags (parseQuery relPath category lines)
  = default [] (last (omap tags_directive (header_comments lines)))
  ∧ Platform (parseQuery relPath category lines)
    = default "" (last (omap platform_directive (header_comments lines))).
Proof.
  rewrite parseQuery_closed_form. cbv zeta. cbn [Tags Platform].
  unfold header_directives, header_comments. split.
  - by rewrite (fold_last directive_update Tags tags_directive)
      by apply directive_update_Tags.
  - by rewrite (fold_last directive_update Platform platform_directive)
      by apply directive_update_Platform.
Qed.

Lemma normalizePlatform_values p : normalizePlatform p ∈ platform_values.
Proof.
  unfold normalizePlatform, platform_values. cbv zeta.
  repeat case_match; set_solver.
Qed.

(** X5.  The platform of a record is one of five strings, whatever the file
    holds, and none of them needs quoting: the platform line, which is
    written without escaping, is always a plain scalar. *)
Theorem platform_is_enumerated relPath category lines :
  Platform (parseQuery relPath category lines) ∈ platform_values
  ∧ escapeYAML (Platform (parseQuery relPath category lines))
    = Platform (parseQuery relPath category lines).
Proof.
  assert (Platform (parseQuery relPath category lines) ∈ platform_values) as Hin.
  { rewrite parseQuery_closed_form. cbv zeta. cbn [Platform].
    unfold header_directives.
    assert (Platform (initial_record relPath category) ∈ platform_values) as H0
      by (unfold platform_values; left).
    revert H0. generalize (initial_record relPath category).
    induction (List.filter is_comment (header_lines lines)) as [|l ls IH];
      intros q0 H0; [done|].
    cbn [fold_left]. apply IH. rewrite directive_update_Platform.
    unfold platform_directive.
    destruct (FindStringSubmatch platformRegex l); [|done].
    apply normalizePlatform_values. }
  split; [done|]. unfold platform_values in Hin.
  rewrite !elem_of_cons, elem_of_nil in Hin.
  by destruct Hin as [->|[->|[->|[->|[->|[]]]]]].
Qed.

End directive_fields.

(** ** Invariants of the record *)

Section record_invariants.

Implicit Types line : string.
Implicit Types lines : list string.

Lemma directive_update_Interval line q0 :
  Interval (directive_update line q0)
  = match interval_digits line with
    | Some d => if digits_value 0 d <=? max_int then digits_value 0 d
                else Interval q0
    | None => Interval q0
    end.
Proof.
  unfold directive_update. pose proof (intervalRegex_digits line) as Hm.
  destruct (interval_digits line) as [d|].
  - cbn [fmap option_fmap option_map] in Hm.
    destruct (interval_not_tags line) as [-> ->]; [rewrite Hm; eauto|].
    by rewrite Hm.
  - cbn [fmap option_fmap option_map] in Hm. rewrite Hm.
    by destruct (FindStringSubmatch tagsRegex line),
      (FindStringSubmatch platformRegex line).
Qed.

Lemma match_here_group_one cls r s :
  match_here (group_one cls :: r) s
  = match s with
    | String c s' =>
        if cls c then cons (String c "") <$> match_here r s' else None
    | EmptyString => None
    end.
Proof. reflexivity. Qed.

Lemma decode_filename_level filename :
  0 ≤ (decode_filename filename).1 ≤ 9.
Proof.
  unfold decode_filename, FindStringSubmatch, levelRegex.
  rewrite match_here_group_one. destruct filename as [|c s]; [done|].
  destruct (cls_digit c) eqn:Hc; [|done].
  destruct (match_here _ s) as [groups|]; [|done].
  cbn [fmap option_fmap option_map submatch nth fst].
  unfold Sscanf_d. cbn [digits_value].
  unfold cls_digit in Hc. apply andb_true_iff in Hc as [H1 H2].
  apply N.leb_le in H1, H2. unfold digit_val, max_int.
  destruct (Z.leb_spec (0 * 10 + (Z.of_N (byte_val c) - 48)) (2 ^ 63 - 1)); lia.
Qed.

(** X6.  The interval of a record lies between 0 and the largest [int], and its
    level between 0 and 9, whatever the file and its name. *)
Theorem numeric_fields_bounded relPath category lines :
  0 ≤ Interval (parseQuery relPath category lines) ≤ max_int
  ∧ 0 ≤ Level (parseQuery relPath category lines) ≤ 9.
Proof.
  rewrite parseQuery_closed_form. cbv zeta. cbn [Interval Level]. split.
  - unfold header_directives.
    assert (0 ≤ Interval (initial_record relPath category) ≤ max_int) as H0
      by (cbn; unfold max_int; lia).
    revert H0. generalize (initial_record relPath category).
    induction (List.filter is_comment (header_lines lines)) as [|l ls IH];
      intros q0 H0; [done|].
    cbn [fold_left]. apply IH. rewrite directive_update_Interval.
    destruct (interval_digits l) as [d|] eqn:Hd; [|done].
    destruct (Z.leb_spec (digits_value 0 d) max_int); [|done].
    split; [|done]. apply digits_value_nonneg; [|done].
    by eapply interval_digits_digits.
  - apply decode_filename_level.
Qed.

(** X7.  Everything but the query text is decided by the header: two files
    with the same lines up to the first line of SQL give records that
    differ in the query at most.  A directive written under the first line
    of SQL therefore changes no field. *)
Theorem fields_from_header_only relPath category lines lines' :
  header_lines lines = header_lines lines' →
  set_SQL (SQL (parseQuery relPath category lines'))
    (parseQuery relPath category lines)
  = parseQuery relPath category lines'.
Proof.
  intros Hh. rewrite !parseQuery_closed_form. cbv zeta.
  unfold header_directives, first_description. rewrite Hh. done.
Qed.

Lemma fields_from_header_only_witness :
  set_SQL (SQL (parseQuery "a.sql" "policy"
                  ["-- tags: one"; "SELECT 1;"; "-- tags: two"]))
    (parseQuery "a.sql" "policy" ["-- tags: one"; "SELECT 2;"])
  = parseQuery "a.sql" "policy" ["-- tags: one"; "SELECT 1;"; "-- tags: two"].
Proof.
  exact (fields_from_header_only "a.sql" "policy"
           ["-- tags: one"; "SELECT 2;"]
           ["-- tags: one"; "SELECT 1;"; "-- tags: two"] eq_refl).
Defined.

Lemma candidate_is_comment lines :
  List.filter is_comment lines = [] →
  List.filter description_candidate lines = [].
Proof.
  induction lines as [|l ls IH]; [done|]. cbn [List.filter].
  destruct (is_comment l) eqn:Hc; [done|]. intros H.
  unfold description_candidate. rewrite Hc. cbn [andb]. by apply IH.
Qed.

(** X8.  A file whose header has no comment line (an empty file, or one that
    starts with SQL or blank lines) gives a record without tags, platform
    and interval, described by its name. *)
Theorem no_header_comment_defaults relPath category lines :
  header_comments lines = [] →
  Tags (parseQuery relPath category lines) = []
  ∧ Platform (parseQuery relPath category lines) = ""
  ∧ Interval (parseQuery relPath category lines) = 0
  ∧ Description (parseQuery relPath category lines)
    = Name (parseQuery relPath category lines).
Proof.
  unfold header_comments. intros Hc. rewrite parseQuery_closed_form. cbv zeta.
  unfold header_directives, first_description.
  rewrite Hc, (candidate_is_comment _ Hc). done.
Qed.

Lemma no_header_comment_defaults_witness :
  Tags (parseQuery "a.sql" "policy" [""; "  "; "SELECT 1;"; "-- tags: x"]) = []
  ∧ Platform (parseQuery "a.sql" "policy" [""; "  "; "SELECT 1;"; "-- tags: x"])
    = ""
  ∧ Interval (parseQuery "a.sql" "policy" [""; "  "; "SELECT 1;"; "-- tags: x"])
    = 0
  ∧ Description (parseQuery "a.sql" "policy"
                   [""; "  "; "SELECT 1;"; "-- tags: x"])
    = Name (parseQuery "a.sql" "policy" [""; "  "; "SELECT 1;"; "-- tags: x"]).
Proof.
  exact (no_header_comment_defaults "a.sql" "policy"
           [""; "  "; "SELECT 1;"; "-- tags: x"] eq_refl).
Defined.

Lemma needs_quoting_bracket s : needs_quoting (String "[" s) = true.
Proof. reflexivity. Qed.

Lemma generateName_bracket filename category subcategory :
  ∃ rest, generateName filename category subcategory = String "[" rest.
Proof.
  rewrite generateName_unfold. unfold name_prefix.
  destruct (String.eqb subcategory ""); rewrite !app_cons; eauto.
Qed.

(** X9.  The name of a record begins with a bracket, so the name is never
    empty and is always written between double quotes; the description is
    never empty either; and the name, category, subcategory and level do
    not depend on what the file holds. *)
Theorem name_and_description_present relPath category lines :
  (∃ rest, Name (parseQuery relPath category lines) = String "[" rest)
  ∧ escapeYAML (Name (parseQuery relPath category lines))
    = quoted (Name (parseQuery relPath category lines))
  ∧ Description (parseQuery relPath category lines) ≠ ""
  ∧ ∀ lines',
      Name (parseQuery relPath category lines')
      = Name (parseQuery relPath category lines)
      ∧ Category (parseQuery relPath category lines') = category
      ∧ Subcategory (parseQuery relPath category lines')
        = Subcategory (parseQuery relPath category lines)
      ∧ Level (parseQuery relPath category lines')
        = Level (parseQuery relPath category lines).
Proof.
  rewrite !parseQuery_closed_form. cbv zeta.
  cbn [Name Description initial_record].
  destruct (generateName_bracket (effective_filename relPath) category
              (subcategory_of relPath)) as [rest Hn].
  split; [eauto|]. split; [|split].
  - rewrite escapeYAML_cases, Hn. by rewrite needs_quoting_bracket.
  - unfold first_description.
    destruct (List.filter description_candidate (header_lines lines))
      as [|l ls] eqn:Hf.
    + by rewrite Hn.
    + by eapply first_candidate_nonempty.
  - intros lines'. by rewrite parseQuery_closed_form.
Qed.

End record_invariants.

(** ** Paths and file names *)

Section paths.

Implicit Types s t : string.
Implicit Types c : ascii.

Lemma Split_cons c a s :
  strings.Split (String a s) (String c "")
  = if Ascii.eqb a c then "" :: strings.Split s (String c "")
    else match strings.Split s (String c "") with
         | piece :: pieces => String a piece :: pieces
         | [] => [String a ""]
         end.
Proof.
  unfold strings.Split. cbn [strings.split_from strings.HasPrefix].
  rewrite andb_true_r. by destruct (Ascii.eqb a c).
Qed.

Lemma Split_nonempty c s : strings.Split s (String c "") ≠ [].
Proof.
  destruct s as [|a s]; [done|]. rewrite Split_cons.
  destruct (Ascii.eqb a c); [done|]. by destruct (strings.Split s _).
Qed.

Lemma Join_cons_byte a piece pieces sep :
  strings.Join (String a piece :: pieces) sep
  = String a (strings.Join (piece :: pieces) sep).
Proof. by destruct pieces. Qed.

Lemma Join_cons2 e e2 rest sep :
  strings.Join (e :: e2 :: rest) sep
  = e +:+ sep +:+ strings.Join (e2 :: rest) sep.
Proof. reflexivity. Qed.

(** Splitting loses nothing: joining the pieces gives the string back. *)
Lemma Join_Split c s :
  strings.Join (strings.Split s (String c "")) (String c "") = s.
Proof.
  induction s as [|a s IH]; [done|]. rewrite Split_cons.
  pose proof (Split_nonempty c s) as Hne.
  destruct (strings.Split s (String c "")) as [|piece pieces]; [done|].
  destruct (Ascii.eqb_spec a c) as [->|_].
  - by rewrite Join_cons2, IH.
  - by rewrite Join_cons_byte, IH.
Qed.

Lemma Split_no_sep c s :
  mem_byte c s = false → strings.Split s (String c "") = [s].
Proof.
  unfold mem_byte. induction s as [|a s IH]; [done|].
  cbn [any_byte]. intros H. apply orb_false_iff in H as [Ha Hs].
  rewrite Split_cons, IH by done. rewrite Ascii.eqb_sym in Ha. by rewrite Ha.
Qed.

Lemma Split_app_sep c s t :
  mem_byte c s = false →
  strings.Split (s +:+ String c t) (String c "")
  = s :: strings.Split t (String c "").
Proof.
  unfold mem_byte. induction s as [|a s IH].
  - intros _. rewrite app_empty_l, Split_cons. by rewrite Ascii.eqb_refl.
  - cbn [any_byte]. intros H. apply orb_false_iff in H as [Ha Hs].
    rewrite app_cons, Split_cons, IH by done.
    rewrite Ascii.eqb_sym in Ha. by rewrite Ha.
Qed.

Lemma Split_Join c seg segs :
  forallb (fun s => negb (mem_byte c s)) (seg :: segs) = true →
  strings.Split (strings.Join (seg :: segs) (String c "")) (String c "")
  = seg :: segs.
Proof.
  revert seg. induction segs as [|seg' segs IH]; intros seg H.
  - cbn [forallb] in H. rewrite andb_true_r in H.
    apply negb_true_iff in H. by apply Split_no_sep.
  - cbn [forallb] in H. apply andb_true_iff in H as [H1 H2].
    apply negb_true_iff in H1. rewrite Join_cons2.
    rewrite app_cons, app_empty_l, Split_app_sep by done.
    by rewrite IH.
Qed.

Lemma greedy_plus_before_suffix rest :
  rest ≠ "" → all_bytes cls_any rest = true →
  greedy_plus cls_any (match_here [lit ".sql"]) (rest +:+ ".sql")
  = Some (rest, []).
Proof.
  induction rest as [|c rest IH]; [done|]. intros _ Ha.
  cbn [all_bytes] in Ha. apply andb_true_iff in Ha as [Hc Ha].
  rewrite app_cons. cbn [greedy_plus]. rewrite Hc.
  destruct rest as [|c' rest]; [done|].
  by rewrite IH.
Qed.

(** X10.  The level prefix: a name of the form digit, hyphen, rest, [.sql] gives
    the digit as level and the name without the prefix; a name that does
    not begin with a digit and a hyphen gives level 0 and is kept. *)
Theorem level_prefix_decoded :
  (∀ d rest,
     cls_digit d = true → rest ≠ "" → all_bytes cls_any rest = true →
     decode_filename (String d ("-" +:+ rest +:+ ".sql"))
     = (digit_val d, rest +:+ ".sql"))
  ∧ (∀ filename,
       (∀ d s, filename = String d (String "-" s) → cls_digit d = false) →
       decode_filename filename = (0, filename)).
Proof.
  split.
  - intros d rest Hd Hne Ha.
    unfold decode_filename, FindStringSubmatch, levelRegex.
    rewrite match_here_group_one, Hd, app_cons, app_empty_l, match_here_lit.
    cbn [strings.HasPrefix Ascii.eqb Bool.eqb andb String.length strings.drop].
    change (match_here [group_plus cls_any; lit ".sql"] (rest +:+ ".sql"))
      with ((fun mr : string * list string => mr.1 :: mr.2)
              <$> greedy_plus cls_any (match_here [lit ".sql"]) (rest +:+ ".sql")).
    rewrite greedy_plus_before_suffix by done.
    cbn [fmap option_fmap option_map submatch nth fst snd].
    f_equal. unfold Sscanf_d. cbn [digits_value].
    unfold cls_digit in Hd. apply andb_true_iff in Hd as [H1 H2].
    apply N.leb_le in H1, H2. unfold digit_val, max_int.
    destruct (Z.leb_spec (0 * 10 + (Z.of_N (byte_val d) - 48)) (2 ^ 63 - 1)); lia.
  - intros filename Hf.
    unfold decode_filename, FindStringSubmatch, levelRegex.
    rewrite match_here_group_one. destruct filename as [|d s]; [done|].
    destruct (cls_digit d) eqn:Hd; [|done].
    rewrite match_here_lit. destruct s as [|c s]; [done|].
    cbn [strings.HasPrefix]. destruct (Ascii.eqb_spec c "-") as [->|_]; [|done].
    specialize (Hf d s eq_refl). congruence.
Qed.

Lemma level_prefix_decoded_witness :
  decode_filename (String "2" ("-" +:+ "unusual-child" +:+ ".sql"))
  = (digit_val "2", "unusual-child" +:+ ".sql").
Proof.
  refine (proj1 level_prefix_decoded "2"%char "unusual-child" eq_refl _ eq_refl).
  discriminate.
Defined.

Lemma last_app_singleton {A} (l : list A) (x d : A) : List.last (l ++ [x]) d = x.
Proof. apply last_last. Qed.

(** X11.  The subcategory is the first directory of the path below the category
    directory, however deep the file lies, and empty for a file directly
    in it; the name and the level are taken from the last segment. *)
Theorem path_segments_decoded dirs file category lines :
  forallb (fun s => negb (mem_byte "/" s)) (dirs ++ [file]) = true →
  Subcategory (parseQuery (strings.Join (dirs ++ [file]) "/") category lines)
  = match dirs with [] => "" | d :: _ => d end
  ∧ Level (parseQuery (strings.Join (dirs ++ [file]) "/") category lines)
    = (decode_filename file).1
  ∧ Name (parseQuery (strings.Join (dirs ++ [file]) "/") category lines)
    = generateName (decode_filename file).2 category
        match dirs with [] => "" | d :: _ => d end.
Proof.
  intros Hs. rewrite parseQuery_closed_form. cbv zeta.
  cbn [Subcategory Level Name initial_record].
  unfold initial_record, effective_filename, subcategory_of.
  assert (strings.Split (strings.Join (dirs ++ [file]) "/") "/" = dirs ++ [file])
    as ->.
  { destruct dirs as [|d dirs]; by apply Split_Join. }
  rewrite last_app_singleton.
  destruct dirs as [|d dirs]; [done|].
  cbn [app length]. rewrite length_app. cbn [length].
  replace (1 <? S (length dirs + 1))%nat with true
    by (symmetry; apply Nat.ltb_lt; lia).
  done.
Qed.

Lemma path_segments_decoded_witness :
  Subcategory (parseQuery (strings.Join (["c2"; "linux"] ++ ["1-beacon.sql"]) "/")
                 "detection" [])
  = "c2".
Proof.
  exact (proj1 (path_segments_decoded ["c2"; "linux"] "1-beacon.sql"
                  "detection" [] eq_refl)).
Defined.

End paths.

(** ** More on scalars and documents *)

Section scalars.

Implicit Types s t : string.

Lemma unescape_escape s : unescape_each (escape_each s) = s.
Proof.
  induction s as [|c s IH]; [done|].
  cbn [escape_each]. unfold escape_byte.
  destruct (Ascii.eqb c backslash) eqn:Hb.
  - apply Ascii.eqb_eq in Hb. subst c. rewrite !app_cons, app_empty_l.
    cbn [unescape_each]. rewrite Ascii.eqb_refl. by rewrite IH.
  - destruct (Ascii.eqb c dquote) eqn:Hq.
    + apply Ascii.eqb_eq in Hq. subst c. rewrite !app_cons, app_empty_l.
      cbn [unescape_each]. rewrite Ascii.eqb_refl. by rewrite IH.
    + rewrite app_cons, app_empty_l. cbn [unescape_each]. by rewrite Hb, IH.
Qed.

Lemma bytes_app s t : bytes (s +:+ t) = bytes s ++ bytes t.
Proof.
  unfold bytes. induction s as [|c s IH]; [done|]. rewrite app_cons.
  cbn [String.list_ascii_of_string app]. by rewrite IH.
Qed.

Lemma bytes_inj s t : bytes s = bytes t → s = t.
Proof.
  intros H. rewrite <- (String.string_of_list_ascii_of_string s),
    <- (String.string_of_list_ascii_of_string t). unfold bytes in H.
  by rewrite H.
Qed.

Lemma quoted_inj s t : quoted s = quoted t → s = t.
Proof.
  unfold quoted. rewrite !app_cons, !app_empty_l. intros [= H].
  apply (f_equal bytes) in H. rewrite !bytes_app in H.
  apply app_inv_tail in H. apply bytes_inj in H.
  by rewrite <- (unescape_escape s), <- (unescape_escape t), H.
Qed.

Lemma needs_quoting_dquote s : needs_quoting (String dquote s) = true.
Proof. reflexivity. Qed.

(** X12.  Escaping loses nothing: two different strings never give the same
    scalar, and the text between the quotes of a quoted scalar reads back
    as the string. *)
Theorem escapeYAML_injective :
  (∀ s t, escapeYAML s = escapeYAML t → s = t)
  ∧ (∀ s, special s →
          escapeYAML s = String dquote (escape_each s +:+ String dquote "")
          ∧ unescape_each (escape_each s) = s).
Proof.
  split.
  - intros s t. rewrite !escapeYAML_cases.
    destruct (needs_quoting s) eqn:Hs, (needs_quoting t) eqn:Ht; try done.
    + apply quoted_inj.
    + unfold quoted. rewrite app_cons, app_empty_l. intros <-.
      by rewrite needs_quoting_dquote in Ht.
    + unfold quoted. rewrite app_cons, app_empty_l. intros ->.
      by rewrite needs_quoting_dquote in Hs.
  - intros s Hs. apply needs_quoting_special in Hs.
    rewrite escapeYAML_cases, Hs. split; [done|apply unescape_escape].
Qed.

Lemma Join_app xs ys x y sep :
  strings.Join ((x :: xs) ++ (y :: ys)) sep
  = strings.Join (x :: xs) sep +:+ sep +:+ strings.Join (y :: ys) sep.
Proof.
  revert x. induction xs as [|x' xs IH]; intros x; [done|].
  cbn [app]. rewrite !Join_cons2. cbn [app] in IH. rewrite IH.
  by rewrite !app_assoc_str.
Qed.

Lemma document_concat (groups : list (list Query)) o :
  document (concat groups) o
  = strings.Join
      (map (fun g => document g o)
         (List.filter (fun g => negb (length g =? 0)%nat) groups))
      ("---" +:+ nl).
Proof.
  induction groups as [|g groups IH]; [done|].
  cbn [concat List.filter]. destruct g as [|q0 g].
  - cbn [length Nat.eqb negb app]. exact IH.
  - cbn [length Nat.eqb negb map].
    destruct (List.filter _ groups) as [|g' gs] eqn:Hf.
    + cbn [map] in *.
      assert (concat groups = []) as ->.
      { clear IH. induction groups as [|h groups IHg]; [done|].
        cbn [List.filter] in Hf. destruct h; [|done]. cbn. by apply IHg. }
      by rewrite app_nil_r.
    + assert (∃ q1 rest, concat groups = q1 :: rest) as (q1 & rest & Hc).
      { clear IH. induction groups as [|h groups IHg]; [done|].
        cbn [List.filter] in Hf. destruct h as [|q1 h]; [by apply IHg|].
        cbn. eauto. }
      rewrite Hc in *. unfold document in *. rewrite map_app. cbn [map].
      rewrite Join_app. cbn [map] in IH. rewrite IH. by rewrite Join_cons2.
Qed.

(** X13.  Documents compose.  The loop over the records of a file writes their
    document, and the document of groups of records put one after the
    other is the documents of the non-empty groups joined by the boundary
    line: for records that come grouped by category the combined file
    holds the per-category documents in a row. *)
Theorem document_of_groups (groups : list (list Query)) o w (fs : files) :
  (∀ g, write_records w 0 g o (<[w := ""]> fs) = <[w := document g o]> fs)
  ∧ write_records w 0 (concat groups) o (<[w := ""]> fs)
    = <[w := strings.Join
              (map (fun g => document g o)
                 (List.filter (fun g => negb (length g =? 0)%nat) groups))
              ("---" +:+ nl)]> fs.
Proof.
  assert (∀ g, write_records w 0 g o (<[w := ""]> fs)
               = <[w := document g o]> fs) as Hw.
  { intros g. by rewrite write_records_appends, records_from_0, app_empty_l. }
  split; [done|]. by rewrite Hw, document_concat.
Qed.

End scalars.

Lemma escapeYAML_injective_witness :
  escapeYAML "a:b" = String dquote (escape_each "a:b" +:+ String dquote "")
  ∧ unescape_each (escape_each "a:b") = "a:b".
Proof.
  exact (proj2 escapeYAML_injective "a:b"
           (proj1 (needs_quoting_special "a:b") eq_refl)).
Defined.

(** ** Groups *)

Section groups.

Implicit Types queries : list Query.

Lemma by_category_cons c q0 queries :
  by_category c (q0 :: queries)
  = if decide (Category q0 = c) then q0 :: by_category c queries
    else by_category c queries.
Proof. unfold by_category. by rewrite filter_cons. Qed.

(** X14.  Grouping is a partition: the group under a key holds exactly the
    records of that category in their original order, the keys are the
    three categories and the categories that occur, and for records of the
    three categories the three groups together hold every record once. *)
Theorem groups_partition queries :
  (∀ c l, group_queries queries !! c = Some l → l = by_category c queries)
  ∧ (∀ c, c ∈ dom (group_queries queries)
          ↔ c ∈ categories ∨ ∃ q0, q0 ∈ queries ∧ Category q0 = c)
  ∧ (known_records queries = true →
     by_category "detection" queries ++ by_category "policy" queries
     ++ by_category "incident_response" queries ≡ₚ queries).
Proof.
  split; [|split].
  - intros c l Hl. rewrite <- (group_queries_default queries c). by rewrite Hl.
  - intros c. rewrite elem_of_dom. unfold group_queries.
    rewrite group_fold_lookup, initial_groups_lookup.
    assert (c ∈ categories ↔ known_category c = true) as ->.
    { unfold categories, known_category.
      rewrite !elem_of_cons, elem_of_nil, !orb_true_iff, !String.eqb_eq. tauto. }
    destruct (by_category c queries) as [|q0 l] eqn:Hb.
    + split.
      * destruct (known_category c); [by left|]. by intros [? ?].
      * intros [->|(q0 & Hin & Hc)]; [by eauto|].
        assert (q0 ∈ by_category c queries) as Hq
          by (by apply list_elem_of_filter).
        rewrite Hb in Hq. by apply elem_of_nil in Hq.
    + split; [|by eauto]. intros _. right. exists q0.
      assert (q0 ∈ by_category c queries) as Hq by (rewrite Hb; left).
      apply list_elem_of_filter in Hq as [Hc Hin]. done.
  - intros Hk. induction queries as [|q0 queries IH]; [done|].
    cbn [known_records forallb] in Hk. apply andb_true_iff in Hk as [Hq Hk].
    specialize (IH Hk). rewrite !by_category_cons.
    unfold known_category in Hq. rewrite !orb_true_iff, !String.eqb_eq in Hq.
    destruct Hq as [[Hq|Hq]|Hq]; rewrite Hq;
      repeat (destruct (decide _) as [?|?]; try done).
    + cbn [app]. by constructor.
    + rewrite <- app_comm_cons, <- Permutation_middle. by constructor.
    + rewrite (app_assoc _ _ (q0 :: _)), <- Permutation_middle.
      rewrite <- app_assoc. by constructor.
Qed.

Lemma groups_partition_witness :
  by_category "detection" [sample_incident; sample_detection]
  ++ by_category "policy" [sample_incident; sample_detection]
  ++ by_category "incident_response" [sample_incident; sample_detection]
  ≡ₚ [sample_incident; sample_detection].
Proof.
  exact (proj2 (proj2 (groups_partition [sample_incident; sample_detection]))
           eq_refl).
Defined.

End groups.

(** ** The writer when files cannot be created *)

Section failures.

Implicit Types fs : files.
Implicit Types creatable : string → bool.

Lemma write_records_other w i qs o fs name :
  name ≠ w → write_records w i qs o fs !! name = fs !! name.
Proof.
  intros Hne. revert i fs. induction qs as [|q0 qs IH]; intros i fs; [done|].
  cbn [write_records]. rewrite IH, writeQueryYAML_appends.
  rewrite lookup_alter_ne by done.
  destruct (0 <? i)%nat; [|done]. unfold WriteString.
  by rewrite lookup_alter_ne.
Qed.

Lemma write_categories_other creatable groups order fs name :
  name ∉ map category_file order →
  (write_categories creatable groups order fs).1 !! name = fs !! name.
Proof.
  revert fs. induction order as [|c order IH]; intros fs Hn; [done|].
  cbn [map] in Hn. apply not_elem_of_cons in Hn as [Hc Hn].
  cbn [write_categories]. destruct (length _ =? 0)%nat; [by apply IH|].
  unfold Create. destruct (creatable (category_file c)); [|done].
  rewrite IH by done. rewrite write_records_other by done.
  by rewrite lookup_insert_ne.
Qed.

Lemma write_categories_failed creatable groups order fs f :
  (write_categories creatable groups order fs).2 = CreateFailed f →
  creatable f = false ∧ f ∈ map category_file order.
Proof.
  revert fs. induction order as [|c order IH]; intros fs; [done|].
  cbn [write_categories map]. destruct (length _ =? 0)%nat.
  - intros H. destruct (IH _ H) as [H1 H2]. split; [done|by right].
  - unfold Create. destruct (creatable (category_file c)) eqn:Hc.
    + intros H. destruct (IH _ H) as [H1 H2]. split; [done|by right].
    + cbn. intros [= <-]. split; [done|left].
Qed.

Lemma write_categories_ext creatable creatable' groups order fs :
  (∀ c, c ∈ order → creatable (category_file c) = creatable' (category_file c)) →
  write_categories creatable groups order fs
  = write_categories creatable' groups order fs.
Proof.
  revert fs. induction order as [|c order IH]; intros fs Hc; [done|].
  cbn [write_categories]. unfold Create.
  rewrite <- (Hc c) by left.
  destruct (length _ =? 0)%nat; [apply IH; intros; apply Hc; by right|].
  destruct (creatable (category_file c)); [|done].
  apply IH. intros. apply Hc. by right.
Qed.

(** X15.  The writer touches no file but the ones it names: whatever the
    records, the order of the loop and the files that can or cannot be
    created, every other file of the directory is as it was. *)
Theorem other_files_untouched creatable order queries fs name :
  name ∉ output_names order →
  (writeFleetYAML creatable order queries fs).1 !! name = fs !! name.
Proof.
  unfold output_names. intros Hn.
  apply not_elem_of_cons in Hn as [Hall Hn].
  apply not_elem_of_cons in Hn as [H5 Hn].
  unfold writeFleetYAML.
  pose proof (write_categories_other creatable (group_queries queries)
                order fs name Hn) as Hwc.
  destruct (write_categories _ _ _ _) as [fs1 []]; [|done].
  cbn [fst] in Hwc.
  destruct (0 <? length _)%nat.
  - unfold Create.
    destruct (creatable "chainguard-detection-5min.yml"); [|done].
    destruct (creatable "chainguard-all.yml"); cbn [fst].
    + rewrite write_records_other, lookup_insert_ne by done.
      by rewrite write_records_other, lookup_insert_ne by done.
    + by rewrite write_records_other, lookup_insert_ne by done.
  - unfold Create. destruct (creatable "chainguard-all.yml"); cbn [fst]; [|done].
    by rewrite write_records_other, lookup_insert_ne by done.
Qed.

Lemma other_files_untouched_witness :
  (writeFleetYAML always_creatable categories [sample_detection]
     (<["README.md" := "notes"]> ∅)).1 !! "README.md"
  = (<["README.md" := "notes"]> ∅ : files) !! "README.md".
Proof.
  refine (other_files_untouched always_creatable categories [sample_detection]
            (<["README.md" := "notes"]> ∅) "README.md" _).
  apply (bool_decide_unpack _). vm_compute. exact I.
Defined.

(** X16.  The error of the writer names a file that could not be created, one
    of the files the writer may create; and when all of those can be
    created the writer ends without error. *)
Theorem create_failure_reported creatable order queries fs :
  (∀ f, (writeFleetYAML creatable order queries fs).2 = CreateFailed f →
        creatable f = false ∧ f ∈ output_names order)
  ∧ ((∀ f, f ∈ output_names order → creatable f = true) →
     (writeFleetYAML creatable order queries fs).2 = Ok).
Proof.
  assert (∀ f, (writeFleetYAML creatable order queries fs).2 = CreateFailed f →
               creatable f = false ∧ f ∈ output_names order) as Hfail.
  { intros f. unfold writeFleetYAML, output_names.
    pose proof (write_categories_failed creatable (group_queries queries)
                  order fs f) as Hwc.
    destruct (write_categories _ _ _ _) as [fs1 [|f1]].
    - destruct (0 <? length _)%nat.
      + unfold Create.
        destruct (creatable "chainguard-detection-5min.yml") eqn:H5.
        * destruct (creatable "chainguard-all.yml") eqn:Ha; [done|].
          cbn. intros [= <-]. split; [done|left].
        * cbn. intros [= <-]. split; [done|right; left].
      + unfold Create. destruct (creatable "chainguard-all.yml") eqn:Ha; [done|].
        cbn. intros [= <-]. split; [done|left].
    - cbn. intros H. destruct (Hwc H) as [H1 H2]. split; [done|].
      by do 2 right. }
  split; [done|]. intros Hc.
  destruct ((writeFleetYAML creatable order queries fs).2) as [|f] eqn:Ho;
    [done|].
  destruct (Hfail f eq_refl) as [H1 H2]. rewrite Hc in H1; done.
Qed.

Lemma create_failure_reported_witness :
  (writeFleetYAML always_creatable categories [sample_detection] ∅).2 = Ok.
Proof.
  exact (proj2 (create_failure_reported always_creatable categories
                  [sample_detection] ∅) (fun f _ => eq_refl)).
Defined.

(** X17.  No cleanup on failure: when only the combined file cannot be created,
    the per-category documents and the 5-minute document are written all
    the same and the error names the combined file. *)
Theorem combined_failure_keeps_documents creatable order queries fs :
  known_records queries = true → range_order queries order →
  (∀ f, f ∈ output_names order → creatable f = negb (String.eqb f "chainguard-all.yml")) →
  writeFleetYAML creatable order queries fs
  = (add_document "chainguard-detection-5min.yml"
       (by_category "detection" queries) 300 (category_documents queries) ∪ fs,
     CreateFailed "chainguard-all.yml").
Proof.
  intros Hk Ho Hc. unfold writeFleetYAML.
  rewrite (write_categories_ext creatable always_creatable).
  2:{ intros c Hin. rewrite Hc.
      - pose proof (range_order_categories _ _ Hk Ho) as Hp.
        rewrite Hp in Hin. unfold categories in Hin.
        rewrite !elem_of_cons, elem_of_nil in Hin.
        by destruct Hin as [->|[->|[->|[]]]].
      - unfold output_names. do 2 right. by apply list_elem_of_fmap_2. }
  rewrite write_categories_always, write_categories_known by done.
  rewrite group_queries_default. unfold Create.
  rewrite (Hc "chainguard-all.yml") by (unfold output_names; left).
  rewrite (Hc "chainguard-detection-5min.yml")
    by (unfold output_names; right; left).
  cbn [String.eqb Ascii.eqb Bool.eqb negb andb].
  destruct (by_category "detection" queries) as [|q0 qs]; [done|].
  cbn [length Nat.ltb Nat.leb add_document].
  rewrite write_records_appends, records_from_0.
  by rewrite app_empty_l, insert_union_l.
Qed.

Lemma combined_failure_keeps_documents_witness :
  writeFleetYAML (fun f => negb (String.eqb f "chainguard-all.yml")) categories
    [sample_detection] ∅
  = (add_document "chainguard-detection-5min.yml"
       (by_category "detection" [sample_detection]) 300
       (category_documents [sample_detection]) ∪ ∅,
     CreateFailed "chainguard-all.yml").
Proof.
  assert (known_records [sample_detection] = true) as Hk by reflexivity.
  exact (combined_failure_keeps_documents
           (fun f => negb (String.eqb f "chainguard-all.yml")) categories
           [sample_detection] ∅ Hk
           (known_range_order _ _ Hk (reflexivity _))
           (fun f _ => eq_refl)).
Defined.

(** C10, as the code has it.  Whenever the writer returns without error,
    the combined document chainguard-all.yml holds all the records,
    whatever the records and the order of the loop; with every file
    creatable the writer does return without error; on the empty record
    sequence the combined document is created empty and no other file is
    touched; and when the writer fails on another document, the combined
    document is not reached: what the directory held under its name is as
    before. *)
Theorem combined_document_unconditional creatable order queries fs :
  (∀ fs', writeFleetYAML creatable order queries fs = (fs', Ok) →
          fs' !! "chainguard-all.yml" = Some (document queries 0))
  ∧ (writeFleetYAML always_creatable order queries fs).2 = Ok
  ∧ (creatable "chainguard-all.yml" = true →
     writeFleetYAML creatable order [] fs
     = (<["chainguard-all.yml" := ""]> fs, Ok))
  ∧ (order ≡ₚ categories →
     ∀ f, (writeFleetYAML creatable order queries fs).2 = CreateFailed f →
          f ≠ "chainguard-all.yml" →
          (writeFleetYAML creatable order queries fs).1 !! "chainguard-all.yml"
          = fs !! "chainguard-all.yml").
Proof.
  split; [|split; [|split]].
  - intros fs'. unfold writeFleetYAML.
    destruct (write_categories _ _ _ _) as [fs1 []]; [|done].
    set (det := default [] (_ !! "detection")).
    destruct (0 <? length det)%nat.
    + destruct (Create creatable "chainguard-detection-5min.yml" fs1)
        as [fs2|]; [|done].
      set (fs3 := write_records _ _ _ _ fs2).
      pose proof (write_records_all creatable queries fs3) as Hall.
      destruct (Create creatable "chainguard-all.yml" fs3) as [fs4|]; [|done].
      intros [= <-]. rewrite (Hall _ eq_refl). apply lookup_insert_eq.
    + pose proof (write_records_all creatable queries fs1) as Hall.
      destruct (Create creatable "chainguard-all.yml" fs1) as [fs4|]; [|done].
      intros [= <-]. rewrite (Hall _ eq_refl). apply lookup_insert_eq.
  - by rewrite writeFleetYAML_always.
  - intros Hc. unfold writeFleetYAML. rewrite write_categories_empty.
    rewrite group_queries_default. cbn [by_category filter list_filter length Nat.ltb Nat.leb].
    unfold Create. rewrite Hc. done.
  - intros Hp f.
    assert ("chainguard-all.yml" ∉ map category_file order) as Hn.
    { intros Hin. apply list_elem_of_In, in_map_iff in Hin as (c & Hc & Hin).
      apply list_elem_of_In in Hin. rewrite Hp in Hin. unfold categories in Hin.
      rewrite !elem_of_cons, elem_of_nil in Hin.
      destruct Hin as [->|[->|[->|[]]]]; vm_compute in Hc; discriminate. }
    unfold writeFleetYAML.
    pose proof (write_categories_other creatable (group_queries queries)
                  order fs _ Hn) as Hwc.
    destruct (write_categories _ _ _ _) as [fs1 [|f1]]; cbn [fst snd] in *;
      [|done].
    unfold Create.
    destruct (0 <? length _)%nat.
    + destruct (creatable "chainguard-detection-5min.yml"); [|done].
      destruct (creatable "chainguard-all.yml"); [done|].
      cbn [snd]. by intros [= <-].
    + destruct (creatable "chainguard-all.yml"); [done|].
      cbn [snd]. by intros [= <-].
Qed.

Lemma combined_document_unconditional_witness :
  writeFleetYAML always_creatable categories [] ∅
  = (<["chainguard-all.yml" := ""]> ∅, Ok).
Proof.
  exact (proj1 (proj2 (proj2 (combined_document_unconditional
                                always_creatable categories
                                [sample_detection] ∅))) eq_refl).
Defined.

(** C10 as the specification words it fails: the combined document is
    created last, so a run of the writer that cannot create an earlier
    document returns before it and leaves no combined document. *)
Lemma combined_document_unconditional_counterexample :
  (writeFleetYAML detection_blocked categories [sample_detection] ∅).2
  = CreateFailed "chainguard-detection.yml"
  ∧ (writeFleetYAML detection_blocked categories [sample_detection] ∅).1
    !! "chainguard-all.yml" = None.
Proof. split; vm_compute; reflexivity. Qed.

End failures.

(** ** The walk *)

Section walk.

Implicit Types e : entry.
Implicit Types es : list entry.
Implicit Types queries : list Query.

(** Induction over a tree, with the hypothesis for every entry of a
    directory. *)
Lemma entry_tree_ind (P : entry → Prop) :
  (∀ name content, P (File name content)) →
  (∀ name, P (LockedDir name)) →
  (∀ name es, Forall P es → P (Dir name es)) →
  ∀ e, P e.
Proof.
  intros Hfile Hlocked Hdir.
  refine (fix IH (e : entry) : P e :=
            match e with
            | File name content => Hfile name content
            | LockedDir name => Hlocked name
            | Dir name es =>
                Hdir name es
                  ((fix IHs (es : list entry) : Forall P es :=
                      match es with
                      | [] => Forall_nil_2 P
                      | d1 :: es' => Forall_cons_2 P d1 es' (IH d1) (IHs es')
                      end) es)
            end).
Qed.

Lemma walkDir_Dir category rel name es queries :
  walkDir category rel (Dir name es) queries
  = walk_entries category (rel ++ [name]) es queries.
Proof.
  cbn [walkDir]. revert queries.
  induction es as [|d1 es IH]; intros queries; [done|].
  cbn [walk_entries]. destruct (walkDir category (rel ++ [name]) d1 queries);
    [apply IH|done].
Qed.

Lemma walk_entries_files category rel es queries :
  Forall (fun e => ∀ rel queries,
            walkDir category rel e queries
            = if readable e
              then Some (queries ++ map (fun f => parseQuery f.1 category f.2)
                                      (sql_files rel e))
              else None) es →
  walk_entries category rel es queries
  = if forallb readable es
    then Some (queries ++ map (fun f => parseQuery f.1 category f.2)
                            (flat_map (sql_files rel) es))
    else None.
Proof.
  intros Hes. revert queries.
  induction Hes as [|e es He Hes IH]; intros queries.
  - cbn. by rewrite app_nil_r.
  - cbn [walk_entries forallb flat_map]. rewrite He.
    destruct (readable e); [|done]. cbn [andb]. rewrite IH.
    destruct (forallb readable es); [|done].
    by rewrite map_app, app_assoc.
Qed.

Lemma walkDir_files category e :
  ∀ rel queries,
    walkDir category rel e queries
    = if readable e
      then Some (queries ++ map (fun f => parseQuery f.1 category f.2)
                              (sql_files rel e))
      else None.
Proof.
  induction e as [name content|name|name es IH] using entry_tree_ind;
    intros rel queries.
  - cbn [walkDir readable sql_files].
    destruct (strings.HasSuffix name ".sql"), content; cbn [map];
      by rewrite ?app_nil_r.
  - done.
  - rewrite walkDir_Dir. cbn [readable sql_files].
    by apply walk_entries_files.
Qed.

Lemma parse_categories_records upstream cats queries :
  parse_categories upstream cats queries
  = match List.find (fun c => negb (root_readable (upstream c))) cats with
    | Some c => WalkFailed c
    | None =>
        Parsed (queries
                ++ flat_map (fun c => category_records c (upstream c)) cats)
    end.
Proof.
  revert queries. induction cats as [|c cats IH]; intros queries.
  - cbn. by rewrite app_nil_r.
  - cbn [parse_categories List.find flat_map].
    destruct (upstream c) as [| |es|] eqn:Hu; cbn [root_readable negb category_records].
    + rewrite IH. by destruct (List.find _ cats).
    + rewrite IH. by destruct (List.find _ cats).
    + rewrite walk_entries_files
        by (apply Forall_forall; intros e _; apply walkDir_files).
      destruct (forallb readable es); cbn [negb]; [|done].
      rewrite IH. destruct (List.find _ cats); [done|].
      by rewrite app_assoc.
    + done.
Qed.

(** X18.  The walk of a directory fails exactly when a directory below it cannot
    be read; otherwise it appends one record for every file whose name ends
    in [.sql] and that can be opened, in the order of the listing, and
    nothing for any other file. *)
Theorem walk_visits_readable_sql_files category rel es queries :
  walk_entries category rel es queries
  = if forallb readable es
    then Some (queries ++ map (fun f => parseQuery f.1 category f.2)
                            (flat_map (sql_files rel) es))
    else None.
Proof.
  apply walk_entries_files, Forall_forall. intros e _. apply walkDir_files.
Qed.

(** X19.  [parseAllQueries] fails at the first of detection, policy and
    incident_response whose walk fails, and otherwise returns the records
    of the three directories one after the other; a missing category
    directory gives no record and no failure. *)
Theorem parseAllQueries_by_directory upstream :
  parseAllQueries upstream
  = (if negb (root_readable (upstream "detection")) then WalkFailed "detection"
     else if negb (root_readable (upstream "policy")) then WalkFailed "policy"
     else if negb (root_readable (upstream "incident_response"))
          then WalkFailed "incident_response"
     else Parsed (category_records "detection" (upstream "detection")
                  ++ category_records "policy" (upstream "policy")
                  ++ category_records "incident_response"
                       (upstream "incident_response")))
  ∧ (∀ c, upstream c = Missing →
          root_readable (upstream c) = true ∧ category_records c (upstream c) = []).
Proof.
  split.
  - unfold parseAllQueries. rewrite parse_categories_records.
    unfold categories. cbn [List.find flat_map app].
    repeat (destruct (negb _); [done|]). by rewrite app_nil_r.
  - by intros c ->.
Qed.

Lemma parseAllQueries_all_records upstream :
  parseAllQueries upstream
  = if tree_readable upstream then Parsed (all_records upstream)
    else match List.find (fun c => negb (root_readable (upstream c))) categories with
         | Some c => WalkFailed c
         | None => Parsed []
         end.
Proof.
  unfold parseAllQueries, tree_readable, all_records.
  rewrite parse_categories_records. unfold categories.
  cbn [List.find forallb flat_map app].
  by repeat (destruct (root_readable _); cbn [negb andb]; [|done]).
Qed.

Lemma category_records_Category c r q0 :
  q0 ∈ category_records c r → Category q0 = c.
Proof.
  destruct r as [| |es|]; cbn [category_records]; try by rewrite elem_of_nil.
  rewrite list_elem_of_In, in_map_iff. intros (f & <- & _).
  apply parseQuery_Category.
Qed.

Lemma by_category_same c qs :
  (∀ q0, q0 ∈ qs → Category q0 = c) → by_category c qs = qs.
Proof.
  induction qs as [|q0 qs IH]; intros H; [done|].
  rewrite by_category_cons, decide_True by (apply H; left).
  rewrite IH; [done|]. intros q1 Hin. apply H. by right.
Qed.

Lemma by_category_other c c' qs :
  c ≠ c' → (∀ q0, q0 ∈ qs → Category q0 = c') → by_category c qs = [].
Proof.
  intros Hne. induction qs as [|q0 qs IH]; intros H; [done|].
  rewrite by_category_cons, decide_False.
  - apply IH. intros q1 Hin. apply H. by right.
  - rewrite (H q0) by left. congruence.
Qed.

Lemma by_category_app c qs qs' :
  by_category c (qs ++ qs') = by_category c qs ++ by_category c qs'.
Proof. unfold by_category. apply filter_app. Qed.

Lemma by_category_records c c' r :
  by_category c (category_records c' r)
  = if String.eqb c c' then category_records c' r else [].
Proof.
  destruct (String.eqb_spec c c') as [->|Hne].
  - apply by_category_same, category_records_Category.
  - by apply (by_category_other c c'), category_records_Category.
Qed.

Lemma all_records_known upstream : known_records (all_records upstream) = true.
Proof.
  unfold known_records. rewrite forallb_forall. intros q0 Hin.
  unfold all_records in Hin. apply in_flat_map in Hin as (c & Hc & Hin).
  apply list_elem_of_In, category_records_Category in Hin. rewrite Hin.
  unfold categories in Hc. cbn [In] in Hc.
  by destruct Hc as [<-|[<-|[<-|[]]]].
Qed.

(** X20.  The records [parseAllQueries] returns are all of a known category, and
    those of one category are exactly the records of the files of that
    category directory, in walk order: every category document is the
    document of one directory. *)
Theorem parsed_records_by_category upstream queries :
  parseAllQueries upstream = Parsed queries →
  known_records queries = true
  ∧ ∀ c, by_category c queries
         = if known_category c then category_records c (upstream c) else [].
Proof.
  rewrite parseAllQueries_all_records.
  destruct (tree_readable upstream) eqn:Hr.
  - intros [= <-]. split; [apply all_records_known|].
    intros c. unfold all_records, categories. cbn [flat_map].
    rewrite app_nil_r, !by_category_app, !by_category_records.
    unfold known_category.
    destruct (String.eqb_spec c "detection") as [->|_];
      [cbn [String.eqb Ascii.eqb Bool.eqb orb]; by rewrite !app_nil_r|].
    destruct (String.eqb_spec c "policy") as [->|_];
      [cbn [String.eqb Ascii.eqb Bool.eqb orb app]; by rewrite !app_nil_r|].
    by destruct (String.eqb_spec c "incident_response") as [->|_].
  - unfold tree_readable in Hr.
    destruct (List.find _ categories) as [c|] eqn:Hf; [done|].
    exfalso. apply not_true_iff_false in Hr. apply Hr.
    apply forallb_forall. intros c Hin.
    pose proof (find_none _ _ Hf c Hin) as Hn. cbv beta in Hn.
    by destruct (root_readable (upstream c)).
Qed.

Lemma parsed_records_by_category_witness :
  parseAllQueries sample_upstream
  = Parsed [parseQuery "execution/2-unusual-child.sql" "detection"
              ["-- tags: mitre ta0002"; "SELECT 1;"]]
  ∧ known_records [parseQuery "execution/2-unusual-child.sql" "detection"
                     ["-- tags: mitre ta0002"; "SELECT 1;"]] = true.
Proof.
  assert (parseAllQueries sample_upstream
          = Parsed [parseQuery "execution/2-unusual-child.sql" "detection"
                      ["-- tags: mitre ta0002"; "SELECT 1;"]]) as H
    by (vm_compute; reflexivity).
  exact (conj H (proj1 (parsed_records_by_category sample_upstream _ H))).
Defined.

Lemma Subcategory_of_path dirs file category lines :
  forallb (fun s => negb (mem_byte "/" s)) (dirs ++ [file]) = true →
  Subcategory (parseQuery (strings.Join (dirs ++ [file]) "/") category lines)
  = match dirs with [] => "" | d :: _ => d end.
Proof.
  intros Hs. rewrite parseQuery_closed_form. cbv zeta.
  cbn [Subcategory initial_record].
  unfold initial_record, subcategory_of. cbn [Subcategory].
  assert (strings.Split (strings.Join (dirs ++ [file]) "/") "/" = dirs ++ [file])
    as ->.
  { destruct dirs as [|d dirs]; by apply Split_Join. }
  destruct dirs as [|d dirs]; [done|].
  cbn [app length]. rewrite length_app. cbn [length].
  replace (1 <? S (length dirs + 1))%nat with true
    by (symmetry; apply Nat.ltb_lt; lia).
  done.
Qed.

Lemma sql_files_paths e :
  ∀ rel path lines,
    slash_free e = true → In (path, lines) (sql_files rel e) →
    ∃ dirs file,
      path = strings.Join (rel ++ dirs ++ [file]) "/"
      ∧ forallb (fun s => negb (mem_byte "/" s)) (dirs ++ [file]) = true
      ∧ match e with Dir name _ => head dirs = Some name | _ => dirs = [] end.
Proof.
  induction e as [name content|name|name es IH] using entry_tree_ind;
    intros rel path lines Hs Hin.
  - cbn [sql_files] in Hin. destruct content as [ls|]; [|done].
    destruct (strings.HasSuffix name ".sql"); [|done].
    destruct Hin as [[= <- <-]|[]]. exists [], name. cbn [slash_free] in Hs.
    cbn [app forallb]. by rewrite Hs.
  - done.
  - cbn [sql_files] in Hin. apply in_flat_map in Hin as (e & He & Hin).
    cbn [slash_free] in Hs. apply andb_true_iff in Hs as [Hn Hes].
    rewrite forallb_forall in Hes. rewrite Forall_forall in IH.
    destruct (IH e (proj2 (list_elem_of_In _ _) He) (rel ++ [name]) path lines
                (Hes e He) Hin) as (dirs & file & -> & Hd & _).
    exists (name :: dirs), file. split; [|split].
    + by rewrite <- app_assoc.
    + cbn [app forallb]. by rewrite Hn, Hd.
    + done.
Qed.

(** X21.  What the walk and the parser do together: every record the walk takes
    from an entry of a category directory carries the category, and as
    subcategory the name of that entry when it is a directory, however deep
    the file lies below it, and the empty string when the entry is the file
    itself. *)
Theorem subcategory_from_walk category e queries :
  slash_free e = true →
  walkDir category [] e [] = Some queries →
  ∀ q0, q0 ∈ queries →
        Category q0 = category
        ∧ Subcategory q0 = match e with Dir name _ => name | _ => "" end.
Proof.
  intros Hs. rewrite walkDir_files. destruct (readable e); [|done].
  cbn [app]. intros [= <-] q0 Hin.
  apply list_elem_of_In, in_map_iff in Hin as ([path lines] & <- & Hin).
  cbn [fst snd]. split; [apply parseQuery_Category|].
  destruct (sql_files_paths e [] path lines Hs Hin) as (dirs & file & -> & Hd & He).
  cbn [app]. rewrite Subcategory_of_path by done.
  destruct e as [| name es|]; [by rewrite He| |by rewrite He].
  destruct dirs as [|d dirs]; [done|]. cbn [head] in He. congruence.
Qed.

Lemma subcategory_from_walk_witness :
  Subcategory (parseQuery "execution/2-unusual-child.sql" "detection"
                 ["-- tags: mitre ta0002"; "SELECT 1;"])
  = "execution".
Proof.
  assert (walkDir "detection" []
            (Dir "execution"
               [ File "2-unusual-child.sql"
                   (Some ["-- tags: mitre ta0002"; "SELECT 1;"]);
                 File "README.md" (Some ["notes"]) ]) []
          = Some [parseQuery "execution/2-unusual-child.sql" "detection"
                    ["-- tags: mitre ta0002"; "SELECT 1;"]]) as H
    by (vm_compute; reflexivity).
  exact (proj2 (subcategory_from_walk "detection"
                  (Dir "execution"
                     [ File "2-unusual-child.sql"
                         (Some ["-- tags: mitre ta0002"; "SELECT 1;"]);
                       File "README.md" (Some ["notes"]) ])
                  _ eq_refl H _ (list_elem_of_here _ _))).
Defined.

End walk.

(** ** The whole run *)

Section run.

Implicit Types queries : list Query.
Implicit Types creatable : string → bool.

Lemma write_categories_Ok creatable groups order fs :
  (write_categories creatable groups order fs).2 = Ok
  ↔ ∀ c, c ∈ order → default [] (groups !! c) ≠ [] →
         creatable (category_file c) = true.
Proof.
  revert fs. induction order as [|c order IH]; intros fs.
  - split; [|done]. intros _ c Hin. by apply elem_of_nil in Hin.
  - cbn [write_categories].
    destruct (default [] (groups !! c)) as [|q0 qs] eqn:Hg; cbn [length Nat.eqb].
    + rewrite IH. split.
      * intros H c' Hin Hne. apply elem_of_cons in Hin as [->|Hin]; [|by apply H].
        by rewrite Hg in Hne.
      * intros H c' Hin. apply H. by right.
    + unfold Create. destruct (creatable (category_file c)) eqn:Hc.
      * rewrite IH. split.
        -- intros H c' Hin Hne. apply elem_of_cons in Hin as [->|Hin]; [done|].
           by apply H.
        -- intros H c' Hin. apply H. by right.
      * cbn [snd]. split; [done|]. intros H.
        rewrite H in Hc; [done|left|by rewrite Hg].
Qed.

Lemma writeFleetYAML_Ok creatable order queries fs :
  (writeFleetYAML creatable order queries fs).2 = Ok
  ↔ (∀ c, c ∈ order → by_category c queries ≠ [] →
          creatable (category_file c) = true)
    ∧ (by_category "detection" queries ≠ [] →
       creatable "chainguard-detection-5min.yml" = true)
    ∧ creatable "chainguard-all.yml" = true.
Proof.
  unfold writeFleetYAML.
  pose proof (write_categories_Ok creatable (group_queries queries) order fs)
    as Hwc.
  assert ((∀ c, c ∈ order → default [] (group_queries queries !! c) ≠ [] →
                creatable (category_file c) = true)
          ↔ (∀ c, c ∈ order → by_category c queries ≠ [] →
                  creatable (category_file c) = true)) as Hg.
  { split; intros H c Hin Hne; apply H; try done;
      by rewrite ?group_queries_default in *. }
  rewrite Hg in Hwc. clear Hg. rewrite group_queries_default.
  destruct (write_categories _ _ _ _) as [fs1 [|f]]; cbn [snd] in Hwc.
  - destruct (by_category "detection" queries) as [|q0 qs];
      cbn [length Nat.ltb Nat.leb]; unfold Create.
    + destruct (creatable "chainguard-all.yml"); cbn [snd].
      * split; [|done]. intros _. split; [by apply Hwc|done].
      * split; [done|]. by intros (_ & _ & ?).
    + destruct (creatable "chainguard-detection-5min.yml"); cbn [snd].
      * destruct (creatable "chainguard-all.yml"); cbn [snd].
        -- split; [|done]. intros _. split; [by apply Hwc|done].
        -- split; [done|]. by intros (_ & _ & ?).
      * split; [done|]. intros (_ & H & _). by specialize (H ltac:(done)).
  - cbn [snd]. split; [done|]. intros (H & _). by apply Hwc in H.
Qed.

(** X22.  Writing succeeds exactly when every file of a category that has
    records, the file of the forced interval when detection has records,
    and the combined file can be created: the file of an empty category is
    never asked for. *)
Theorem write_succeeds_iff creatable order queries fs :
  (writeFleetYAML creatable order queries fs).2 = Ok
  ↔ (∀ c, c ∈ order → by_category c queries ≠ [] →
          creatable (category_file c) = true)
    ∧ (by_category "detection" queries ≠ [] →
       creatable "chainguard-detection-5min.yml" = true)
    ∧ creatable "chainguard-all.yml" = true.
Proof. apply writeFleetYAML_Ok. Qed.

Lemma write_categories_ext_nonempty creatable creatable' groups order fs :
  (∀ c, c ∈ order → default [] (groups !! c) ≠ [] →
        creatable (category_file c) = creatable' (category_file c)) →
  write_categories creatable groups order fs
  = write_categories creatable' groups order fs.
Proof.
  revert fs. induction order as [|c order IH]; intros fs Hc; [done|].
  cbn [write_categories]. unfold Create.
  destruct (default [] (groups !! c)) as [|q0 qs] eqn:Hg; cbn [length Nat.eqb].
  - apply IH. intros c' Hin. apply Hc. by right.
  - rewrite <- (Hc c) by (try left; by rewrite ?Hg).
    destruct (creatable (category_file c)); [|done].
    apply IH. intros c' Hin. apply Hc. by right.
Qed.

Lemma writeFleetYAML_ext creatable creatable' order queries fs :
  (∀ c, c ∈ order → by_category c queries ≠ [] →
        creatable (category_file c) = creatable' (category_file c)) →
  (by_category "detection" queries ≠ [] →
   creatable "chainguard-detection-5min.yml"
   = creatable' "chainguard-detection-5min.yml") →
  creatable "chainguard-all.yml" = creatable' "chainguard-all.yml" →
  writeFleetYAML creatable order queries fs
  = writeFleetYAML creatable' order queries fs.
Proof.
  intros H1 H2 H3. unfold writeFleetYAML.
  rewrite (write_categories_ext_nonempty creatable creatable')
    by (intros c Hin Hne; apply H1; [done|by rewrite <- group_queries_default]).
  destruct (write_categories _ _ _ _) as [fs1 [|f]]; [|done].
  rewrite group_queries_default. unfold Create. rewrite <- H3.
  destruct (by_category "detection" queries) as [|q0 qs]; [done|].
  by rewrite <- H2.
Qed.

Lemma created_names_creatable creatable queries :
  (∀ f, f ∈ created_names queries → creatable f = true)
  ↔ (∀ c, c ∈ categories → by_category c queries ≠ [] →
          creatable (category_file c) = true)
    ∧ (by_category "detection" queries ≠ [] →
       creatable "chainguard-detection-5min.yml" = true)
    ∧ creatable "chainguard-all.yml" = true.
Proof.
  unfold created_names. split.
  - intros H. split; [|split].
    + intros c Hc Hne. apply H. rewrite elem_of_app. left.
      apply list_elem_of_In, in_map_iff. exists c. split; [done|].
      apply filter_In. split; [by apply list_elem_of_In|].
      by destruct (by_category c queries).
    + intros Hne. apply H. rewrite !elem_of_app. right. left.
      destruct (by_category "detection" queries); [done|]. left.
    + apply H. rewrite !elem_of_app. right. right. left.
  - intros (H1 & H2 & H3) f. rewrite !elem_of_app. intros [Hin|[Hin|Hin]].
    + apply list_elem_of_In, in_map_iff in Hin as (c & <- & Hin).
      apply filter_In in Hin as [Hc Hne].
      apply H1; [by apply list_elem_of_In|].
      by destruct (by_category c queries).
    + destruct (by_category "detection" queries) as [|q0 qs];
        cbn [length Nat.ltb Nat.leb] in Hin; [by apply elem_of_nil in Hin|].
      apply list_elem_of_singleton in Hin as ->. by apply H2.
    + by apply list_elem_of_singleton in Hin as ->.
Qed.

Lemma parseAllQueries_failed upstream :
  tree_readable upstream = false →
  ∃ c, parseAllQueries upstream = WalkFailed c
       ∧ c ∈ categories ∧ root_readable (upstream c) = false.
Proof.
  intros Hr. rewrite parseAllQueries_all_records, Hr.
  destruct (List.find _ categories) as [c|] eqn:Hf.
  - exists c. split; [done|]. apply find_some in Hf as [Hin Hb].
    split; [by apply list_elem_of_In|]. by destruct (root_readable _).
  - exfalso. apply not_true_iff_false in Hr. apply Hr.
    apply forallb_forall. intros c Hin.
    pose proof (find_none _ _ Hf c Hin) as Hn. cbv beta in Hn.
    by destruct (root_readable (upstream c)).
Qed.

(** X23.  Once the flags are parsed, a directory that cannot be read
    anywhere below a category directory ends the run with status 1 before
    anything is written, whatever the other directories hold, and so does
    a failure to make the output directory; and whatever the command
    line, such a run leaves the output directory as it was. *)
Theorem walk_failure_writes_nothing upstream mkdir creatable order fs c :
  c ∈ categories → root_readable (upstream c) = false ∨ mkdir = false →
  main FlagsParsed upstream mkdir creatable order fs = (1, fs)
  ∧ ∀ flags, (main flags upstream mkdir creatable order fs).2 = fs.
Proof.
  intros Hc Hfail.
  assert (main FlagsParsed upstream mkdir creatable order fs = (1, fs)) as Hm.
  { destruct Hfail as [Hr| ->].
    - assert (tree_readable upstream = false) as Ht.
      { apply not_true_iff_false. intros Ht. unfold tree_readable in Ht.
        rewrite forallb_forall in Ht. specialize (Ht c).
        rewrite Ht in Hr; [done|by apply list_elem_of_In]. }
      destruct (parseAllQueries_failed _ Ht) as (c' & Hp & _).
      unfold main. by rewrite Hp.
    - unfold main. by destruct (parseAllQueries upstream). }
  split; [done|]. intros [| |]; [by rewrite Hm|done|done].
Qed.

Lemma walk_failure_writes_nothing_witness :
  main FlagsParsed locked_upstream true always_creatable categories ∅ = (1, ∅).
Proof.
  assert ("policy" ∈ categories) as Hc by (right; left).
  exact (proj1 (walk_failure_writes_nothing locked_upstream true
                  always_creatable categories ∅ "policy" Hc
                  (or_introl eq_refl))).
Defined.

(** X24.  The exit status of a run.  It is 2 exactly when the command line
    is refused and otherwise 0 or 1.  It is 0 when help is asked for, and
    nothing is written then; on a parsed command line it is 0 exactly when
    no walk fails, the output directory can be made and every file that
    has records to hold can be created, and the output directory then
    holds the documents of the records of the three directories, every
    other file of it being as before. *)
Theorem main_exit_status flags upstream mkdir creatable order fs :
  order ≡ₚ categories →
  ((main flags upstream mkdir creatable order fs).1 = 0
   ↔ flags = HelpRequested
     ∨ (flags = FlagsParsed ∧ tree_readable upstream = true ∧ mkdir = true
        ∧ ∀ f, f ∈ created_names (all_records upstream) → creatable f = true))
  ∧ ((main flags upstream mkdir creatable order fs).1 = 2 ↔ flags = BadFlag)
  ∧ (flags = FlagsParsed →
     (main flags upstream mkdir creatable order fs).1 = 0 →
     (main flags upstream mkdir creatable order fs).2
     = documents (all_records upstream) ∪ fs)
  ∧ (flags ≠ FlagsParsed →
     (main flags upstream mkdir creatable order fs).2 = fs)
  ∧ ((main flags upstream mkdir creatable order fs).1 = 0
     ∨ (main flags upstream mkdir creatable order fs).1 = 1
     ∨ (main flags upstream mkdir creatable order fs).1 = 2).
Proof.
  intros Hp. set (queries := all_records upstream).
  assert (known_records queries = true) as Hk by apply all_records_known.
  assert (range_order queries order) as Ho by by apply known_range_order.
  assert ((writeFleetYAML creatable order queries fs).2 = Ok
          ↔ ∀ f, f ∈ created_names queries → creatable f = true) as Hiff.
  { rewrite writeFleetYAML_Ok, created_names_creatable.
    split; intros (H1 & H2 & H3); (split; [|done]);
      intros c Hin; apply H1; by rewrite ?Hp in *. }
  assert ((∀ f, f ∈ created_names queries → creatable f = true) →
          writeFleetYAML creatable order queries fs
          = (documents queries ∪ fs, Ok)) as Hout.
  { intros Hall. apply created_names_creatable in Hall as (H1 & H2 & H3).
    rewrite (writeFleetYAML_ext creatable always_creatable).
    - by apply writeFleetYAML_documents.
    - intros c Hin Hne. rewrite Hp in Hin. by rewrite H1.
    - intros Hne. by rewrite H2.
    - by rewrite H3. }
  destruct flags; cbn [main fst snd].
  - destruct (tree_readable upstream) eqn:Hr.
    + rewrite parseAllQueries_all_records, Hr. fold queries. destruct mkdir.
      * destruct (writeFleetYAML creatable order queries fs) as [fs' [|f]] eqn:Hw;
          cbn [fst snd] in *.
        -- assert (∀ f, f ∈ created_names queries → creatable f = true) as Hall
             by by apply Hiff.
           specialize (Hout Hall).
           repeat split; try done; try (by left); try congruence.
           intros _. by right.
        -- repeat split; try done; try (by right; left).
           intros [|(_ & _ & _ & Hall)]; [done|]. by apply Hiff in Hall.
      * cbn [fst snd]. repeat split; try done; try (by right; left).
        by intros [|(_ & _ & ? & _)].
    + destruct (parseAllQueries_failed _ Hr) as (c & -> & _). cbn [fst snd].
      repeat split; try done; try (by right; left).
      by intros [|(_ & ? & _)].
  - repeat split; try done; try (by left); try (by intros _; left).
  - repeat split; try done; try (by right; right); try (by intros [|[? _]]).
Qed.

Lemma main_exit_status_witness :
  (main FlagsParsed sample_upstream true always_creatable categories ∅).2
  = documents (all_records sample_upstream) ∪ ∅.
Proof.
  assert (categories ≡ₚ categories) as Hp by reflexivity.
  assert (FlagsParsed = HelpRequested
          ∨ (FlagsParsed = FlagsParsed
             ∧ tree_readable sample_upstream = true ∧ true = true
             ∧ ∀ f, f ∈ created_names (all_records sample_upstream) →
                    always_creatable f = true)) as Hc by (right; done).
  destruct (main_exit_status FlagsParsed sample_upstream true always_creatable
              categories ∅ Hp) as (H0 & _ & Hdocs & _).
  exact (Hdocs eq_refl (proj2 H0 Hc)).
Defined.

End run.

(** ** The literal block *)

Section block.

Implicit Types s t sql : string.

Lemma Split_pieces c s :
  forallb (fun p => negb (mem_byte c p)) (strings.Split s (String c "")) = true.
Proof.
  induction s as [|a s IH]; [done|]. rewrite Split_cons.
  destruct (Ascii.eqb a c) eqn:Ha; [by cbn [forallb]; rewrite IH|].
  destruct (strings.Split s (String c "")) as [|piece pieces].
  - unfold mem_byte. cbn [forallb any_byte]. rewrite Ascii.eqb_sym in Ha.
    by rewrite Ha.
  - cbn [forallb] in *. apply andb_true_iff in IH as [Hp Hps].
    rewrite Hps, andb_true_r. unfold mem_byte in *. cbn [any_byte].
    rewrite Ascii.eqb_sym in Ha. by rewrite Ha.
Qed.

Lemma Split_block lines :
  forallb (fun p => negb (mem_byte newline p)) lines = true →
  strings.Split
    (fold_right (fun line rest => ("    " +:+ line +:+ nl) +:+ rest) "" lines) nl
  = map (fun line => "    " +:+ line) lines ++ [""].
Proof.
  induction lines as [|line lines IH]; [done|].
  cbn [forallb fold_right map app]. intros H.
  apply andb_true_iff in H as [Hl Hls].
  rewrite <- (IH Hls).
  rewrite <- (app_assoc_str "    " line nl), app_assoc_str.
  unfold nl. rewrite (app_cons newline ""), app_empty_l.
  apply (Split_app_sep newline ("    " +:+ line)).
  apply negb_true_iff in Hl. unfold mem_byte in *.
  rewrite !app_cons, app_empty_l. by cbn [any_byte Ascii.eqb Bool.eqb orb].
Qed.

Lemma map_drop_margin lines :
  map (strings.drop 4) (map (fun line => "    " +:+ line) lines) = lines.
Proof. induction lines as [|line lines IH]; [done|]. cbn [map]. by rewrite IH. Qed.

Lemma read_block_query_block sql : read_block (query_block sql) = sql.
Proof.
  unfold read_block, query_block.
  rewrite Split_block by apply (Split_pieces newline).
  rewrite removelast_last, map_drop_margin. apply (Join_Split newline).
Qed.

(** X25.  The literal block loses nothing although nothing in it is escaped: the
    loop of the writer over the lines of the query appends the block, the
    query can be read back from the block by taking the margin off every
    line, and so two different queries never give the same block. *)
Theorem query_block_read_back w sql c (fs : files) :
  fold_left (fun fs line => WriteString w ("    " +:+ line +:+ nl) fs)
    (strings.Split (escapeYAMLMultiline sql) nl) (<[w := c]> fs)
  = <[w := c +:+ query_block sql]> fs
  ∧ read_block (query_block sql) = sql
  ∧ ∀ sql', query_block sql = query_block sql' → sql = sql'.
Proof.
  split; [|split].
  - unfold escapeYAMLMultiline, query_block. revert c.
    induction (strings.Split sql nl) as [|line lines IH]; intros c.
    + cbn [fold_left fold_right]. by rewrite app_empty_r.
    + cbn [fold_left fold_right]. unfold WriteString at 2.
      rewrite alter_insert_eq, IH. by rewrite app_assoc_str.
  - apply read_block_query_block.
  - intros sql' H. apply (f_equal read_block) in H.
    by rewrite !read_block_query_block in H.
Qed.

End block.

(** ** Names *)

Section names.

Implicit Types r prev : N.
Implicit Types rs : list N.

Lemma below_128 (P : N → bool) :
  forallb P (map N.of_nat (seq 0 128)) = true →
  ∀ r, (r < 128)%N → P r = true.
Proof.
  intros H r Hr. rewrite forallb_forall in H. apply H.
  apply in_map_iff. exists (N.to_nat r). split; [lia|]. apply in_seq. lia.
Qed.

Lemma isSeparator_word_break r : isSeparator r = word_break r.
Proof.
  destruct (N.ltb_spec r 128) as [Hr|Hr].
  - apply Bool.eqb_prop.
    apply (below_128 (fun r => Bool.eqb (isSeparator r) (word_break r)));
      [by vm_compute|done].
  - unfold isSeparator, word_break.
    destruct (N.leb_spec r 0x7F); [lia|].
    by destruct (N.ltb_spec r 128); [lia|].
Qed.

Lemma ToTitle_capital r : unicode.ToTitle r = capital r.
Proof.
  destruct (N.ltb_spec r 128) as [Hr|Hr].
  - apply N.eqb_eq.
    apply (below_128 (fun r => (unicode.ToTitle r =? capital r)%N));
      [by vm_compute|done].
  - unfold unicode.ToTitle, capital, unicode.MaxASCII.
    destruct (N.leb_spec r 0x7F); [lia|].
    by destruct (N.ltb_spec r 128); [lia|].
Qed.

(** The closure of Title run over the runes is the capital at every start
    of a word. *)
Lemma map_runes_title prev rs :
  map_runes (fun prev r => (r, if isSeparator prev then unicode.ToTitle r else r))
    prev rs
  = encode_runes
      (imap (fun i r => if match i with
                           | O => isSeparator prev
                           | S j => word_break (nth j rs 0%N)
                           end
                        then capital r else r) rs).
Proof.
  revert prev. induction rs as [|r rs IH]; intros prev; [done|].
  cbn [map_runes imap encode_runes fold_right]. rewrite ToTitle_capital.
  f_equal. rewrite IH. unfold encode_runes. f_equal.
  apply imap_ext. intros [|j] r' _; cbn [compose nth]; [|done].
  by rewrite isSeparator_word_break.
Qed.

Lemma Title_words s : Title s = encode_runes (title_words (utf8.runes s)).
Proof. unfold Title, Map. by rewrite map_runes_title. Qed.

(** C9. The name of a record is fixed by the file name, the category and
    the subcategory, whatever the file holds.  It is the file name without
    its .sql suffix, every hyphen and underscore turned into a space and
    every word given a capital: the rune that starts the text or follows a
    rune that ends a word (an ASCII rune that is no letter, digit or
    underscore, or white space) is replaced by its capital, all other
    runes are kept; in front of it stands the category between brackets
    when the subcategory is empty, category/subcategory between brackets
    otherwise. *)
Theorem generateName_spec base category subcategory :
  generateName (base +:+ ".sql") category subcategory
  = (if String.eqb subcategory "" then "[" +:+ category +:+ "] "
     else "[" +:+ category +:+ "/" +:+ subcategory +:+ "] ")
    +:+ encode_runes
          (title_words (utf8.runes (map_bytes dash_to_space base)))
  ∧ (∀ relPath lines,
       Name (parseQuery relPath category lines)
       = generateName (effective_filename relPath) category
           (subcategory_of relPath))
  ∧ generateName "unusual-child.sql" "detection" "execution"
    = "[detection/execution] Unusual Child"
  ∧ generateName "listening_ports.sql" "incident_response" ""
    = "[incident_response] Listening Ports"
  ∧ generateName "macOS_über-check.sql" "policy" ""
    = "[policy] MacOS Über Check".
Proof.
  split; [|split; [|repeat split; by vm_compute]].
  - rewrite generateName_unfold, TrimSuffix_app, Title_words.
    unfold name_prefix. by destruct (String.eqb subcategory "").
  - intros relPath lines. rewrite parseQuery_closed_form. cbv zeta.
    cbn [Name]. by unfold initial_record.
Qed.

End names.

(** ** UTF-8: decoding and encoding *)

Section utf8_round_trip.

Local Open Scope N_scope.

Lemma byte_val_embedding c : ascii_of_N (byte_val c) = c.
Proof. apply ascii_N_embedding. Qed.

Lemma byte_val_bound c : byte_val c < 256.
Proof. apply N_ascii_bounded. Qed.

Lemma encode_1 a :
  a < 128 → utf8.EncodeRune a = String (ascii_of_N a) "".
Proof.
  intros Ha. unfold utf8.EncodeRune.
  by destruct (N.leb_spec a 0x7F); [|lia].
Qed.

Lemma encode_2 a b :
  2 <= a < 32 → b < 64 →
  utf8.EncodeRune (a * 64 + b)
  = String (ascii_of_N (0xC0 + a)) (String (ascii_of_N (0x80 + b)) "").
Proof.
  intros Ha Hb. unfold utf8.EncodeRune.
  destruct (N.leb_spec (a * 64 + b) 0x7F); [lia|].
  destruct (N.leb_spec (a * 64 + b) 0x7FF); [|lia].
  replace ((a * 64 + b) / 64) with a
    by (apply (N.div_unique _ 64 a b); lia).
  replace ((a * 64 + b) mod 64) with b
    by (apply (N.mod_unique _ 64 a b); lia).
  done.
Qed.

Lemma encode_3 a b c :
  a < 16 → b < 64 → c < 64 →
  0x800 <= (a * 64 + b) * 64 + c →
  ¬ (0xD800 <= (a * 64 + b) * 64 + c <= 0xDFFF) →
  utf8.EncodeRune ((a * 64 + b) * 64 + c)
  = String (ascii_of_N (0xE0 + a))
      (String (ascii_of_N (0x80 + b)) (String (ascii_of_N (0x80 + c)) "")).
Proof.
  intros Ha Hb Hc Hlo Hsur. unfold utf8.EncodeRune.
  set (r := (a * 64 + b) * 64 + c) in *.
  destruct (N.leb_spec r 0x7F); [lia|].
  destruct (N.leb_spec r 0x7FF); [lia|].
  assert (r <= 0xFFFF) as Hr by (unfold r; lia).
  destruct (N.ltb_spec 0x10FFFF r); [lia|]. cbn [orb].
  assert ((0xD800 <=? r) && (r <=? 0xDFFF) = false) as ->.
  { apply andb_false_iff.
    destruct (N.leb_spec 0xD800 r); [|by left].
    destruct (N.leb_spec r 0xDFFF); [lia|by right]. }
  destruct (N.leb_spec r 0xFFFF); [|lia].
  replace (r / 4096) with a
    by (apply (N.div_unique _ 4096 a (b * 64 + c)); unfold r; lia).
  replace (r / 64) with (a * 64 + b)
    by (apply (N.div_unique _ 64 (a * 64 + b) c); unfold r; lia).
  replace ((a * 64 + b) mod 64) with b
    by (apply (N.mod_unique _ 64 a b); lia).
  replace (r mod 64) with c
    by (apply (N.mod_unique _ 64 (a * 64 + b) c); unfold r; lia).
  done.
Qed.

Lemma encode_4 a b c d :
  a < 8 → b < 64 → c < 64 → d < 64 →
  0x10000 <= ((a * 64 + b) * 64 + c) * 64 + d <= 0x10FFFF →
  utf8.EncodeRune (((a * 64 + b) * 64 + c) * 64 + d)
  = String (ascii_of_N (0xF0 + a))
      (String (ascii_of_N (0x80 + b))
         (String (ascii_of_N (0x80 + c)) (String (ascii_of_N (0x80 + d)) ""))).
Proof.
  intros Ha Hb Hc Hd Hr. unfold utf8.EncodeRune.
  set (r := ((a * 64 + b) * 64 + c) * 64 + d) in *.
  destruct (N.leb_spec r 0x7F); [lia|].
  destruct (N.leb_spec r 0x7FF); [lia|].
  destruct (N.ltb_spec 0x10FFFF r); [lia|]. cbn [orb].
  assert ((0xD800 <=? r) && (r <=? 0xDFFF) = false) as ->.
  { apply andb_false_iff. right. apply N.leb_gt. lia. }
  destruct (N.leb_spec r 0xFFFF); [lia|].
  replace (r / 262144) with a
    by (apply (N.div_unique _ 262144 a ((b * 64 + c) * 64 + d)); unfold r; lia).
  replace (r / 4096) with (a * 64 + b)
    by (apply (N.div_unique _ 4096 (a * 64 + b) (c * 64 + d)); unfold r; lia).
  replace (r / 64) with ((a * 64 + b) * 64 + c)
    by (apply (N.div_unique _ 64 ((a * 64 + b) * 64 + c) d); unfold r; lia).
  replace ((a * 64 + b) mod 64) with b
    by (apply (N.mod_unique _ 64 a b); lia).
  replace (((a * 64 + b) * 64 + c) mod 64) with c
    by (apply (N.mod_unique _ 64 (a * 64 + b) c); lia).
  replace (r mod 64) with d
    by (apply (N.mod_unique _ 64 ((a * 64 + b) * 64 + c) d); unfold r; lia).
  done.
Qed.

Local Ltac bounds :=
  unfold utf8.in_range, utf8.is_cont, utf8.low6 in *;
  repeat match goal with
         | H : (_ && _)%bool = true |- _ => apply andb_true_iff in H as [? ?]
         | H : (_ <=? _) = true |- _ => apply N.leb_le in H
         | H : (_ <? _) = true |- _ => apply N.ltb_lt in H
         | H : (_ <? _) = false |- _ => apply N.ltb_ge in H
         | H : (_ =? _) = true |- _ => apply N.eqb_eq in H
         | H : (_ =? _) = false |- _ => apply N.eqb_neq in H
         end.

Lemma second_ok_bounds b0 b1 :
  utf8.second_ok b0 b1 = true →
  0x80 <= byte_val b1 <= 0xBF
  ∧ (byte_val b0 = 0xE0 → 0xA0 <= byte_val b1)
  ∧ (byte_val b0 = 0xED → byte_val b1 <= 0x9F)
  ∧ (byte_val b0 = 0xF0 → 0x90 <= byte_val b1)
  ∧ (byte_val b0 = 0xF4 → byte_val b1 <= 0x8F).
Proof.
  unfold utf8.second_ok. cbv zeta.
  destruct (byte_val b0 =? 0xE0) eqn:H0; [intros; bounds; lia|].
  destruct (byte_val b0 =? 0xED) eqn:H1; [intros; bounds; lia|].
  destruct (byte_val b0 =? 0xF0) eqn:H2; [intros; bounds; lia|].
  destruct (byte_val b0 =? 0xF4) eqn:H3; [intros; bounds; lia|].
  intros; bounds; lia.
Qed.

(** A rune that was decoded from well-formed bytes is encoded as those
    bytes: what [strings.Map] writes for a rune its mapping leaves alone
    is what the string held. *)
Lemma EncodeRune_DecodeRune s r w :
  utf8.DecodeRuneInString s = (r, w) →
  w ≠ 0%nat → r ≠ utf8.RuneError ∨ w ≠ 1%nat →
  utf8.EncodeRune r = strings.take w s.
Proof.
  destruct s as [|b0 s1]; [by intros [= <- <-]|].
  unfold utf8.DecodeRuneInString. cbv zeta.
  pose proof (byte_val_bound b0) as Hb0.
  destruct (byte_val b0 <? 0x80) eqn:H1.
  { intros [= <- <-] _ _. bounds. rewrite encode_1 by done.
    by rewrite byte_val_embedding. }
  destruct (utf8.in_range 0xC2 0xDF b0) eqn:H2.
  { destruct s1 as [|b1 s2]; [intros [= <- <-] _ [|]; done|].
    destruct (utf8.is_cont b1) eqn:Hc1; [|intros [= <- <-] _ [|]; done].
    intros [= <- <-] _ _. bounds.
    rewrite encode_2 by lia.
    replace (0xC0 + (byte_val b0 - 0xC0)) with (byte_val b0) by lia.
    replace (0x80 + (byte_val b1 - 0x80)) with (byte_val b1) by lia.
    by rewrite !byte_val_embedding. }
  destruct (utf8.in_range 0xE0 0xEF b0) eqn:H3.
  { destruct s1 as [|b1 [|b2 s3]]; try (intros [= <- <-] _ [|]; done).
    destruct (utf8.second_ok b0 b1 && utf8.is_cont b2) eqn:Hc;
      [|intros [= <- <-] _ [|]; done].
    apply andb_true_iff in Hc as [Hs Hc2].
    apply second_ok_bounds in Hs as (Hb1 & HE0 & HED & _).
    intros [= <- <-] _ _. bounds.
    rewrite encode_3 by lia.
    replace (0xE0 + (byte_val b0 - 0xE0)) with (byte_val b0) by lia.
    replace (0x80 + (byte_val b1 - 0x80)) with (byte_val b1) by lia.
    replace (0x80 + (byte_val b2 - 0x80)) with (byte_val b2) by lia.
    by rewrite !byte_val_embedding. }
  destruct (utf8.in_range 0xF0 0xF4 b0) eqn:H4.
  { destruct s1 as [|b1 [|b2 [|b3 s4]]]; try (intros [= <- <-] _ [|]; done).
    destruct (utf8.second_ok b0 b1 && utf8.is_cont b2 && utf8.is_cont b3) eqn:Hc;
      [|intros [= <- <-] _ [|]; done].
    apply andb_true_iff in Hc as [Hc Hc3].
    apply andb_true_iff in Hc as [Hs Hc2].
    apply second_ok_bounds in Hs as (Hb1 & _ & _ & HF0 & HF4).
    intros [= <- <-] _ _. bounds.
    rewrite encode_4 by lia.
    replace (0xF0 + (byte_val b0 - 0xF0)) with (byte_val b0) by lia.
    replace (0x80 + (byte_val b1 - 0x80)) with (byte_val b1) by lia.
    replace (0x80 + (byte_val b2 - 0x80)) with (byte_val b2) by lia.
    replace (0x80 + (byte_val b3 - 0x80)) with (byte_val b3) by lia.
    by rewrite !byte_val_embedding. }
  intros [= <- <-] _ [|]; done.
Qed.

Local Close Scope N_scope.

Lemma decode_width_pos b0 s1 r w :
  utf8.DecodeRuneInString (String b0 s1) = (r, w) → w ≠ 0%nat.
Proof.
  unfold utf8.DecodeRuneInString. cbv zeta.
  repeat case_match; by intros [= <- <-].
Qed.

Lemma runes_from_drop k s : utf8.runes_from k s = utf8.runes (strings.drop k s).
Proof.
  revert k. induction s as [|c s IH]; intros [|k]; try done.
  cbn [utf8.runes_from strings.drop]. apply IH.
Qed.

Lemma valid_from_drop k s :
  utf8.valid_from k s = utf8.ValidString (strings.drop k s).
Proof.
  revert k. induction s as [|c s IH]; intros [|k]; try done.
  cbn [utf8.valid_from strings.drop]. apply IH.
Qed.

Lemma take_drop_str w s : strings.take w s +:+ strings.drop w s = s.
Proof.
  revert w. induction s as [|c s IH]; intros [|w]; try done.
  cbn [strings.take strings.drop]. by rewrite app_cons, IH.
Qed.

Lemma length_drop_le k s :
  (String.length (strings.drop k s) ≤ String.length s)%nat.
Proof.
  revert k. induction s as [|c s IH]; intros [|k]; cbn; try lia.
  specialize (IH k). lia.
Qed.

(** Decoding a well-formed string and encoding its runes gives the string
    back. *)
Lemma encode_runes_runes s :
  utf8.ValidString s = true → encode_runes (utf8.runes s) = s.
Proof.
  remember (String.length s) as n eqn:Hn.
  assert (String.length s ≤ n)%nat as Hle by lia. clear Hn.
  revert s Hle. induction n as [|n IH]; intros [|b0 s1] Hle; try done.
  { cbn in Hle. lia. }
  unfold utf8.ValidString, utf8.runes.
  cbn [utf8.valid_from utf8.runes_from].
  destruct (utf8.DecodeRuneInString (String b0 s1)) as [r w] eqn:Hd.
  pose proof (decode_width_pos _ _ _ _ Hd) as Hw.
  rewrite valid_from_drop, runes_from_drop.
  intros Hv. apply andb_true_iff in Hv as [Hr Hv].
  cbn [encode_runes fold_right]. fold (encode_runes (utf8.runes (strings.drop (w - 1) s1))).
  rewrite IH; [|pose proof (length_drop_le (w - 1) s1); cbn in Hle; lia|done].
  rewrite (EncodeRune_DecodeRune _ _ _ Hd Hw).
  - destruct w as [|w]; [done|]. cbn [strings.take]. rewrite app_cons.
    replace (S w - 1)%nat with w by lia. by rewrite take_drop_str.
  - apply negb_true_iff, andb_false_iff in Hr as [Hr|Hr].
    + left. by apply N.eqb_neq.
    + right. by apply Nat.eqb_neq.
Qed.

Lemma map_runes_unchanged {S : Type} (st : S) rs :
  map_runes (fun st r => (st, r)) st rs = encode_runes rs.
Proof. induction rs as [|r rs IH]; [done|]. cbn. by rewrite IH. Qed.

(** [strings.Map] with a mapping that leaves every rune alone returns a
    well-formed string as it is. *)
Lemma Map_unchanged {S : Type} (st : S) s :
  utf8.ValidString s = true → Map (fun st r => (st, r)) st s = s.
Proof.
  intros Hv. unfold Map. rewrite map_runes_unchanged.
  by apply encode_runes_runes.
Qed.

End utf8_round_trip.
